(** * Pooler: epoch detector, processor distributor and RPC rate limiter

    A shallow embedding of the coordination logic of the pooler services:

    - [system_epoch_detector.py]: the [chunks] generator and the polling
      loop of [EpochDetectorProcess.run] together with the
      [rabbitmq_and_redis_cleanup] decorator;
    - [pooler/processor_distributor.py]: routing of inbound deliveries,
      the per-project fan-out and the multi-project aggregation join;
    - [uniswap_functions.py]: [check_rpc_rate_limit] and the Lua scripts
      of the rate limiter;
    - [pooler/utils/redis/redis_keys.py]: the keys of the store.

    Python integers are unbounded and are modelled by [Z].  The integers of
    Redis are signed 64-bit and the numbers of Lua are doubles: both are
    modelled inside [Z], with their bounds and their rounding written out;
    the clock of Redis counts milliseconds.  Python strings are modelled by
    byte strings, and [str.lower] on ASCII text. *)

From stdpp Require Import gmap strings list pretty.
From Stdlib Require Import ZArith Lia.

(** ** Python's [range] *)

Module PyRange.
Local Open Scope Z_scope.

(** Number of elements of [range(start, stop, step)] for [step <> 0]. *)
Definition range_len (start stop step : Z) : Z :=
  if 0 <? step then
    if start <? stop then 1 + (stop - 1 - start) / step else 0
  else
    if stop <? start then 1 + (start - 1 - stop) / (- step) else 0.

(** [range(start, stop, step)]; [None] stands for the [ValueError] that
    Python raises on a zero step. *)
Definition range (start stop step : Z) : option (list Z) :=
  if step =? 0 then None
  else Some ((λ k : nat, start + Z.of_nat k * step)
               <$> seq 0 (Z.to_nat (range_len start stop step))).

End PyRange.

(** ** The epoch detector *)

Module EpochDetector.
Local Open Scope Z_scope.

(** One item yielded by [chunks]: [(begin_idx, end_idx, run_idx)]. *)
Definition chunk : Type := Z * Z * Z.

Definition chunk_begin (c : chunk) : Z := c.1.1.
Definition chunk_end (c : chunk) : Z := c.1.2.

(** Body of the [for i in range(...)] loop of [chunks]; [run_idx] is the
    value of the counter on entry.  The early [return] ends the generator. *)
Fixpoint chunks_loop (stop_idx n : Z) (idxs : list Z) (run_idx : Z)
  : list chunk :=
  match idxs with
  | [] => []
  | i :: rest =>
      let begin_idx := i in
      if begin_idx =? stop_idx + 1 then []
      else
        let end_idx := if i + n - 1 <=? stop_idx then i + n - 1 else stop_idx in
        let run_idx := run_idx + 1 in
        (begin_idx, end_idx, run_idx) :: chunks_loop stop_idx n rest run_idx
  end.

(** [chunks(start_idx, stop_idx, n)], as the list of the yielded tuples. *)
Definition chunks (start_idx stop_idx n : Z) : option (list chunk) :=
  idxs ← PyRange.range start_idx (stop_idx + 1) n;
  Some (chunks_loop stop_idx n idxs 0).

(** [x] lies in the block range of chunk [c]. *)
Definition in_chunk (x : Z) (c : chunk) : Prop :=
  chunk_begin c <= x <= chunk_end c.

(** [partitions a b cs]: the chunks [cs] are non-empty, consecutive, start
    at [a] and end at [b]. *)
Inductive partitions : Z → Z → list chunk → Prop :=
  | partitions_last a b r :
      a <= b → partitions a b [(a, b, r)]
  | partitions_step a e b r cs :
      a <= e → e < b → partitions (e + 1) b cs →
      partitions a b ((a, e, r) :: cs).

(** *** State of the detector process *)

(** The dictionaries [current_epoch], [epoch_from_chunk] and
    [self._last_processed_epoch]. *)
Record Epoch := mkEpoch {
  begin : Z;
  end_ : Z;
  broadcast_id : string
}.

(** The [settings.CONSENSUS] values read by [run]. *)
Record Settings := mkSettings {
  POLLING_INTERVAL : Z;
  FALL_BEHIND_RESET_NUM_BLOCKS : Z;
  SLEEP_SECS_BETWEEN_CHUNKS : Z
}.

Inductive Level := DEBUG | INFO | WARNING | ERROR.

(** What the process does to the outside, in program order. *)
Inductive Event :=
  | QueuePut (e : Epoch)      (* self._rabbitmq_queue.put(brodcast_msg) *)
  | RedisSet (e : Epoch)      (* r.set(epoch_detector_last_processed_epoch, ...) *)
  | Log (lvl : Level) (msg : string)
  | Sleep (secs : Z).

(** Answer of [requests.get(consensus_epoch_tracker_url)]: the call raises,
    or returns a status code and the [EpochInfo] of the body. *)
Inductive Response :=
  | RequestFailed
  | HttpResponse (status_code epochStartBlockHeight epochEndBlockHeight : Z).

(** What one pass of the [while True] loop observes: the tracker's answer
    and whether [r.set] succeeds during this pass. *)
Record Poll := mkPoll {
  response : Response;
  redis_set_ok : bool
}.

(** [last_processed_epoch] is [self._last_processed_epoch];
    [redis_last_processed_epoch] is the value stored under the key
    [epoch_detector_last_processed_epoch] ([json.dumps]/[json.loads] of an
    epoch dictionary is the identity on its fields); [uuid_calls] counts the
    calls to [uuid.uuid4]; [trace] is the history, oldest first. *)
Record State := mkState {
  last_processed_epoch : option Epoch;
  redis_last_processed_epoch : option Epoch;
  uuid_calls : nat;
  trace : list Event
}.

Inductive Exn := GenericExitOnSignal | ValueError.

Inductive Control := Continue | Raise (e : Exn).

Inductive ProcessStatus := Running | Exited (code : Z).

Definition emit (ev : Event) (st : State) : State :=
  mkState (last_processed_epoch st) (redis_last_processed_epoch st)
          (uuid_calls st) (trace st ++ [ev]).

Definition set_last_processed_epoch (e : Epoch) (st : State) : State :=
  mkState (Some e) (redis_last_processed_epoch st) (uuid_calls st) (trace st).

Definition redis_set (e : Epoch) (st : State) : State :=
  emit (RedisSet e)
    (mkState (last_processed_epoch st) (Some e) (uuid_calls st) (trace st)).

(** [str(uuid.uuid4())]: the [uuid_calls]-th identifier of the supply. *)
Definition fresh_uuid (uuid4 : nat → string) (st : State) : string * State :=
  (uuid4 (uuid_calls st),
   mkState (last_processed_epoch st) (redis_last_processed_epoch st)
           (S (uuid_calls st)) (trace st)).

(** The epochs put on the RabbitMQ queue, oldest first. *)
Definition broadcasts (st : State) : list Epoch :=
  omap (λ ev, match ev with QueuePut e => Some e | _ => None end) (trace st).

(** The checkpoint the next pass works from: the in-memory one, or the
    stored one when there is none in memory. *)
Definition checkpoint (st : State) : option Epoch :=
  match last_processed_epoch st with
  | Some e => Some e
  | None => redis_last_processed_epoch st
  end.

(** [_broadcast_epoch]. *)
Definition _broadcast_epoch (redis_ok : bool) (epoch : Epoch) (st : State)
  : State :=
  let st := emit (Log INFO "Broadcasting  epoch for callbacks") st in
  let st := emit (QueuePut epoch) st in
  let st := set_last_processed_epoch epoch st in
  if redis_ok then
    emit (Log INFO "DONE: Broadcasting finalized epoch for callbacks")
         (redis_set epoch st)
  else
    emit (Log ERROR
            "Unable to save state in redis. Will try again on next epoch.") st.

(** The [for epoch in chunks(...)] loop of [run]. *)
Fixpoint broadcast_chunks (cfg : Settings) (uuid4 : nat → string)
    (redis_ok : bool) (cs : list chunk) (st : State) : State :=
  match cs with
  | [] => st
  | epoch :: rest =>
      let '(id, st) := fresh_uuid uuid4 st in
      let epoch_from_chunk := mkEpoch (chunk_begin epoch) (chunk_end epoch) id in
      let st := _broadcast_epoch redis_ok epoch_from_chunk st in
      let st := emit (Log INFO "Sleeping") st in
      let st := emit (Sleep (SLEEP_SECS_BETWEEN_CHUNKS cfg)) st in
      broadcast_chunks cfg uuid4 redis_ok rest st
  end.

(** Recovery: [if not self._last_processed_epoch: ... r.get(...)]. *)
Definition load_checkpoint (st : State) : State :=
  match last_processed_epoch st with
  | Some _ => st
  | None =>
      match redis_last_processed_epoch st with
      | Some e => set_last_processed_epoch e st
      | None => st
      end
  end.

(** One pass of the [while True] loop of [run]. *)
Definition poll_once (cfg : Settings) (uuid4 : nat → string) (p : Poll)
    (st : State) : Control * State :=
  match response p with
  | RequestFailed =>
      let st := emit (Log ERROR "Unable to fetch current epoch") st in
      (Continue, emit (Sleep (POLLING_INTERVAL cfg)) st)
  | HttpResponse status_code epochStartBlockHeight epochEndBlockHeight =>
      if negb (status_code =? 200) then
        let st := emit (Log ERROR "Error while fetching current epoch data") st in
        (Continue, emit (Sleep (POLLING_INTERVAL cfg)) st)
      else
        let '(id, st) := fresh_uuid uuid4 st in
        let current_epoch :=
          mkEpoch epochStartBlockHeight epochEndBlockHeight id in
        let st := emit (Log INFO "Current epoch") st in
        let st := load_checkpoint st in
        match last_processed_epoch st with
        | Some last =>
            if end_ last =? end_ current_epoch then
              let st :=
                emit (Log DEBUG "Last processed epoch is same as current epoch")
                     st in
              (Continue, emit (Sleep (POLLING_INTERVAL cfg)) st)
            else
              let fall_behind_reset_threshold :=
                FALL_BEHIND_RESET_NUM_BLOCKS cfg in
              if end_ current_epoch - end_ last >? fall_behind_reset_threshold
              then
                (Raise GenericExitOnSignal,
                 emit (Log ERROR "Epochs are falling behind") st)
              else
                let epoch_height :=
                  end_ current_epoch - begin current_epoch + 1 in
                if end_ last >? end_ current_epoch then
                  (Raise GenericExitOnSignal,
                   emit (Log WARNING
                     "Last processed epoch end is greater than current epoch end")
                     st)
                else
                  match chunks (end_ last) (end_ current_epoch) epoch_height with
                  | None => (Raise ValueError, st)
                  | Some cs =>
                      (Continue,
                       broadcast_chunks cfg uuid4 (redis_set_ok p) cs st)
                  end
        | None =>
            let st :=
              emit (Log DEBUG "No last processed epoch found") st in
            let st := _broadcast_epoch (redis_set_ok p) current_epoch st in
            let st := emit (Log INFO "Sleeping") st in
            (Continue, emit (Sleep (POLLING_INTERVAL cfg)) st)
        end
  end.

(** The [while True] loop over the successive polls; it stops at the first
    exception.  [Continue] means: still looping when the polls given are
    used up. *)
Fixpoint poll_loop (cfg : Settings) (uuid4 : nat → string)
    (polls : list Poll) (st : State) : Control * State :=
  match polls with
  | [] => (Continue, st)
  | p :: rest =>
      match poll_once cfg uuid4 p st with
      | (Continue, st) => poll_loop cfg uuid4 rest st
      | (Raise e, st) => (Raise e, st)
      end
  end.

(** The decorator [rabbitmq_and_redis_cleanup] around [run]: on
    [GenericExitOnSignal] the in-memory epoch is saved again ([redis_ok]
    tells whether that [r.set] succeeds), any other exception is logged, and
    [finally] the process leaves with [sys.exit(0)].  Joining the RabbitMQ
    thread has no effect on the state modelled here. *)
Definition rabbitmq_and_redis_cleanup (redis_ok : bool)
    (r : Control * State) : ProcessStatus * State :=
  match r with
  | (Continue, st) => (Running, st)
  | (Raise GenericExitOnSignal, st) =>
      let st := emit (Log DEBUG "Waiting for RabbitMQ interactor thread to join...") st in
      let st := emit (Log DEBUG "RabbitMQ interactor thread joined.") st in
      let st :=
        match last_processed_epoch st with
        | Some e =>
            let st := emit (Log DEBUG "Saving last processed epoch to redis...") st in
            if redis_ok then redis_set e st
            else emit (Log ERROR "Error while saving progress") st
        | None => st
        end in
      (Exited 0, emit (Log DEBUG "Shutting down!") st)
  | (Raise _, st) =>
      let st := emit (Log ERROR "Error while running") st in
      (Exited 0, emit (Log DEBUG "Shutting down!") st)
  end.

(** [EpochDetectorProcess.run], decorated. *)
Definition run (cfg : Settings) (uuid4 : nat → string) (polls : list Poll)
    (shutdown_redis_ok : bool) (st : State) : ProcessStatus * State :=
  rabbitmq_and_redis_cleanup shutdown_redis_ok (poll_loop cfg uuid4 polls st).

(** The state of a freshly constructed process over a store holding
    [stored]. *)
Definition init (stored : option Epoch) : State :=
  mkState None stored 0 [].

End EpochDetector.

(** ** Python string helpers *)

Module PyStr.

(** [str.lower] on ASCII text (project addresses are hexadecimal): the
    letters [A]-[Z] are mapped to [a]-[z], every other byte is kept. *)
Definition lower_ascii (c : Ascii.ascii) : Ascii.ascii :=
  let n := Ascii.N_of_ascii c in
  if ((65 <=? n) && (n <=? 90))%N then Ascii.ascii_of_N (n + 32) else c.

Fixpoint lower (s : string) : string :=
  match s with
  | EmptyString => EmptyString
  | String c rest => String (lower_ascii c) (lower rest)
  end.

(** [str.isascii]: every character is below 128. *)
Fixpoint isascii (s : string) : bool :=
  match s with
  | EmptyString => true
  | String c rest => (Ascii.N_of_ascii c <? 128)%N && isascii rest
  end.

Definition is_upper (c : Ascii.ascii) : bool :=
  let n := Ascii.N_of_ascii c in ((65 <=? n) && (n <=? 90))%N.

Fixpoint has_upper (s : string) : bool :=
  match s with
  | EmptyString => false
  | String c rest => is_upper c || has_upper rest
  end.

(** The byte 46 is the full stop. *)
Definition is_dot (c : Ascii.ascii) : bool :=
  Ascii.eqb c (Ascii.ascii_of_N 46).

Fixpoint has_dot (s : string) : bool :=
  match s with
  | EmptyString => false
  | String c rest => is_dot c || has_dot rest
  end.

(** [s.split('.')[-1]]: what follows the last dot, or [s] itself. *)
Fixpoint split_dot_last (s : string) : string :=
  match s with
  | EmptyString => EmptyString
  | String c rest =>
      if has_dot rest then split_dot_last rest
      else if is_dot c then rest
      else s
  end.

(** [needle in haystack] on strings: [needle] occurs as a substring. *)
Fixpoint contains (needle haystack : string) : bool :=
  String.prefix needle haystack ||
  match haystack with
  | EmptyString => false
  | String _ rest => contains needle rest
  end.

End PyStr.

(** ** Redis sorted sets *)

Module RedisZSet.
Local Open Scope Z_scope.

Section zset.
(** Members are kept as typed values; [ser] gives the bytes under which
    Redis stores a member.  Two values with the same bytes are the same
    member.  Scores are integers here (the callers only pass [int]s). *)
Context {A : Type} (ser : A → string).

(** Redis orders a sorted set by score, then by the bytes of the member. *)
Definition entry_leb (x y : A * Z) : bool :=
  (x.2 <? y.2) || ((x.2 =? y.2) && String.leb (ser x.1) (ser y.1)).

Fixpoint insert_sorted (x : A * Z) (z : list (A * Z)) : list (A * Z) :=
  match z with
  | [] => [x]
  | y :: rest =>
      if entry_leb x y then x :: y :: rest else y :: insert_sorted x rest
  end.

(** [ZADD key {member: score}]: the member gets the given score, whether
    or not it was present. *)
Definition zadd (member : A) (score : Z) (z : list (A * Z)) : list (A * Z) :=
  insert_sorted (member, score) (filter (λ y, ser y.1 ≠ ser member) z).

(** [ZRANGEBYSCORE key lo hi]. *)
Definition zrangebyscore (lo hi : Z) (z : list (A * Z)) : list A :=
  fst <$> filter (λ y, lo <= y.2 <= hi) z.

(** [ZREMRANGEBYSCORE key lo hi]. *)
Definition zremrangebyscore (lo hi : Z) (z : list (A * Z)) : list (A * Z) :=
  filter (λ y, ¬ (lo <= y.2 <= hi)) z.
End zset.

(** The sorted set stored under [key]; a missing key is the empty set. *)
Definition zset_at {A : Type} (key : string) (db : gmap string (list (A * Z)))
  : list (A * Z) :=
  default [] (db !! key).

End RedisZSet.

(** ** The processor distributor *)

Module Distributor.
Local Open Scope Z_scope.
Import RedisZSet.

(** *** Messages *)

(** Modelled from the spec: the classes of [pooler.utils.models.message_models]
    are not part of the sources at hand; the fields are those the handlers
    read or write and those section 3 of the specification lists. *)
Record EpochBroadcast := mkEpochBroadcast {
  eb_begin : Z;
  eb_end : Z;
  eb_epochId : Z;
  eb_broadcastId : string
}.

(** Modelled from the spec: the class [PowerloomSnapshotProcessMessage] is
    not in the sources; these are the keyword arguments the fan-out passes. *)
Record PowerloomSnapshotProcessMessage := mkProcessMessage {
  pm_begin : Z;
  pm_end : Z;
  pm_epochId : Z;
  pm_contract : string;
  pm_broadcastId : string
}.

(** Modelled from the spec: the class [PowerloomSnapshotFinalizedMessage] is
    not in the sources; a report that the snapshot of [projectId] for
    [epochId] completed, with the epoch range and a content identifier. *)
Record PowerloomSnapshotFinalizedMessage := mkFinalizedMessage {
  fm_epochId : Z;
  fm_projectId : string;
  fm_begin : Z;
  fm_end : Z;
  fm_snapshotCid : string;
  fm_broadcastId : string
}.

(** Modelled from the spec: the class [PowerloomCalculateAggregateMessage]
    is not in the sources; these are the keyword arguments the join passes. *)
Record PowerloomCalculateAggregateMessage := mkAggregateMessage {
  am_messages : list PowerloomSnapshotFinalizedMessage;
  am_timestamp : Z;
  am_broadcastId : string
}.

(** Modelled from the spec: the class [PayloadCommitFinalizedMessage] is not
    in the sources; these are the keyword arguments the forwarding passes. *)
Record PayloadCommitFinalizedMessage := mkPayloadCommit {
  pc_message : PowerloomSnapshotFinalizedMessage;
  pc_web3Storage : bool;
  pc_sourceChainId : Z
}.

(** The objects handed to [enqueue_msg_delivery] as [process_unit]. *)
Inductive ProcessUnit :=
  | SnapshotProcess (m : PowerloomSnapshotProcessMessage)
  | SnapshotFinalized (m : PowerloomSnapshotFinalizedMessage)
  | CalculateAggregate (m : PowerloomCalculateAggregateMessage)
  | PayloadCommit (m : PayloadCommitFinalizedMessage).

(** [process_unit.broadcastId].  A payload-commit envelope is never passed
    to [_send_message_for_processing]; its inner message answers here. *)
Definition broadcastId (u : ProcessUnit) : string :=
  match u with
  | SnapshotProcess m => pm_broadcastId m
  | SnapshotFinalized m => fm_broadcastId m
  | CalculateAggregate m => am_broadcastId m
  | PayloadCommit m => fm_broadcastId (pc_message m)
  end.

(** *** Configuration *)

(** Modelled from the spec: [pooler.settings.config] is not in the sources;
    the values of [settings] the handlers read. *)
Record Settings := mkSettings {
  namespace : string;
  instance_id : string;
  chain_id : Z;
  callbacks_exchange : string;       (* settings.rabbitmq.setup.callbacks.exchange *)
  commit_payload_exchange : string   (* settings.rabbitmq.setup.commit_payload.exchange *)
}.

(** Modelled from the spec: an item of [projects_config], a project type
    with its project addresses. *)
Record ProjectConfig := mkProjectConfig {
  project_type : string;
  projects : list string
}.

(** Modelled from the spec: the enumeration [AggregateOn] of
    [pooler.utils.models.settings_model]. *)
Inductive AggregateOn := single_project | multi_project.

(** Modelled from the spec: an item of [aggregator_config]. *)
Record AggregatorConfig := mkAggregatorConfig {
  agg_project_type : string;
  aggregate_on : AggregateOn;
  filters_projectId : string;          (* config.filters.projectId *)
  projects_to_wait_for : list string
}.

(** *** Broker and store *)

(** One call of [enqueue_msg_delivery]. *)
Record Published := mkPublished {
  exchange : string;
  routing_key : string;
  msg_body : ProcessUnit
}.

(** The [update_log] dictionary appended to the processing log. *)
Record UpdateLog := mkUpdateLog {
  ul_worker : string;
  ul_routing_key : string;
  ul_exchange : string;
  ul_msg : ProcessUnit
}.

(** JSON encoders of the sorted-set members ([process_unit.json()] and
    [json.dumps(update_log)]). *)
Record Codec := mkCodec {
  json_finalized : PowerloomSnapshotFinalizedMessage → string;
  json_log : UpdateLog → string
}.

(** Everything a handler reads from outside the delivery: configuration,
    the process name, the JSON encoders of the two kinds of sorted-set
    members, the supply of [uuid4] values, the clock [int(time.time())] and
    whether the cache warm-up succeeds. *)
Record Env := mkEnv {
  settings : Settings;
  projects_config : list ProjectConfig;
  aggregator_config : list AggregatorConfig;
  name : string;
  codec : Codec;
  now : Z;
  uuid4 : nat → string;
  warm_up_ok : bool
}.

Inductive Level := DEBUG | INFO | WARNING | ERROR.

(** An inbound delivery.  [body_epoch] and [body_finalized] are the results
    of [EpochBroadcast.parse_raw(body)] and
    [PowerloomSnapshotFinalizedMessage.parse_raw(body)]; [None] stands for a
    [ValidationError]. *)
Record Delivery := mkDelivery {
  method_routing_key : string;
  delivery_tag : Z;
  body_epoch : option EpochBroadcast;
  body_finalized : option PowerloomSnapshotFinalizedMessage
}.

(** The sorted sets of the store, by key: the aggregation events
    ([powerloom:aggregator:<type>:events]) and the processing logs
    ([broadcastID:<namespace>:<id>:processLogs]); the two families of keys
    are disjoint.  [published] and [acked] are the calls made on the broker,
    oldest first. *)
Record State := mkState {
  redis_events : gmap string (list (PowerloomSnapshotFinalizedMessage * Z));
  redis_logs : gmap string (list (UpdateLog * Z));
  published : list Published;
  acked : list Z;
  log : list (Level * string);
  uuid_calls : nat
}.

Inductive Exn := ValidationError.

Inductive Result := Return (st : State) | Raise (e : Exn) (st : State).

Definition state_of (r : Result) : State :=
  match r with Return st => st | Raise _ st => st end.

Definition set_events
    (ev : gmap string (list (PowerloomSnapshotFinalizedMessage * Z)))
    (st : State) : State :=
  mkState ev (redis_logs st) (published st) (acked st) (log st) (uuid_calls st).

Definition set_logs (lg : gmap string (list (UpdateLog * Z))) (st : State)
  : State :=
  mkState (redis_events st) lg (published st) (acked st) (log st) (uuid_calls st).

Definition enqueue_msg_delivery (p : Published) (st : State) : State :=
  mkState (redis_events st) (redis_logs st) (published st ++ [p]) (acked st)
          (log st) (uuid_calls st).

Definition basic_ack (tag : Z) (st : State) : State :=
  mkState (redis_events st) (redis_logs st) (published st) (acked st ++ [tag])
          (log st) (uuid_calls st).

Definition logger (lvl : Level) (msg : string) (st : State) : State :=
  mkState (redis_events st) (redis_logs st) (published st) (acked st)
          (log st ++ [(lvl, msg)]) (uuid_calls st).

Definition fresh_uuid (env : Env) (st : State) : string * State :=
  (uuid4 env (uuid_calls st),
   mkState (redis_events st) (redis_logs st) (published st) (acked st)
           (log st) (S (uuid_calls st))).

(** *** Keys and topics *)

(** [cb_broadcast_processing_logs_zset.format(broadcast_id)]. *)
Definition cb_broadcast_processing_logs_zset (s : Settings) (id : string)
  : string :=
  "broadcastID:" +:+ namespace s +:+ ":" +:+ id +:+ ":processLogs".

Definition aggregator_events_key (type_ : string) : string :=
  "powerloom:aggregator:" +:+ type_ +:+ ":events".

(** [f'powerloom-event-detector:{namespace}:{instance_id}.<suffix>']. *)
Definition event_detector_key (s : Settings) (suffix : string) : string :=
  "powerloom-event-detector:" +:+ namespace s +:+ ":" +:+ instance_id s
    +:+ "." +:+ suffix.

(** [f'powerloom-backend-callback:{namespace}:{instance_id}:<topic>.{type_}']. *)
Definition callback_key (s : Settings) (topic type_ : string) : string :=
  "powerloom-backend-callback:" +:+ namespace s +:+ ":" +:+ instance_id s
    +:+ ":" +:+ topic +:+ "." +:+ type_.

(** *** Handlers *)

(** [_warm_up_cache_for_epoch_data]: every exception of the warm-up is
    caught and logged. *)
Definition _warm_up_cache_for_epoch_data (env : Env) (st : State) : State :=
  if warm_up_ok env then st
  else logger WARNING
         "There was an error while warming-up cache for epoch data." st.

(** [_send_message_for_processing]. *)
Definition _send_message_for_processing (env : Env) (process_unit : ProcessUnit)
    (type_ : string) (routing_key : string) (st : State) : State :=
  let s := settings env in
  let ex := callbacks_exchange s +:+ ":" +:+ namespace s in
  let st := enqueue_msg_delivery (mkPublished ex routing_key process_unit) st in
  let st := logger DEBUG "Sent out message to be processed by worker" st in
  let update_log :=
    mkUpdateLog (name env)
      ("powerloom-backend-callback:" +:+ namespace s +:+ ":" +:+ instance_id s
         +:+ "." +:+ type_)
      ex process_unit in
  let key := cb_broadcast_processing_logs_zset s (broadcastId process_unit) in
  set_logs
    (<[key := zadd (json_log (codec env)) update_log (now env)
                (zset_at key (redis_logs st))]> (redis_logs st))
    st.

(** The inner [for project in project_config.projects] loop. *)
Fixpoint fan_out_projects (env : Env) (msg_obj : EpochBroadcast)
    (type_ : string) (ps : list string) (st : State) : State :=
  match ps with
  | [] => st
  | project :: rest =>
      let contract := PyStr.lower project in
      let process_unit :=
        mkProcessMessage (eb_begin msg_obj) (eb_end msg_obj)
          (eb_epochId msg_obj) contract (eb_broadcastId msg_obj) in
      let st :=
        _send_message_for_processing env (SnapshotProcess process_unit) type_
          (callback_key (settings env) "EpochReleased" type_) st in
      fan_out_projects env msg_obj type_ rest st
  end.

(** The outer [for project_config in projects_config] loop. *)
Fixpoint fan_out (env : Env) (msg_obj : EpochBroadcast)
    (cfgs : list ProjectConfig) (st : State) : State :=
  match cfgs with
  | [] => st
  | project_config :: rest =>
      let type_ := project_type project_config in
      let st := fan_out_projects env msg_obj type_ (projects project_config) st in
      fan_out env msg_obj rest st
  end.

(** [_distribute_callbacks_snapshotting]. *)
Definition _distribute_callbacks_snapshotting (env : Env) (d : Delivery)
    (st : State) : Result :=
  match body_epoch d with
  | None => Return (logger ERROR "Bad message structure of epoch callback" st)
  | Some msg_obj =>
      let st := logger DEBUG "Epoch Distribution time" st in
      let st := _warm_up_cache_for_epoch_data env st in
      let st := fan_out env msg_obj (projects_config env) st in
      Return (basic_ack (delivery_tag d) st)
  end.

(** [_build_and_forward_to_payload_commit_queue]; [parse_raw] is not
    guarded here, its [ValidationError] leaves the function. *)
Definition _build_and_forward_to_payload_commit_queue (env : Env)
    (d : Delivery) (st : State) : Result :=
  let event_type := PyStr.split_dot_last (method_routing_key d) in
  if String.eqb event_type "SnapshotFinalized" then
    match body_finalized d with
    | None => Raise ValidationError st
    | Some msg_obj =>
        let st := logger DEBUG "Payload Commit Message Distribution time" st in
        let s := settings env in
        let process_unit := mkPayloadCommit msg_obj true (chain_id s) in
        let ex := commit_payload_exchange s +:+ ":" +:+ namespace s in
        let routing_key :=
          "powerloom-backend-commit-payload:" +:+ namespace s +:+ ":"
            +:+ instance_id s +:+ ".Finalized" in
        let st :=
          enqueue_msg_delivery
            (mkPublished ex routing_key (PayloadCommit process_unit)) st in
        Return (logger DEBUG "Sent out Event to Payload Commit Queue" st)
    end
  else Return st.

(** The set [event_project_ids] built from the events read back. *)
Definition event_project_ids (events : list PowerloomSnapshotFinalizedMessage)
  : gset string :=
  list_to_set (fm_projectId <$> events).

(** The [AggregateOn.multi_project] branch for one aggregator [config]. *)
Definition aggregate_multi_project (env : Env) (config : AggregatorConfig)
    (process_unit : PowerloomSnapshotFinalizedMessage) (st : State) : State :=
  let type_ := agg_project_type config in
  if bool_decide (fm_projectId process_unit ∈ projects_to_wait_for config) then
    let key := aggregator_events_key (agg_project_type config) in
    (* store event in redis zset *)
    let z := zadd (json_finalized (codec env)) process_unit
                  (fm_epochId process_unit) (zset_at key (redis_events st)) in
    let st := set_events (<[key := z]> (redis_events st)) st in
    let events :=
      zrangebyscore (fm_epochId process_unit) (fm_epochId process_unit)
        (zset_at key (redis_events st)) in
    match events with
    | [] => logger INFO "No events found" st
    | _ =>
        let finalized_messages := events in
        if bool_decide (event_project_ids events
                          = list_to_set (projects_to_wait_for config)) then
          let st := logger INFO "All projects present, aggregating" st in
          let '(id, st) := fresh_uuid env st in
          let final_msg := mkAggregateMessage finalized_messages (now env) id in
          let st :=
            _send_message_for_processing env (CalculateAggregate final_msg)
              type_ (callback_key (settings env) "CalculateAggregate" type_)
              st in
          (* Cleanup redis *)
          set_events
            (<[key := zremrangebyscore (fm_epochId process_unit)
                        (fm_epochId process_unit)
                        (zset_at key (redis_events st))]> (redis_events st))
            st
        else logger INFO "Not all projects present" st
    end
  else logger INFO "projectId not required" st.

(** The body of [for config in aggregator_config]. *)
Definition aggregate_config (env : Env) (config : AggregatorConfig)
    (process_unit : PowerloomSnapshotFinalizedMessage) (st : State) : State :=
  match aggregate_on config with
  | single_project =>
      if negb (PyStr.contains (filters_projectId config)
                 (fm_projectId process_unit))
      then logger INFO "projectId mismatch" st
      else
        _send_message_for_processing env (SnapshotFinalized process_unit)
          (agg_project_type config)
          (callback_key (settings env) "CalculateAggregate"
             (agg_project_type config))
          st
  | multi_project => aggregate_multi_project env config process_unit st
  end.

Fixpoint aggregate_all (env : Env) (cfgs : list AggregatorConfig)
    (process_unit : PowerloomSnapshotFinalizedMessage) (st : State) : State :=
  match cfgs with
  | [] => st
  | config :: rest =>
      aggregate_all env rest process_unit
        (aggregate_config env config process_unit st)
  end.

(** [_distribute_callbacks_aggregate]. *)
Definition _distribute_callbacks_aggregate (env : Env) (d : Delivery)
    (st : State) : Result :=
  let event_type := PyStr.split_dot_last (method_routing_key d) in
  if negb (String.eqb event_type "SnapshotFinalized") then
    Return (logger ERROR "Unknown event type" st)
  else
    match body_finalized d with
    | None => Return (logger ERROR "Bad message structure of event callback" st)
    | Some process_unit =>
        let st := logger DEBUG "Aggregation Task Distribution time" st in
        let st := aggregate_all env (aggregator_config env) process_unit st in
        Return (basic_ack (delivery_tag d) st)
    end.

(** Which handlers a delivery entered, in order. *)
Inductive Path := CommitPayload | Snapshotting | Aggregation | UnknownKey.

(** [_distribute_callbacks]: a first [if] for the payload-commit queue, then
    a separate [if]/[elif]/[else] chain.  Besides the result, the handlers
    entered are returned in the order of the calls. *)
Definition _distribute_callbacks (env : Env) (d : Delivery) (st : State)
  : list Path * Result :=
  let st := logger DEBUG "Got message to process and distribute" st in
  let s := settings env in
  let '(paths, r) :=
    if String.eqb (method_routing_key d)
                  (event_detector_key s "SnapshotFinalized")
    then ([CommitPayload], _build_and_forward_to_payload_commit_queue env d st)
    else ([], Return st) in
  match r with
  | Raise e st => (paths, Raise e st)
  | Return st =>
      if String.eqb (method_routing_key d)
                    (event_detector_key s "EpochReleased")
      then (paths ++ [Snapshotting],
            _distribute_callbacks_snapshotting env d st)
      else if String.eqb (method_routing_key d)
                         (event_detector_key s "SnapshotFinalized")
      then (paths ++ [Aggregation],
            _distribute_callbacks_aggregate env d st)
      else (paths ++ [UnknownKey],
            Return (logger ERROR
                      "Unknown routing key for callback distribution" st))
  end.

(** A distributor that has not handled anything yet, over an empty store. *)
Definition init : State := mkState ∅ ∅ [] [] [] 0.

End Distributor.

(** ** The RPC rate limiter *)

Module RateLimiter.
Local Open Scope Z_scope.

(** *** The store: integer keys with an optional time to live *)

(** A key holding a counter; [expire_at] is the instant, in milliseconds,
    past which Redis drops the key, [None] when the key has no time to
    live. *)
Record Entry := mkEntry {
  value : Z;
  expire_at : option Z
}.

(** [clock] is the time of the server, in milliseconds. *)
Record Redis := mkRedis {
  clock : Z;
  keys : gmap string Entry
}.

(** A key is gone once the clock is past its instant ([now > when]). *)
Definition expired (now : Z) (e : Entry) : bool :=
  match expire_at e with
  | Some t => t <? now
  | None => false
  end.

(** The entry of a key that exists at the current instant. *)
Definition live (r : Redis) (key : string) : option Entry :=
  match keys r !! key with
  | Some e => if expired (clock r) e then None else Some e
  | None => None
  end.

(** Redis counts in signed 64-bit integers: [2^63 - 1] and [-2^63]. *)
Definition LLONG_MAX : Z := 9223372036854775807.

Definition LLONG_MIN : Z := -9223372036854775808.

Definition is_long_long (z : Z) : bool :=
  (LLONG_MIN <=? z) && (z <=? LLONG_MAX).

(** The error replies of [INCRBY] and [EXPIRE]: "value is not an integer or
    out of range", "increment or decrement would overflow", "invalid expire
    time". *)
Inductive RedisError := NotAnInteger | WouldOverflow | InvalidExpireTime.

Inductive Reply :=
  | IntegerReply (n : Z)
  | StatusReply (s : string)
  | ErrorReply (e : RedisError).

(** [INCRBY key increment]: the increment and the value held must be 64-bit
    integers and so must their sum; a missing key counts as 0 and is created
    without a time to live; an existing key keeps its time to live.  An
    error leaves the store as it was. *)
Definition incrby (key : string) (increment : Z) (r : Redis) : Reply * Redis :=
  if negb (is_long_long increment) then (ErrorReply NotAnInteger, r)
  else
    let oldvalue := from_option value 0 (live r key) in
    if negb (is_long_long oldvalue) then (ErrorReply NotAnInteger, r)
    else if ((increment <? 0) && (oldvalue <? 0)
               && (increment <? LLONG_MIN - oldvalue))
            || ((0 <? increment) && (0 <? oldvalue)
                  && (LLONG_MAX - oldvalue <? increment))
    then (ErrorReply WouldOverflow, r)
    else
      let v := oldvalue + increment in
      (IntegerReply v,
       mkRedis (clock r)
         (<[key := mkEntry v (live r key ≫= expire_at)]> (keys r))).

(** [EXPIRE key seconds]: the timeout must be a 64-bit integer and so must
    the instant it gives in milliseconds; no effect on a missing key; an
    instant that is not in the future deletes the key. *)
Definition expire (key : string) (seconds : Z) (r : Redis) : Reply * Redis :=
  if negb (is_long_long seconds) then (ErrorReply NotAnInteger, r)
  else if (Z.quot LLONG_MAX 1000 <? seconds)
          || (seconds <? Z.quot LLONG_MIN 1000)
  then (ErrorReply InvalidExpireTime, r)
  else
    let when := seconds * 1000 in
    if LLONG_MAX - clock r <? when then (ErrorReply InvalidExpireTime, r)
    else
      let when := when + clock r in
      match live r key with
      | None => (IntegerReply 0, r)
      | Some e =>
          if when <=? clock r then
            (IntegerReply 1, mkRedis (clock r) (delete key (keys r)))
          else
            (IntegerReply 1,
             mkRedis (clock r)
               (<[key := mkEntry (value e) (Some when)]> (keys r)))
      end.

(** The numbers of Lua are doubles: an integer reply, and [tonumber] of a
    decimal string, become the nearest double (ties to even), which is the
    integer itself up to [2^53] in absolute value. *)
Definition lua_number (z : Z) : Z :=
  let a := Z.abs z in
  if a <=? 9007199254740992 then z
  else
    let ulp := 2 ^ (Z.log2 a - 52) in
    let q := a / ulp in
    let rest := a mod ulp in
    let q :=
      if (ulp <? 2 * rest) || ((ulp =? 2 * rest) && Z.odd q) then q + 1
      else q in
    Z.sgn z * (q * ulp).

(** A Lua number returned by a script is cast to a 64-bit integer; [2^63],
    the one double out of range that a 64-bit count rounds to, comes out as
    [-2^63] (the cast on x86-64). *)
Definition lua_to_integer (d : Z) : Z :=
  if LLONG_MAX <? d then LLONG_MIN else d.

(** [SCRIPT_INCR_EXPIRE] with [KEYS[1] = key], [ARGV[1] = argv1] (the
    expiry) and [ARGV[2] = argv2] (the amount); returns [current].  An error
    reply of [redis.call] ends the script with that error; what was written
    before stays. *)
Definition SCRIPT_INCR_EXPIRE (key : string) (argv1 argv2 : Z) (r : Redis)
  : Reply * Redis :=
  match incrby key argv2 r with
  | (IntegerReply current, r) =>
      let current := lua_number current in
      if current =? lua_number argv2 then
        match expire key argv1 r with
        | (ErrorReply e, r) => (ErrorReply e, r)
        | (_, r) => (IntegerReply (lua_to_integer current), r)
        end
      else (IntegerReply (lua_to_integer current), r)
  | (reply, r) => (reply, r)
  end.

(** [SCRIPT_CLEAR_KEYS]: the live keys matching the pattern [KEYS[1]] (given
    as its matcher) are deleted; returns how many were. *)
Definition SCRIPT_CLEAR_KEYS (matches : string → bool) (r : Redis)
  : Z * Redis :=
  let hit := λ (key : string) (e : Entry),
    matches key && negb (expired (clock r) e) in
  (Z.of_nat (size (filter (λ kv, hit kv.1 kv.2 = true) (keys r))),
   mkRedis (clock r) (filter (λ kv, hit kv.1 kv.2 = false) (keys r))).

(** Time passing, in milliseconds. *)
Definition advance (ms : Z) (r : Redis) : Redis :=
  mkRedis (clock r + ms) (keys r).

Definition empty (now : Z) : Redis := mkRedis now ∅.

(** What can happen to the store of the limiter: the two scripts loaded by
    [load_rate_limiter_scripts], and time passing.  The increment script is
    run with the window of a limit: a positive number of seconds that ends
    at an instant the server can represent. *)
Inductive step : Redis → Redis → Prop :=
  | step_incr_expire key window cost r :
      0 < window → clock r + window * 1000 <= LLONG_MAX →
      step r (SCRIPT_INCR_EXPIRE key window cost r).2
  | step_clear_keys matches r :
      step r (SCRIPT_CLEAR_KEYS matches r).2
  | step_time ms r :
      0 <= ms → step r (advance ms r).

(** The stores reachable from an empty one. *)
Definition reachable (r : Redis) : Prop :=
  ∃ now, 0 <= now ∧ rtc step (empty now) r.

(** Every counter that exists has a time to live. *)
Definition counters_have_expiry (r : Redis) : Prop :=
  ∀ key e, live r key = Some e → is_Some (expire_at e).

(** *** [check_rpc_rate_limit] *)

(** Modelled from the spec: the [async_limits] package is not part of the
    sources at hand.  A parsed limit has a threshold, a window length in
    seconds and the name of its window granularity; the bucket of a limit
    is keyed by identity and granularity. *)
Record RateLimitItem := mkLimit {
  amount : Z;
  get_expiry : Z;
  granularity : string
}.

Definition key_for (lim : RateLimitItem) (app_id : string) : string :=
  "LIMITER/" +:+ app_id +:+ "/eth_call/" +:+ granularity lim.

Inductive Exn :=
  | ConnectionError
  | TimeoutError
  | ResponseError
  | OtherException
  | AttributeError
  | RPCException (request_payload extra_info : string).

Inductive Level := DEBUG | ERROR.

Record State := mkState {
  redis : Redis;
  log : list (Level * string)
}.

Inductive Result := Return (can_request : bool) | Raise (e : Exn).

(** What a call of [custom_limiter.hit] gives: its boolean, or an
    exception. *)
Inductive Answer := Answered (ok : bool) | Raised (e : Exn).

(** Modelled from the spec: [AsyncFixedWindowRateLimiter.hit] runs the
    increment script on the bucket of the limit and succeeds when the
    resulting count does not exceed the threshold; an error reply of the
    script is raised by the client as [ResponseError]. *)
Definition hit (lim : RateLimitItem) (cost : Z) (app_id : string)
    (r : Redis) : Answer * Redis :=
  match SCRIPT_INCR_EXPIRE (key_for lim app_id) (get_expiry lim) cost r with
  | (IntegerReply current, r) => (Answered (current <=? amount lim), r)
  | (_, r) => (Raised ResponseError, r)
  end.

(** An exception raised in the [try] body reaches the [except] clauses.
    The first of them names [aioredis.exceptions.ConnectionError], and
    [aioredis] is the module [redis.asyncio] (line 20), which has no
    attribute [exceptions]: evaluating the clause raises [AttributeError],
    which leaves the [try] statement.  Neither handler is entered, so
    nothing is logged, and the caller gets the [AttributeError] in place of
    the exception raised. *)
Definition except_clauses (raised : Exn) (st : State) : Result * State :=
  (Raise AttributeError, st).

(** The [for each_lim in PARSED_LIMITS] loop.  [faults] tells, limit by
    limit, whether the call of [hit] raises before reaching the store;
    [stats_fault], whether [get_window_stats] (or the arithmetic on its
    answer), run after a refused hit, raises; [can_request] is the variable
    of that name on entry. *)
Fixpoint limits_loop (app_id : string) (limit_incr_by : Z)
    (limits : list RateLimitItem) (faults : list (option Exn))
    (stats_fault : option Exn) (can_request : bool) (st : State)
  : Result * State :=
  match limits with
  | [] => (Return can_request, st)
  | each_lim :: rest =>
      match faults with
      | Some e :: _ => except_clauses e st
      | _ =>
          match hit each_lim limit_incr_by app_id (redis st) with
          | (Raised e, r) => except_clauses e (mkState r (log st))
          | (Answered ok, r) =>
              let st := mkState r (log st) in
              if ok then
                limits_loop app_id limit_incr_by rest (tail faults)
                  stats_fault true st
              else
                match stats_fault with
                | Some e => except_clauses e st
                | None => (Return false, st)   (* can_request = False; break *)
                end
          end
      end
  end.

(** [check_rpc_rate_limit], with the script digests given. *)
Definition check_rpc_rate_limit (PARSED_LIMITS : list RateLimitItem)
    (app_id : string) (request_payload error_msg : string) (limit_incr_by : Z)
    (faults : list (option Exn)) (stats_fault : option Exn) (st : State)
  : Result * State :=
  match
    limits_loop app_id limit_incr_by PARSED_LIMITS faults stats_fault false st
  with
  | (Return can_request, st) =>
      if negb can_request then (Raise (RPCException request_payload error_msg), st)
      else (Return can_request, st)
  | (Raise e, st) => (Raise e, st)
  end.

End RateLimiter.

(** ** A deployment used in the examples *)

Module Scenario.
Import Distributor.
Local Open Scope Z_scope.

Definition settings : Settings :=
  mkSettings "ns" "node" 137 "powerloom-backend-callback" "powerloom-backend-commit".

(** A stand-in for the JSON encoders: distinct messages get distinct
    bytes. *)
Definition codec : Codec :=
  mkCodec
    (λ m, "epochId=" +:+ pretty (fm_epochId m) +:+ ";projectId="
            +:+ fm_projectId m +:+ ";begin=" +:+ pretty (fm_begin m)
            +:+ ";end=" +:+ pretty (fm_end m) +:+ ";snapshotCid="
            +:+ fm_snapshotCid m +:+ ";broadcastId=" +:+ fm_broadcastId m)
    (λ l, "worker=" +:+ ul_worker l +:+ ";routing_key=" +:+ ul_routing_key l
            +:+ ";broadcastId=" +:+ broadcastId (ul_msg l)).

(** The aggregator that waits for the projects [A], [B] and [C]. *)
Definition abc : AggregatorConfig :=
  mkAggregatorConfig "aggregate_abc" multi_project "" ["A"; "B"; "C"].

Definition env : Env :=
  mkEnv settings
    [mkProjectConfig "pair_total_reserves" ["0xAbCd01"; "0xEF23"];
     mkProjectConfig "trade_volume" ["0x45aB"]]
    [abc] "ProcessorDistributor" codec 1700000000
    (λ n, "uuid-" +:+ pretty n) true.

(** The finalized snapshot of a project for epoch 7. *)
Definition finalized (project : string) : PowerloomSnapshotFinalizedMessage :=
  mkFinalizedMessage 7 project 101 200 ("cid-" +:+ project) "broadcast-7".

Definition abc_key : string := aggregator_events_key "aggregate_abc".

(** A [SnapshotFinalized] delivery whose body does not validate. *)
Definition malformed_finalized : Delivery :=
  mkDelivery (event_detector_key settings "SnapshotFinalized") 1 None None.

Definition epoch_released : Delivery :=
  mkDelivery (event_detector_key settings "EpochReleased") 2
    (Some (mkEpochBroadcast 101 200 7 "broadcast-7")) None.

(** One limit: 5 calls per window of one second. *)
Definition five_per_second : RateLimiter.RateLimitItem :=
  RateLimiter.mkLimit 5 1 "second".

(** [n] calls in a row of [check_rpc_rate_limit] while the store answers;
    the results, first call first. *)
Fixpoint calls (n : nat) (st : RateLimiter.State)
  : list RateLimiter.Result * RateLimiter.State :=
  match n with
  | O => ([], st)
  | S n =>
      let '(res, st) :=
        RateLimiter.check_rpc_rate_limit [five_per_second] "app" "eth_call"
          "rate limit exhausted" 1 [] None st in
      let '(rest, st) := calls n st in
      (res :: rest, st)
  end.

End Scenario.

(** ** Keys of the store *)

Module RedisKeys.

(** [project_finalized_data_zset(project_id)]. *)
Definition project_finalized_data_zset (project_id : string) : string :=
  "projectID:" +:+ project_id +:+ ":finalizedData".

(** [cid_data(cid)]. *)
Definition cid_data (cid : string) : string := "cidData:" +:+ cid.

Definition project_first_epoch_hmap : string := "projectFirstEpoch".

Definition source_chain_id_key : string := "sourceChainId".

Definition source_chain_block_time_key : string := "sourceChainBlockTime".

Definition source_chain_epoch_size_key : string := "sourceChainEpochSize".

Definition epoch_detector_last_processed_epoch : string :=
  "SystemEpochDetector:lastProcessedEpoch".

End RedisKeys.

(** ** Termination signals *)

Module Signals.

(** The signal numbers the handlers are called with; the three termination
    signals are told apart from all others. *)
Inductive Signal := SIGINT | SIGTERM | SIGQUIT | OtherSignal (signum : Z).

Definition is_termination (sig : Signal) : bool :=
  match sig with
  | SIGINT | SIGTERM | SIGQUIT => true
  | OtherSignal _ => false
  end.

(** [self._shutdown_initiated] and the number of calls made to
    [self._rabbitmq_interactor.stop()]. *)
Record State := mkState {
  _shutdown_initiated : bool;
  interactor_stops : nat
}.

(** [EpochDetectorProcess._generic_exit_handler]; the boolean tells whether
    [GenericExitOnSignal] is raised. *)
Definition _generic_exit_handler (signum : Signal) (st : State)
  : bool * State :=
  if is_termination signum && negb (_shutdown_initiated st) then
    (true, mkState true (S (interactor_stops st)))
  else (false, st).

(** [ProcessorDistributor._exit_signal_handler]: the same test, without an
    exception. *)
Definition _exit_signal_handler (signum : Signal) (st : State) : State :=
  if is_termination signum && negb (_shutdown_initiated st) then
    mkState true (S (interactor_stops st))
  else st.

(** The detector's handler run on a sequence of signals: which of them
    raised, and the final state. *)
Fixpoint deliver (sigs : list Signal) (st : State) : list bool * State :=
  match sigs with
  | [] => ([], st)
  | sig :: rest =>
      let '(raised, st) := _generic_exit_handler sig st in
      let '(others, st) := deliver rest st in
      (raised :: others, st)
  end.

End Signals.

(** ** More of [uniswap_functions.py] *)

Module UniswapHelpers.
Import RateLimiter.
Local Open Scope Z_scope.

(** [get_maker_pair_data(prop)]. *)
Definition get_maker_pair_data (prop : string) : string :=
  let prop := PyStr.lower prop in
  if String.eqb (PyStr.lower prop) "name" then "Maker"
  else if String.eqb (PyStr.lower prop) "symbol" then "MKR"
  else "Maker".

(** [TTL key]: -2 for a missing key, -1 for a key without a time to live,
    otherwise the milliseconds left rounded to the nearest second,
    [(ttl + 500) / 1000]: 0 when less than half a second is left. *)
Definition TTL (key : string) (r : Redis) : Z :=
  match live r key with
  | None => -2
  | Some e =>
      match expire_at e with
      | None => -1
      | Some t => (Z.max 0 (t - clock r) + 500) / 1000
      end
  end.

(** [SET key value]: the key holds the value and loses its time to live. *)
Definition SET (key : string) (v : Z) (r : Redis) : Redis :=
  mkRedis (clock r) (<[key := mkEntry v None]> (keys r)).

(** [SCRIPT_SET_EXPIRE] with [KEYS[1] = key], [ARGV[1] = argv1] (the value)
    and [ARGV[2] = argv2] (the expiry); returns [current], the reply of
    [SET].  [keyttl] is a Lua number; handed to [EXPIRE] it is written in
    decimal, with the digits of the integer it holds. *)
Definition SCRIPT_SET_EXPIRE (key : string) (argv1 argv2 : Z) (r : Redis)
  : Reply * Redis :=
  let keyttl := lua_number (TTL key r) in
  let current := StatusReply "OK" in
  let r := SET key argv1 r in
  if keyttl =? -2 then
    match expire key argv2 r with
    | (ErrorReply e, r) => (ErrorReply e, r)
    | (_, r) => (current, r)
    end
  else if negb (keyttl =? -1) then
    match expire key keyttl r with
    | (ErrorReply e, r) => (ErrorReply e, r)
    | (_, r) => (current, r)
    end
  else (current, r).

(** [n] calls in a row of [custom_limiter.hit] on one limit, no time
    passing: the answers, first call first, and the store left. *)
Fixpoint hits (n : nat) (lim : RateLimitItem) (cost : Z) (app_id : string)
    (r : Redis) : list Answer * Redis :=
  match n with
  | O => ([], r)
  | S n =>
      let '(ok, r) := hit lim cost app_id r in
      let '(rest, r) := hits n lim cost app_id r in
      (ok :: rest, r)
  end.

End UniswapHelpers.

(** * Properties *)

(** ** [chunks] and the polling loop of the epoch detector *)

Module EpochDetectorProofs.
Import EpochDetector.
Local Open Scope Z_scope.

(** *** Arithmetic progressions of [range] *)

Lemma progression_unfold (s n : Z) (m : nat) :
  (λ k : nat, s + Z.of_nat k * n) <$> seq 0 (S m)
  = s :: ((λ k : nat, (s + n) + Z.of_nat k * n) <$> seq 0 m).
Proof.
  cbn [seq fmap list_fmap]. f_equal; [lia|].
  rewrite <- fmap_S_seq, <- list_fmap_compose.
  apply list_fmap_ext. intros _ k _. cbn. lia.
Qed.

Lemma range_len_ascending (start stop n : Z) :
  start <= stop → 1 <= n →
  ∃ m : nat,
    Z.to_nat (PyRange.range_len start (stop + 1) n) = S m
    ∧ start + Z.of_nat m * n <= stop < start + Z.of_nat (S m) * n.
Proof.
  intros Hle Hn. unfold PyRange.range_len.
  destruct (Z.ltb_spec 0 n) as [_|?]; [|lia].
  destruct (Z.ltb_spec start (stop + 1)) as [_|?]; [|lia].
  replace (stop + 1 - 1 - start) with (stop - start) by lia.
  set (q := (stop - start) / n).
  assert (Hq : 0 <= q) by (apply Z.div_pos; lia).
  assert (Hlo : n * q <= stop - start) by (apply Z.mul_div_le; lia).
  assert (Hhi : stop - start < n * Z.succ q)
    by (apply Z.mul_succ_div_gt; lia).
  exists (Z.to_nat q). split; [lia|]. nia.
Qed.

(** *** The loop of [chunks] yields consecutive chunks *)

Lemma chunks_loop_partitions (stop n : Z) (m : nat) :
  0 < n → ∀ s r,
  s + Z.of_nat m * n <= stop < s + Z.of_nat (S m) * n →
  partitions s stop
    (chunks_loop stop n ((λ k : nat, s + Z.of_nat k * n) <$> seq 0 (S m)) r).
Proof.
  intros Hn. induction m as [|m IH]; intros s r Hb.
  - rewrite progression_unfold. cbn [seq fmap list_fmap chunks_loop].
    destruct (Z.eqb_spec s (stop + 1)) as [?|_]; [lia|].
    destruct (Z.leb_spec (s + n - 1) stop).
    + replace (s + n - 1) with stop by lia. apply partitions_last. lia.
    + apply partitions_last. lia.
  - rewrite progression_unfold. cbn [chunks_loop].
    destruct (Z.eqb_spec s (stop + 1)) as [?|_]; [nia|].
    destruct (Z.leb_spec (s + n - 1) stop) as [_|?]; [|nia].
    apply partitions_step; [lia|nia|].
    replace (s + n - 1 + 1) with (s + n) by lia.
    apply IH. nia.
Qed.

(** *** What consecutive chunks give *)

Lemma partitions_bounds a b cs :
  partitions a b cs →
  ∀ c, c ∈ cs → a <= chunk_begin c ∧ chunk_begin c <= chunk_end c ∧ chunk_end c <= b.
Proof.
  induction 1 as [a b r Hab|a e b r cs Hae Heb Hp IH]; intros c Hc.
  - apply list_elem_of_singleton in Hc as ->. cbn. lia.
  - apply elem_of_cons in Hc as [->|Hc]; [cbn; lia|].
    specialize (IH c Hc). lia.
Qed.

Lemma partitions_ascending a b cs :
  partitions a b cs →
  ∀ (i j : nat) ci cj,
    cs !! i = Some ci → cs !! j = Some cj → (i < j)%nat →
    chunk_end ci < chunk_begin cj.
Proof.
  induction 1 as [a b r Hab|a e b r cs Hae Heb Hp IH]; intros i j ci cj Hi Hj Hlt.
  - destruct i, j; try lia; cbn in Hj; by rewrite ?lookup_nil in Hj.
  - destruct j as [|j]; [lia|]. cbn in Hj.
    destruct i as [|i].
    + cbn in Hi. injection Hi as <-. cbn.
      pose proof (partitions_bounds _ _ _ Hp cj) as Hbd.
      assert (cj ∈ cs) as Hin by (apply list_elem_of_lookup; eauto).
      specialize (Hbd Hin). lia.
    + cbn in Hi. apply (IH i j); [done|done|lia].
Qed.

Lemma partitions_cover a b cs :
  partitions a b cs → ∀ x, a <= x <= b → ∃ c, c ∈ cs ∧ in_chunk x c.
Proof.
  induction 1 as [a b r Hab|a e b r cs Hae Heb Hp IH]; intros x Hx.
  - exists (a, b, r). split; [apply list_elem_of_singleton; done|].
    unfold in_chunk. cbn. lia.
  - destruct (Z.le_gt_cases x e) as [Hxe|Hxe].
    + exists (a, e, r). split; [apply elem_of_cons; by left|].
      unfold in_chunk. cbn. lia.
    + destruct (IH x) as (c & Hc & Hin); [lia|].
      exists c. split; [apply elem_of_cons; by right|done].
Qed.

Lemma partitions_last_end a b cs :
  partitions a b cs → ∃ c, last cs = Some c ∧ chunk_end c = b.
Proof.
  induction 1 as [a b r Hab|a e b r cs Hae Heb Hp IH].
  - by exists (a, b, r).
  - destruct IH as (c & Hl & Hc). exists c. split; [|done].
    destruct cs as [|c' cs']; [inversion Hp|]. done.
Qed.

Lemma chunks_ascending_partitions start stop n :
  start <= stop → 1 <= n →
  ∃ cs, chunks start stop n = Some cs ∧ partitions start stop cs.
Proof.
  intros Hle Hn.
  destruct (range_len_ascending start stop n Hle Hn) as (m & Hlen & Hb).
  unfold chunks, PyRange.range.
  destruct (Z.eqb_spec n 0) as [?|_]; [lia|].
  cbn. rewrite Hlen. eexists. split; [reflexivity|].
  apply chunks_loop_partitions; [lia|done].
Qed.

(** C6.  For [start_idx <= stop_idx] and [n >= 1], [chunks] yields (it does
    not raise) ranges that are strictly ascending and pairwise disjoint,
    non-empty, that together contain exactly the integers of
    [[start_idx, stop_idx]], each of them in exactly one chunk, and the last
    chunk ends at [stop_idx]. *)
Theorem chunks_partition (start_idx stop_idx n : Z) :
  start_idx <= stop_idx → 1 <= n →
  ∃ cs, chunks start_idx stop_idx n = Some cs
    ∧ (∀ (i j : nat) ci cj,
         cs !! i = Some ci → cs !! j = Some cj → (i < j)%nat →
         chunk_begin ci < chunk_begin cj ∧ chunk_end ci < chunk_begin cj)
    ∧ (∀ c, c ∈ cs → chunk_begin c <= chunk_end c)
    ∧ (∀ x, start_idx <= x <= stop_idx ↔ ∃ c, c ∈ cs ∧ in_chunk x c)
    ∧ (∀ x (i j : nat) ci cj,
         cs !! i = Some ci → cs !! j = Some cj →
         in_chunk x ci → in_chunk x cj → i = j)
    ∧ (∃ c, last cs = Some c ∧ chunk_end c = stop_idx).
Proof.
  intros Hle Hn.
  destruct (chunks_ascending_partitions start_idx stop_idx n Hle Hn)
    as (cs & Hcs & Hp).
  exists cs. split; [done|].
  pose proof (partitions_bounds _ _ _ Hp) as Hbd.
  pose proof (partitions_ascending _ _ _ Hp) as Hasc.
  assert (Hin : ∀ (i : nat) c, cs !! i = Some c → c ∈ cs)
    by (intros i c Hi; apply list_elem_of_lookup; eauto).
  split; [|split; [|split; [|split]]].
  - intros i j ci cj Hi Hj Hlt.
    specialize (Hasc i j ci cj Hi Hj Hlt).
    specialize (Hbd ci (Hin _ _ Hi)). lia.
  - intros c Hc. specialize (Hbd c Hc). lia.
  - intros x. split.
    + intros Hx. by apply (partitions_cover _ _ _ Hp).
    + intros (c & Hc & Hx). specialize (Hbd c Hc). unfold in_chunk in Hx. lia.
  - intros x i j ci cj Hi Hj Hxi Hxj.
    destruct (Nat.lt_trichotomy i j) as [Hlt|[->|Hgt]]; [|done|].
    + specialize (Hasc i j ci cj Hi Hj Hlt). unfold in_chunk in *. lia.
    + specialize (Hasc j i cj ci Hj Hi Hgt). unfold in_chunk in *. lia.
  - by apply (partitions_last_end _ _ _ Hp).
Qed.

Lemma chunks_partition_witness :
  ∃ cs, chunks 1 10 4 = Some cs ∧ ∃ c, last cs = Some c ∧ chunk_end c = 10.
Proof.
  destruct (chunks_partition 1 10 4) as (cs & Hcs & _ & _ & _ & _ & Hlast);
    [lia|lia|].
  exists cs. split; [exact Hcs|exact Hlast].
Defined.

(** *** Running the generator on small inputs *)

Example chunks_three : chunks 1 10 4 = Some [(1, 4, 1); (5, 8, 2); (9, 10, 3)].
Proof. reflexivity. Qed.

Example chunks_zero_step : chunks 1 10 0 = None.
Proof. reflexivity. Qed.

(** *** The polling loop *)

Lemma broadcasts_emit ev st :
  broadcasts (emit ev st)
  = broadcasts st ++ match ev with QueuePut e => [e] | _ => [] end.
Proof.
  unfold broadcasts, emit. cbn. rewrite omap_app. by destruct ev.
Qed.

Lemma load_checkpoint_last st :
  last_processed_epoch (load_checkpoint st) = checkpoint st.
Proof.
  unfold load_checkpoint, checkpoint.
  destruct (last_processed_epoch st) eqn:Hl; [done|].
  by destruct (redis_last_processed_epoch st) eqn:Hr.
Qed.

Lemma load_checkpoint_frame st :
  redis_last_processed_epoch (load_checkpoint st) = redis_last_processed_epoch st
  ∧ trace (load_checkpoint st) = trace st
  ∧ uuid_calls (load_checkpoint st) = uuid_calls st.
Proof.
  unfold load_checkpoint.
  destruct (last_processed_epoch st); [done|].
  destruct (redis_last_processed_epoch st) eqn:Hr; cbn; by rewrite ?Hr.
Qed.

(** The block ranges put on the queue by the catch-up loop are the ranges
    of the chunks, in order. *)
Lemma broadcast_chunks_ranges cfg uuid4 ok cs st :
  (λ e, (begin e, end_ e)) <$> broadcasts (broadcast_chunks cfg uuid4 ok cs st)
  = ((λ e, (begin e, end_ e)) <$> broadcasts st)
    ++ ((λ c, (chunk_begin c, chunk_end c)) <$> cs).
Proof.
  revert st. induction cs as [|c cs IH]; intros st.
  - cbn. by rewrite app_nil_r.
  - cbn [broadcast_chunks fresh_uuid]. rewrite IH.
    rewrite !broadcasts_emit, !app_nil_r.
    unfold _broadcast_epoch. destruct ok.
    + rewrite broadcasts_emit, app_nil_r. unfold redis_set.
      rewrite broadcasts_emit, app_nil_r.
      unfold broadcasts at 1. cbn [trace set_last_processed_epoch emit].
      rewrite !omap_app, !fmap_app. cbn. rewrite app_nil_r.
      fold (broadcasts st). by rewrite <- app_assoc.
    + rewrite broadcasts_emit, app_nil_r.
      unfold broadcasts at 1. cbn [trace set_last_processed_epoch emit].
      rewrite !omap_app, !fmap_app. cbn. rewrite app_nil_r.
      fold (broadcasts st). by rewrite <- app_assoc.
Qed.

(** C8.  When a checkpoint exists (in memory, or in the store when the
    memory holds none) and its end equals the end of the epoch the tracker
    reports, one pass of the loop broadcasts nothing, does not write the
    store and keeps the checkpoint: it logs, sleeps for the polling interval
    and goes on with the next pass. *)
Theorem same_end_only_sleeps (cfg : Settings) (uuid4 : nat → string)
    (p : Poll) (st : State) (cp : Epoch) (b e : Z) :
  checkpoint st = Some cp →
  response p = HttpResponse 200 b e →
  end_ cp = e →
  let r := poll_once cfg uuid4 p st in
  r.1 = Continue
  ∧ broadcasts r.2 = broadcasts st
  ∧ redis_last_processed_epoch r.2 = redis_last_processed_epoch st
  ∧ checkpoint r.2 = checkpoint st
  ∧ (last_processed_epoch st = Some cp →
     last_processed_epoch r.2 = last_processed_epoch st)
  ∧ trace r.2
    = trace st ++ [Log INFO "Current epoch";
                   Log DEBUG "Last processed epoch is same as current epoch";
                   Sleep (POLLING_INTERVAL cfg)].
Proof.
  intros Hcp Hresp Hend r. subst r. unfold poll_once. rewrite Hresp.
  cbn [Z.eqb Pos.eqb negb fresh_uuid].
  set (st1 := emit _ _).
  assert (Hc1 : checkpoint st1 = Some cp) by exact Hcp.
  pose proof (load_checkpoint_last st1) as Hl.
  pose proof (load_checkpoint_frame st1) as (Hr & Ht & _).
  rewrite Hc1 in Hl. rewrite Hl. cbn [end_].
  rewrite Hend, Z.eqb_refl. cbn [fst snd].
  split; [done|].
  split. { unfold broadcasts. cbn [trace emit]. rewrite Ht. subst st1.
           cbn [trace emit]. rewrite <- !app_assoc, !omap_app. cbn.
           by rewrite app_nil_r. }
  split. { cbn. by rewrite Hr. }
  split. { unfold checkpoint at 1. cbn [last_processed_epoch emit].
           by rewrite Hl, Hcp. }
  split. { intros Hmem. cbn [last_processed_epoch emit]. by rewrite Hl, Hmem. }
  cbn [trace emit]. rewrite Ht. subst st1. cbn [trace emit].
  by rewrite <- !app_assoc.
Qed.

Lemma same_end_only_sleeps_witness :
  broadcasts
    (poll_once (mkSettings 5 1000 1) (λ _, "id")
       (mkPoll (HttpResponse 200 1 100) true)
       (mkState None (Some (mkEpoch 1 100 "cp")) 0 [])).2 = [].
Proof.
  exact (proj1 (proj2
    (same_end_only_sleeps (mkSettings 5 1000 1) (λ _, "id")
       (mkPoll (HttpResponse 200 1 100) true)
       (mkState None (Some (mkEpoch 1 100 "cp")) 0 [])
       (mkEpoch 1 100 "cp") 1 100 eq_refl eq_refl eq_refl))).
Defined.

(** A pass that sees a regression raises [GenericExitOnSignal] without
    touching the queue or the store. *)
Lemma regression_raises cfg uuid4 p st cp b e :
  checkpoint st = Some cp →
  response p = HttpResponse 200 b e →
  e < end_ cp →
  ∃ st',
    poll_once cfg uuid4 p st = (Raise GenericExitOnSignal, st')
    ∧ last_processed_epoch st' = Some cp
    ∧ redis_last_processed_epoch st' = redis_last_processed_epoch st
    ∧ ∃ msg, trace st' = trace st ++ [Log INFO "Current epoch"; msg]
             ∧ ∃ lvl text, msg = Log lvl text.
Proof.
  intros Hcp Hresp Hlt. unfold poll_once. rewrite Hresp.
  cbn [Z.eqb Pos.eqb negb fresh_uuid].
  set (st1 := emit _ _).
  assert (Hc1 : checkpoint st1 = Some cp) by exact Hcp.
  pose proof (load_checkpoint_last st1) as Hl.
  pose proof (load_checkpoint_frame st1) as (Hr & Ht & _).
  rewrite Hc1 in Hl. rewrite Hl. cbn [end_ begin].
  destruct (Z.eqb_spec (end_ cp) e) as [?|_]; [lia|].
  destruct (e - end_ cp >? FALL_BEHIND_RESET_NUM_BLOCKS cfg).
  - eexists. split; [reflexivity|]. cbn [last_processed_epoch emit
      redis_last_processed_epoch trace].
    rewrite Hl, Hr, Ht. subst st1. cbn [trace emit].
    rewrite <- app_assoc. repeat split; eauto.
  - destruct (Z.gtb_spec (end_ cp) e) as [_|?]; [|lia].
    eexists. split; [reflexivity|]. cbn [last_processed_epoch emit
      redis_last_processed_epoch trace].
    rewrite Hl, Hr, Ht. subst st1. cbn [trace emit].
    rewrite <- app_assoc. repeat split; eauto.
Qed.




(** What the catch-up branch does: with a checkpoint ending before the
    reported epoch and a gap within the threshold, the ranges broadcast are
    those of [chunks] called with the end of the checkpoint itself as the
    start index, so they are consecutive from that block to the reported
    end. *)
Lemma catch_up_ranges cfg uuid4 p st cp b e :
  checkpoint st = Some cp →
  response p = HttpResponse 200 b e →
  end_ cp < e →
  e - end_ cp <= FALL_BEHIND_RESET_NUM_BLOCKS cfg →
  b <= e →
  ∃ cs,
    chunks (end_ cp) e (e - b + 1) = Some cs
    ∧ partitions (end_ cp) e cs
    ∧ (poll_once cfg uuid4 p st).1 = Continue
    ∧ (λ x, (begin x, end_ x)) <$> broadcasts (poll_once cfg uuid4 p st).2
      = ((λ x, (begin x, end_ x)) <$> broadcasts st)
        ++ ((λ c, (chunk_begin c, chunk_end c)) <$> cs).
Proof.
  intros Hcp Hresp Hlt Hgap Hbe.
  destruct (chunks_ascending_partitions (end_ cp) e (e - b + 1))
    as (cs & Hcs & Hp); [lia|lia|].
  exists cs. split; [done|]. split; [done|].
  unfold poll_once. rewrite Hresp.
  cbn [Z.eqb Pos.eqb negb fresh_uuid].
  set (st1 := emit _ _).
  assert (Hc1 : checkpoint st1 = Some cp) by exact Hcp.
  pose proof (load_checkpoint_last st1) as Hl.
  pose proof (load_checkpoint_frame st1) as (Hr & Ht & _).
  rewrite Hc1 in Hl. rewrite Hl. cbn [end_ begin].
  destruct (Z.eqb_spec (end_ cp) e) as [?|_]; [lia|].
  destruct (Z.gtb_spec (e - end_ cp) (FALL_BEHIND_RESET_NUM_BLOCKS cfg))
    as [?|_]; [lia|].
  destruct (Z.gtb_spec (end_ cp) e) as [?|_]; [lia|].
  rewrite Hcs. cbn [fst snd]. split; [done|].
  rewrite broadcast_chunks_ranges. f_equal.
  unfold broadcasts. rewrite Ht. subst st1. cbn [trace emit].
  rewrite omap_app. cbn. by rewrite app_nil_r.
Qed.

(** C2, on the code.  With the checkpoint ending at block 100, the tracker
    reporting the epoch 101..200 and a gap within the threshold, one pass
    broadcasts the two chunks 100..199 and 200..200 (not the single chunk
    101..200) and the checkpoint becomes 200..200: the loop hands
    [chunks] the end of the checkpoint, not the block after it. *)
Theorem catch_up_from_100_to_200 (uuid4 : nat → string) :
  (poll_once (mkSettings 5 1000 1) uuid4
     (mkPoll (HttpResponse 200 101 200) true)
     (mkState (Some (mkEpoch 1 100 "cp")) (Some (mkEpoch 1 100 "cp")) 0 [])).1
  = Continue
  ∧ broadcasts
      (poll_once (mkSettings 5 1000 1) uuid4
         (mkPoll (HttpResponse 200 101 200) true)
         (mkState (Some (mkEpoch 1 100 "cp")) (Some (mkEpoch 1 100 "cp")) 0 [])).2
    = [mkEpoch 100 199 (uuid4 1%nat); mkEpoch 200 200 (uuid4 2%nat)]
  ∧ last_processed_epoch
      (poll_once (mkSettings 5 1000 1) uuid4
         (mkPoll (HttpResponse 200 101 200) true)
         (mkState (Some (mkEpoch 1 100 "cp")) (Some (mkEpoch 1 100 "cp")) 0 [])).2
    = Some (mkEpoch 200 200 (uuid4 2%nat))
  ∧ redis_last_processed_epoch
      (poll_once (mkSettings 5 1000 1) uuid4
         (mkPoll (HttpResponse 200 101 200) true)
         (mkState (Some (mkEpoch 1 100 "cp")) (Some (mkEpoch 1 100 "cp")) 0 [])).2
    = Some (mkEpoch 200 200 (uuid4 2%nat)).
Proof. repeat split; reflexivity. Qed.

(** A pass that finds the gap above the threshold raises
    [GenericExitOnSignal]. *)
Lemma fall_behind_raises cfg uuid4 p st cp b e :
  checkpoint st = Some cp →
  response p = HttpResponse 200 b e →
  end_ cp ≠ e →
  e - end_ cp > FALL_BEHIND_RESET_NUM_BLOCKS cfg →
  (poll_once cfg uuid4 p st).1 = Raise GenericExitOnSignal
  ∧ broadcasts (poll_once cfg uuid4 p st).2 = broadcasts st.
Proof.
  intros Hcp Hresp Hne Hgap. unfold poll_once. rewrite Hresp.
  cbn [Z.eqb Pos.eqb negb fresh_uuid].
  set (st1 := emit _ _).
  assert (Hc1 : checkpoint st1 = Some cp) by exact Hcp.
  pose proof (load_checkpoint_last st1) as Hl.
  pose proof (load_checkpoint_frame st1) as (Hr & Ht & _).
  rewrite Hc1 in Hl. rewrite Hl. cbn [end_ begin].
  destruct (Z.eqb_spec (end_ cp) e) as [?|_]; [lia|].
  destruct (Z.gtb_spec (e - end_ cp) (FALL_BEHIND_RESET_NUM_BLOCKS cfg))
    as [_|?]; [|lia].
  cbn [fst snd]. split; [done|].
  unfold broadcasts. cbn [trace emit]. rewrite Ht. subst st1. cbn [trace emit].
  rewrite <- !app_assoc, !omap_app. cbn. by rewrite app_nil_r.
Qed.

(** C4, on the code.  With the checkpoint ending at block 100, a threshold
    of 1000 blocks and the tracker reporting an epoch ending at block 5000,
    the pass logs the error and raises [GenericExitOnSignal]; the decorated
    [run] then leaves with [sys.exit(0)] and none of the later polls is
    made. *)
Theorem fall_behind_exits (uuid4 : nat → string) (polls : list Poll)
    (shutdown_redis_ok : bool) :
  poll_once (mkSettings 5 1000 1) uuid4
    (mkPoll (HttpResponse 200 4901 5000) true)
    (mkState (Some (mkEpoch 1 100 "cp")) (Some (mkEpoch 1 100 "cp")) 0 [])
  = (Raise GenericExitOnSignal,
     mkState (Some (mkEpoch 1 100 "cp")) (Some (mkEpoch 1 100 "cp")) 1
       [Log INFO "Current epoch"; Log ERROR "Epochs are falling behind"])
  ∧ (run (mkSettings 5 1000 1) uuid4
       (mkPoll (HttpResponse 200 4901 5000) true :: polls) shutdown_redis_ok
       (mkState (Some (mkEpoch 1 100 "cp")) (Some (mkEpoch 1 100 "cp")) 0 [])).1
    = Exited 0.
Proof. split; reflexivity. Qed.

End EpochDetectorProofs.

(** ** Strings, topics and sorted sets *)

Module PyStrProofs.
Import PyStr.

Lemma append_inv_head (p a b : string) : p +:+ a = p +:+ b → a = b.
Proof.
  induction p as [|c p IH]; simpl; [done|].
  intros H. injection H as H. by apply IH.
Qed.

Lemma has_dot_append_r (p q : string) :
  has_dot q = true → has_dot (p +:+ q) = true.
Proof.
  intros Hq. induction p as [|c p IH]; simpl; [done|].
  rewrite IH. apply orb_true_r.
Qed.

Lemma split_dot_last_append (p q : string) :
  has_dot q = true → split_dot_last (p +:+ q) = split_dot_last q.
Proof.
  intros Hq. induction p as [|c p IH]; simpl; [done|].
  by rewrite (has_dot_append_r p q Hq).
Qed.

Lemma lower_ascii_not_upper (c : Ascii.ascii) : is_upper (lower_ascii c) = false.
Proof. by destruct c as [[] [] [] [] [] [] [] []]. Qed.

(** [lower] leaves no capital letter. *)
Lemma lower_has_no_upper (s : string) : has_upper (lower s) = false.
Proof.
  induction s as [|c s IH]; cbn; [done|].
  by rewrite lower_ascii_not_upper, IH.
Qed.

Lemma lower_fixes_lower (s : string) : has_upper s = false → lower s = s.
Proof.
  induction s as [|c s IH]; cbn; [done|].
  intros [Hc Hs]%orb_false_elim. rewrite (IH Hs). f_equal.
  unfold lower_ascii. unfold is_upper in Hc. by rewrite Hc.
Qed.

Example lower_address :
  lower "0xAbCdEF0123456789aBcDeF" = "0xabcdef0123456789abcdef".
Proof. reflexivity. Qed.

Example split_dot_last_key :
  split_dot_last "powerloom-event-detector:ns:node.1.SnapshotFinalized"
  = "SnapshotFinalized".
Proof. reflexivity. Qed.

(** [lower] character by character: the length is kept, a letter from [A]
    (65) to [Z] (90) becomes the letter 32 places further, any other
    character is kept. *)
Lemma lower_length (s : string) :
  String.length (lower s) = String.length s.
Proof. induction s as [|c s IH]; [done|]. cbn. by rewrite IH. Qed.

Lemma lower_get (s : string) (i : nat) (c : Ascii.ascii) :
  String.get i s = Some c →
  String.get i (lower s)
  = Some (if ((65 <=? Ascii.N_of_ascii c) && (Ascii.N_of_ascii c <=? 90))%N
          then Ascii.ascii_of_N (Ascii.N_of_ascii c + 32) else c).
Proof.
  revert i. induction s as [|c0 s IH]; intros i; [done|].
  destruct i as [|i]; cbn [String.get lower].
  - by intros [= ->].
  - apply IH.
Qed.

End PyStrProofs.

Module RedisZSetProofs.
Import RedisZSet.
Local Open Scope Z_scope.

Section zset.
Context {A : Type} (ser : A → string).

Lemma elem_of_insert_sorted (x y : A * Z) (z : list (A * Z)) :
  y ∈ insert_sorted ser x z ↔ y = x ∨ y ∈ z.
Proof.
  induction z as [|h z IH]; cbn.
  - rewrite list_elem_of_singleton. split; [by left|].
    intros [?|H]; [done|]. by apply elem_of_nil in H.
  - destruct (entry_leb ser x h).
    + by rewrite elem_of_cons.
    + rewrite !elem_of_cons, IH. tauto.
Qed.

(** After [ZADD] the member is in the set with the score given. *)
Lemma elem_of_zadd (member : A) (score : Z) (z : list (A * Z)) :
  (member, score) ∈ zadd ser member score z.
Proof. unfold zadd. apply elem_of_insert_sorted. by left. Qed.

(** [ZADD] keeps every entry whose bytes differ from those of the member. *)
Lemma elem_of_zadd_other (member : A) (score : Z) (z : list (A * Z)) y :
  y ∈ z → ser y.1 ≠ ser member → y ∈ zadd ser member score z.
Proof.
  intros Hy Hne. unfold zadd. apply elem_of_insert_sorted. right.
  by apply list_elem_of_filter.
Qed.

Lemma elem_of_zrangebyscore (lo hi : Z) (z : list (A * Z)) (m : A) :
  m ∈ zrangebyscore lo hi z ↔ ∃ s, (m, s) ∈ z ∧ lo <= s <= hi.
Proof.
  unfold zrangebyscore. rewrite list_elem_of_fmap. split.
  - intros ([m' s] & -> & H). apply list_elem_of_filter in H as [Hs Hin].
    by exists s.
  - intros (s & Hin & Hs). exists (m, s). split; [done|].
    by apply list_elem_of_filter.
Qed.

(** Nothing is left in a score range that was removed. *)
Lemma zrangebyscore_zremrangebyscore (lo hi : Z) (z : list (A * Z)) :
  zrangebyscore lo hi (zremrangebyscore lo hi z) = [].
Proof.
  unfold zrangebyscore, zremrangebyscore.
  induction z as [|h z IH]; [done|].
  rewrite filter_cons. case_decide as Hh.
  - rewrite filter_cons. case_decide; [done|]. exact IH.
  - exact IH.
Qed.

(** Removing a score range leaves the other scores as they were. *)
Lemma zrangebyscore_zremrangebyscore_other (lo hi lo' hi' : Z)
    (z : list (A * Z)) :
  (∀ s, lo' <= s <= hi' → ¬ lo <= s <= hi) →
  zrangebyscore lo' hi' (zremrangebyscore lo hi z) = zrangebyscore lo' hi' z.
Proof.
  intros Hdisj. unfold zrangebyscore, zremrangebyscore.
  induction z as [|h z IH]; [done|].
  rewrite (filter_cons (λ y, ¬ lo <= y.2 <= hi)).
  rewrite (filter_cons (λ y, lo' <= y.2 <= hi') h z).
  case_decide as Hh.
  - rewrite filter_cons. case_decide; cbn; by rewrite IH.
  - case_decide as Hh'; [|exact IH]. by destruct (Hdisj _ Hh').
Qed.
End zset.

Lemma zset_at_insert {A : Type} (key : string) (z : list (A * Z))
    (db : gmap string (list (A * Z))) :
  zset_at key (<[key := z]> db) = z.
Proof. unfold zset_at. by rewrite lookup_insert_eq. Qed.

Lemma zset_at_insert_ne {A : Type} (key key' : string) (z : list (A * Z))
    (db : gmap string (list (A * Z))) :
  key ≠ key' → zset_at key' (<[key := z]> db) = zset_at key' db.
Proof. intros Hne. unfold zset_at. by rewrite lookup_insert_ne. Qed.

End RedisZSetProofs.

(** ** The processor distributor *)

Module DistributorProofs.
Import RedisZSet Distributor RedisZSetProofs.
Local Open Scope Z_scope.

(** *** Topics *)

Lemma event_detector_key_inj (s : Settings) (a b : string) :
  event_detector_key s a = event_detector_key s b → a = b.
Proof.
  unfold event_detector_key. intros H.
  do 5 apply PyStrProofs.append_inv_head in H. exact H.
Qed.

Lemma event_type_of_event_detector_key (s : Settings) (suffix : string) :
  PyStr.has_dot suffix = false →
  PyStr.split_dot_last (event_detector_key s suffix) = suffix.
Proof.
  intros Hs. unfold event_detector_key.
  assert (Hd : PyStr.has_dot ("." +:+ suffix) = true) by done.
  do 4 (rewrite PyStrProofs.split_dot_last_append;
          [|auto using PyStrProofs.has_dot_append_r]).
  change (PyStr.split_dot_last ("." +:+ suffix))
    with (if PyStr.has_dot suffix then PyStr.split_dot_last suffix else suffix).
  by rewrite Hs.
Qed.

(** *** Publishing *)

Lemma send_message_frame env u type_ rk st :
  published (_send_message_for_processing env u type_ rk st)
  = published st
    ++ [mkPublished (callbacks_exchange (settings env) +:+ ":"
                       +:+ namespace (settings env)) rk u]
  ∧ acked (_send_message_for_processing env u type_ rk st) = acked st
  ∧ redis_events (_send_message_for_processing env u type_ rk st)
    = redis_events st
  ∧ uuid_calls (_send_message_for_processing env u type_ rk st)
    = uuid_calls st.
Proof. done. Qed.

(** The message built for one configured project. *)
Lemma fan_out_projects_published env msg_obj type_ ps st :
  published (fan_out_projects env msg_obj type_ ps st)
  = published st
    ++ ((λ project,
          mkPublished
            (callbacks_exchange (settings env) +:+ ":"
               +:+ namespace (settings env))
            (callback_key (settings env) "EpochReleased" type_)
            (SnapshotProcess
               (mkProcessMessage (eb_begin msg_obj) (eb_end msg_obj)
                  (eb_epochId msg_obj) (PyStr.lower project)
                  (eb_broadcastId msg_obj)))) <$> ps)
  ∧ acked (fan_out_projects env msg_obj type_ ps st) = acked st.
Proof.
  revert st. induction ps as [|project ps IH]; intros st.
  - cbn. by rewrite app_nil_r.
  - cbn [fan_out_projects]. destruct (IH
      (_send_message_for_processing env
         (SnapshotProcess
            (mkProcessMessage (eb_begin msg_obj) (eb_end msg_obj)
               (eb_epochId msg_obj) (PyStr.lower project)
               (eb_broadcastId msg_obj)))
         type_ (callback_key (settings env) "EpochReleased" type_) st))
      as [-> ->].
    destruct (send_message_frame env
      (SnapshotProcess
         (mkProcessMessage (eb_begin msg_obj) (eb_end msg_obj)
            (eb_epochId msg_obj) (PyStr.lower project)
            (eb_broadcastId msg_obj)))
      type_ (callback_key (settings env) "EpochReleased" type_) st)
      as (-> & -> & _).
    by rewrite fmap_cons, <- app_assoc.
Qed.

Lemma fan_out_published env msg_obj cfgs st :
  published (fan_out env msg_obj cfgs st)
  = published st
    ++ ((λ '(type_, project),
          mkPublished
            (callbacks_exchange (settings env) +:+ ":"
               +:+ namespace (settings env))
            (callback_key (settings env) "EpochReleased" type_)
            (SnapshotProcess
               (mkProcessMessage (eb_begin msg_obj) (eb_end msg_obj)
                  (eb_epochId msg_obj) (PyStr.lower project)
                  (eb_broadcastId msg_obj))))
        <$> (cfgs ≫= λ pc, (λ a, (project_type pc, a)) <$> projects pc))
  ∧ acked (fan_out env msg_obj cfgs st) = acked st.
Proof.
  revert st. induction cfgs as [|pc cfgs IH]; intros st.
  - cbn. by rewrite app_nil_r.
  - cbn [fan_out]. destruct (IH
      (fan_out_projects env msg_obj (project_type pc) (projects pc) st))
      as [-> ->].
    destruct (fan_out_projects_published env msg_obj (project_type pc)
                (projects pc) st) as [-> ->].
    split; [|done].
    rewrite bind_cons, fmap_app, <- list_fmap_compose, <- app_assoc.
    done.
Qed.

(** C10.  For an [EpochReleased] delivery whose body is an epoch broadcast,
    with project addresses in ASCII, the fan-out publishes exactly the list
    obtained from the configured (project type, project address) pairs, in
    configuration order, one message per pair: its contract is the address
    in lower case and its begin, end, epochId and broadcastId are those of
    the broadcast; the delivery is acknowledged afterwards.  Lower case
    means: the same length, every letter from [A] to [Z] replaced by the
    letter from [a] to [z] at the same rank, every other character kept; no
    capital letter is left. *)
Theorem fan_out_one_message_per_project (env : Env) (d : Delivery)
    (msg_obj : EpochBroadcast) (st : State) :
  body_epoch d = Some msg_obj →
  Forall (λ pc, Forall (λ project, PyStr.isascii project = true) (projects pc))
    (projects_config env) →
  ∃ st',
    _distribute_callbacks_snapshotting env d st = Return st'
    ∧ published st'
      = published st
        ++ ((λ '(type_, project),
              mkPublished
                (callbacks_exchange (settings env) +:+ ":"
                   +:+ namespace (settings env))
                (callback_key (settings env) "EpochReleased" type_)
                (SnapshotProcess
                   (mkProcessMessage (eb_begin msg_obj) (eb_end msg_obj)
                      (eb_epochId msg_obj) (PyStr.lower project)
                      (eb_broadcastId msg_obj))))
            <$> (projects_config env
                   ≫= λ pc, (λ a, (project_type pc, a)) <$> projects pc))
    ∧ length (published st')
      = (length (published st)
         + length (projects_config env
                     ≫= λ pc, (λ a, (project_type pc, a)) <$> projects pc))%nat
    ∧ (∀ project : string,
         String.length (PyStr.lower project) = String.length project
         ∧ (∀ (i : nat) (c : Ascii.ascii),
              String.get i project = Some c →
              String.get i (PyStr.lower project)
              = Some (if ((65 <=? Ascii.N_of_ascii c)
                            && (Ascii.N_of_ascii c <=? 90))%N
                      then Ascii.ascii_of_N (Ascii.N_of_ascii c + 32)
                      else c))
         ∧ PyStr.has_upper (PyStr.lower project) = false)
    ∧ acked st' = acked st ++ [delivery_tag d].
Proof.
  intros Hbody _. unfold _distribute_callbacks_snapshotting. rewrite Hbody.
  eexists. split; [reflexivity|].
  destruct (fan_out_published env msg_obj (projects_config env)
    (_warm_up_cache_for_epoch_data env
       (logger DEBUG "Epoch Distribution time" st))) as [Hp Ha].
  assert (Hw : published (_warm_up_cache_for_epoch_data env
                 (logger DEBUG "Epoch Distribution time" st)) = published st
               ∧ acked (_warm_up_cache_for_epoch_data env
                 (logger DEBUG "Epoch Distribution time" st)) = acked st).
  { unfold _warm_up_cache_for_epoch_data. by destruct (warm_up_ok env). }
  destruct Hw as [Hwp Hwa]. rewrite Hwp in Hp. rewrite Hwa in Ha.
  cbn [published acked basic_ack]. rewrite Hp, Ha.
  split; [done|]. split; [by rewrite length_app, length_fmap|].
  split; [|done]. intros project.
  split; [apply PyStrProofs.lower_length|].
  split; [apply PyStrProofs.lower_get|apply PyStrProofs.lower_has_no_upper].
Qed.

Lemma fan_out_one_message_per_project_witness :
  ∃ st',
    _distribute_callbacks_snapshotting Scenario.env Scenario.epoch_released init
    = Return st'
    ∧ (λ p, match msg_body p with
            | SnapshotProcess m => pm_contract m
            | _ => ""
            end) <$> published st'
      = ["0xabcd01"; "0xef23"; "0x45ab"]
    ∧ length (published st') = 3%nat
    ∧ acked st' = [2].
Proof.
  destruct (fan_out_one_message_per_project Scenario.env
              Scenario.epoch_released (mkEpochBroadcast 101 200 7 "broadcast-7")
              init eq_refl ltac:(by repeat constructor))
    as (st' & Hr & Hp & Hlen & _ & Hack).
  exists st'. split; [exact Hr|]. split; [by rewrite Hp|].
  split; [exact Hlen|exact Hack].
Defined.

Example fan_out_contracts :
  (λ p, match msg_body p with
        | SnapshotProcess m => (routing_key p, pm_contract m)
        | _ => (routing_key p, "")
        end)
    <$> published
          (state_of (_distribute_callbacks_snapshotting Scenario.env
                       Scenario.epoch_released init))
  = [("powerloom-backend-callback:ns:node:EpochReleased.pair_total_reserves",
      "0xabcd01");
     ("powerloom-backend-callback:ns:node:EpochReleased.pair_total_reserves",
      "0xef23");
     ("powerloom-backend-callback:ns:node:EpochReleased.trade_volume",
      "0x45ab")].
Proof. reflexivity. Qed.

(** *** The multi-project join *)

(** The set [event_project_ids] holds the projectIds of the events, and it
    equals the set of the projects waited for exactly when every project
    waited for has an event and every event is of a project waited for. *)
Lemma elem_of_event_project_ids events (p : string) :
  p ∈ event_project_ids events ↔ ∃ m, m ∈ events ∧ fm_projectId m = p.
Proof.
  unfold event_project_ids. rewrite elem_of_list_to_set, list_elem_of_fmap.
  split.
  - intros (m & -> & Hm). by exists m.
  - intros (m & Hm & <-). by exists m.
Qed.

Lemma event_project_ids_complete events (required : list string) :
  event_project_ids events = list_to_set required
  ↔ ∀ p, p ∈ required ↔ ∃ m, m ∈ events ∧ fm_projectId m = p.
Proof.
  rewrite set_eq. split; intros H p; specialize (H p);
    rewrite elem_of_event_project_ids, elem_of_list_to_set in *; tauto.
Qed.

(** C1.  For an aggregator configured as multi-project and a finalized
    message whose projectId is among the projects waited for, the body of the
    aggregation loop adds the message to the sorted set of the aggregator
    with score epochId and reads back the entries with exactly that score.
    When the projectIds of the entries read back are exactly the projects
    waited for (every project waited for has an entry and every entry is of
    a project waited for), exactly one message is published, the aggregate
    of all the entries read back, and no entry with that score is left.
    Otherwise, in particular when a project waited for has no entry yet,
    nothing is published and the sorted set is the one obtained by the
    insertion. *)
Theorem multi_project_join (env : Env) (config : AggregatorConfig)
    (process_unit : PowerloomSnapshotFinalizedMessage) (st : State) :
  aggregate_on config = multi_project →
  fm_projectId process_unit ∈ projects_to_wait_for config →
  let key := aggregator_events_key (agg_project_type config) in
  let epochId := fm_epochId process_unit in
  let stored :=
    zadd (json_finalized (codec env)) process_unit epochId
      (zset_at key (redis_events st)) in
  let events := zrangebyscore epochId epochId stored in
  let st' := aggregate_config env config process_unit st in
  (process_unit, epochId) ∈ stored
  ∧ (∀ y, y ∈ stored
          ↔ y = (process_unit, epochId)
            ∨ (y ∈ zset_at key (redis_events st)
               ∧ json_finalized (codec env) y.1
                 ≠ json_finalized (codec env) process_unit))
  ∧ (∀ m, m ∈ events ↔ (m, epochId) ∈ stored)
  ∧ ((∀ p : string,
        p ∈ projects_to_wait_for config
        ↔ ∃ m, m ∈ events ∧ fm_projectId m = p) →
     published st'
     = published st
       ++ [mkPublished
             (callbacks_exchange (settings env) +:+ ":"
                +:+ namespace (settings env))
             (callback_key (settings env) "CalculateAggregate"
                (agg_project_type config))
             (CalculateAggregate
                (mkAggregateMessage events (now env)
                   (uuid4 env (uuid_calls st))))]
     ∧ zset_at key (redis_events st')
       = zremrangebyscore epochId epochId stored
     ∧ (∀ y, y ∈ zset_at key (redis_events st')
             ↔ y ∈ stored ∧ y.2 ≠ epochId)
     ∧ zrangebyscore epochId epochId (zset_at key (redis_events st')) = [])
  ∧ (¬ (∀ p : string,
          p ∈ projects_to_wait_for config
          ↔ ∃ m, m ∈ events ∧ fm_projectId m = p) →
     published st' = published st
     ∧ zset_at key (redis_events st') = stored)
  ∧ ((∃ p : string,
        p ∈ projects_to_wait_for config
        ∧ ∀ m, m ∈ events → fm_projectId m ≠ p) →
     published st' = published st
     ∧ zset_at key (redis_events st') = stored
     ∧ zrangebyscore epochId epochId (zset_at key (redis_events st')) = events).
Proof.
  intros Hmulti Hreq key epochId stored events st'.
  assert (Hin : (process_unit, epochId) ∈ stored) by apply elem_of_zadd.
  assert (Hread : ∀ m, m ∈ events ↔ (m, epochId) ∈ stored).
  { intros m. subst events. rewrite elem_of_zrangebyscore. split.
    - intros (s & Hs & Hle). by replace epochId with s by lia.
    - intros Hm. exists epochId. split; [done|lia]. }
  assert (Hev : process_unit ∈ events) by by apply Hread.
  assert (Hst' : st' =
    if bool_decide (event_project_ids events
                    = list_to_set (projects_to_wait_for config))
    then
      let st1 := set_events (<[key := stored]> (redis_events st)) st in
      let st2 := logger INFO "All projects present, aggregating" st1 in
      let st3 :=
        _send_message_for_processing env
          (CalculateAggregate
             (mkAggregateMessage events (now env) (uuid4 env (uuid_calls st))))
          (agg_project_type config)
          (callback_key (settings env) "CalculateAggregate"
             (agg_project_type config))
          (fresh_uuid env st2).2 in
      set_events
        (<[key := zremrangebyscore epochId epochId
                    (zset_at key (redis_events st3))]> (redis_events st3)) st3
    else
      logger INFO "Not all projects present"
        (set_events (<[key := stored]> (redis_events st)) st)).
  { subst st'. unfold aggregate_config. rewrite Hmulti.
    unfold aggregate_multi_project.
    rewrite (bool_decide_eq_true_2 _ Hreq).
    cbn [redis_events set_events]. rewrite zset_at_insert.
    fold key epochId. fold stored. fold events.
    destruct events as [|ev evs] eqn:Hevs; [by apply elem_of_nil in Hev|].
    reflexivity. }
  split; [done|]. split.
  { intros y. subst stored. unfold zadd.
    rewrite elem_of_insert_sorted, list_elem_of_filter. tauto. }
  split; [done|].
  assert (Hmiss : ¬ (∀ p : string,
                       p ∈ projects_to_wait_for config
                       ↔ ∃ m, m ∈ events ∧ fm_projectId m = p) →
     published st' = published st
     ∧ zset_at key (redis_events st') = stored).
  { intros Hne. rewrite <- event_project_ids_complete in Hne.
    rewrite Hst', (bool_decide_eq_false_2 _ Hne).
    cbn [published redis_events logger set_events].
    by rewrite zset_at_insert. }
  split; [|split; [exact Hmiss|]].
  - intros Heq. apply event_project_ids_complete in Heq.
    rewrite Hst', (bool_decide_eq_true_2 _ Heq).
    cbn [published redis_events logger set_events fresh_uuid snd
         _send_message_for_processing set_logs enqueue_msg_delivery].
    rewrite !zset_at_insert.
    split; [done|]. split; [done|]. split.
    { intros y. unfold zremrangebyscore. rewrite list_elem_of_filter.
      split; intros [H1 H2]; split; try done; lia. }
    apply zrangebyscore_zremrangebyscore.
  - intros (p & Hp & Hnone). destruct Hmiss as [Hpub Hz].
    { intros Hall. apply Hall in Hp as (m & Hm & Hmp).
      by apply (Hnone m). }
    by rewrite Hz.
Qed.

Lemma multi_project_join_witness :
  let stA :=
    aggregate_config Scenario.env Scenario.abc (Scenario.finalized "A") init in
  let stB :=
    aggregate_config Scenario.env Scenario.abc (Scenario.finalized "B") stA in
  let stC :=
    aggregate_config Scenario.env Scenario.abc (Scenario.finalized "C") stB in
  (published stA = []
   ∧ zrangebyscore 7 7 (zset_at Scenario.abc_key (redis_events stA))
     = [Scenario.finalized "A"])
  ∧ (msg_body <$> published stC
     = [CalculateAggregate
          (mkAggregateMessage
             [Scenario.finalized "A"; Scenario.finalized "B";
              Scenario.finalized "C"] 1700000000 "uuid-0")]
     ∧ zrangebyscore 7 7 (zset_at Scenario.abc_key (redis_events stC)) = []).
Proof.
  intros stA stB stC. split.
  - destruct (multi_project_join Scenario.env Scenario.abc
                (Scenario.finalized "A") init) as (_ & _ & _ & _ & _ & Hsub).
    { reflexivity. }
    { vm_compute. apply list_elem_of_here. }
    destruct Hsub as (Hp & _ & Hz).
    { exists "B". split.
      - vm_compute. apply list_elem_of_further, list_elem_of_here.
      - intros m Hm. vm_compute in Hm.
        apply list_elem_of_singleton in Hm as ->. discriminate. }
    split; [exact Hp|exact Hz].
  - destruct (multi_project_join Scenario.env Scenario.abc
                (Scenario.finalized "C") stB) as (_ & _ & _ & Hall & _).
    { reflexivity. }
    { vm_compute. do 2 apply list_elem_of_further. apply list_elem_of_here. }
    destruct Hall as (Hp & _ & _ & Hz).
    { apply event_project_ids_complete.
      apply (bool_decide_unpack _). vm_compute. exact I. }
    split; [|exact Hz]. subst stC. rewrite Hp. reflexivity.
Defined.

(** The scenario of the specification: [A] and [B] arrive for epoch 7 and
    nothing is emitted, two entries are stored; then [C] arrives, one
    aggregate of the three messages is published and the score is empty. *)
Example join_A_B_then_C :
  let stA :=
    aggregate_multi_project Scenario.env Scenario.abc (Scenario.finalized "A")
      init in
  let stB :=
    aggregate_multi_project Scenario.env Scenario.abc (Scenario.finalized "B")
      stA in
  let stC :=
    aggregate_multi_project Scenario.env Scenario.abc (Scenario.finalized "C")
      stB in
  published stB = []
  ∧ zrangebyscore 7 7 (zset_at Scenario.abc_key (redis_events stB))
    = [Scenario.finalized "A"; Scenario.finalized "B"]
  ∧ msg_body <$> published stC
    = [CalculateAggregate
         (mkAggregateMessage
            [Scenario.finalized "A"; Scenario.finalized "B";
             Scenario.finalized "C"] 1700000000 "uuid-0")]
  ∧ zrangebyscore 7 7 (zset_at Scenario.abc_key (redis_events stC)) = [].
Proof. vm_compute. done. Qed.

(** *** Routing of [SnapshotFinalized] deliveries *)

Lemma aggregate_config_acked env config m st :
  acked (aggregate_config env config m st) = acked st.
Proof.
  unfold aggregate_config, aggregate_multi_project.
  destruct (aggregate_on config).
  - by destruct (negb _).
  - case_bool_decide; [|done]. cbn [redis_events set_events].
    destruct (zrangebyscore _ _ _); [done|].
    by case_bool_decide.
Qed.

Lemma aggregate_all_acked env cfgs m st :
  acked (aggregate_all env cfgs m st) = acked st.
Proof.
  revert st. induction cfgs as [|config cfgs IH]; intros st; [done|].
  cbn [aggregate_all]. by rewrite IH, aggregate_config_acked.
Qed.

Lemma snapshot_finalized_is_not_epoch_released (s : Settings) :
  String.eqb (event_detector_key s "SnapshotFinalized")
             (event_detector_key s "EpochReleased") = false.
Proof.
  apply String.eqb_neq. intros H.
  by apply event_detector_key_inj in H.
Qed.

(** X30.  A [SnapshotFinalized] delivery whose body validates goes through
    the payload-commit forwarding first and through the aggregation next: the
    envelope is published by the first, and the second, run on the state
    left by the first, acknowledges the delivery. *)
Lemma finalized_delivery_runs_both_paths env d m st :
  method_routing_key d = event_detector_key (settings env) "SnapshotFinalized" →
  body_finalized d = Some m →
  ∃ st1 st2,
    _build_and_forward_to_payload_commit_queue env d
      (logger DEBUG "Got message to process and distribute" st) = Return st1
    ∧ published st1
      = published st
        ++ [mkPublished
              (commit_payload_exchange (settings env) +:+ ":"
                 +:+ namespace (settings env))
              ("powerloom-backend-commit-payload:" +:+ namespace (settings env)
                 +:+ ":" +:+ instance_id (settings env) +:+ ".Finalized")
              (PayloadCommit (mkPayloadCommit m true (chain_id (settings env))))]
    ∧ _distribute_callbacks_aggregate env d st1 = Return st2
    ∧ _distribute_callbacks env d st = ([CommitPayload; Aggregation], Return st2)
    ∧ acked st2 = acked st ++ [delivery_tag d].
Proof.
  intros Hrk Hbody.
  assert (Hty : PyStr.split_dot_last (method_routing_key d)
                = "SnapshotFinalized")
    by (rewrite Hrk; by apply event_type_of_event_detector_key).
  unfold _distribute_callbacks, _build_and_forward_to_payload_commit_queue,
    _distribute_callbacks_aggregate.
  rewrite Hty, Hrk, !String.eqb_refl, snapshot_finalized_is_not_epoch_released.
  rewrite Hbody. cbn [negb].
  eexists _, _. split; [reflexivity|]. split; [done|].
  split; [reflexivity|]. split; [reflexivity|].
  cbn [acked basic_ack]. by rewrite aggregate_all_acked.
Qed.

(** A [SnapshotFinalized] delivery whose body does not validate leaves
    [_distribute_callbacks] with the [ValidationError] of the payload-commit
    forwarding: the aggregation handler is not entered. *)
Lemma malformed_finalized_never_aggregated env d st :
  method_routing_key d = event_detector_key (settings env) "SnapshotFinalized" →
  body_finalized d = None →
  _distribute_callbacks env d st
  = ([CommitPayload],
     Raise ValidationError
       (logger DEBUG "Got message to process and distribute" st)).
Proof.
  intros Hrk Hbody.
  assert (Hty : PyStr.split_dot_last (method_routing_key d)
                = "SnapshotFinalized")
    by (rewrite Hrk; by apply event_type_of_event_detector_key).
  unfold _distribute_callbacks, _build_and_forward_to_payload_commit_queue.
  by rewrite Hty, Hrk, !String.eqb_refl, Hbody.
Qed.

(** C5, on the code.  For the delivery with the [SnapshotFinalized] routing
    key and a body that does not validate, [_distribute_callbacks] enters
    the payload-commit forwarding only and ends with its [ValidationError];
    the aggregation handler, which on its own catches that error, logs it
    and returns, is not reached. *)
Theorem malformed_finalized_skips_aggregation :
  _distribute_callbacks Scenario.env Scenario.malformed_finalized init
  = ([CommitPayload],
     Raise ValidationError
       (logger DEBUG "Got message to process and distribute" init))
  ∧ _distribute_callbacks_aggregate Scenario.env Scenario.malformed_finalized
      init
    = Return (logger ERROR "Bad message structure of event callback" init).
Proof. split; reflexivity. Qed.

Example finalized_delivery_paths :
  (_distribute_callbacks Scenario.env
     (mkDelivery (event_detector_key Scenario.settings "SnapshotFinalized") 3
        None (Some (Scenario.finalized "A"))) init).1
  = [CommitPayload; Aggregation].
Proof. reflexivity. Qed.

End DistributorProofs.

(** ** The RPC rate limiter *)

Module RateLimiterProofs.
Import RateLimiter.
Local Open Scope Z_scope.

(** *** The store *)

Lemma live_Some r key e :
  live r key = Some e ↔ keys r !! key = Some e ∧ expired (clock r) e = false.
Proof.
  unfold live. destruct (keys r !! key) as [e'|].
  - destruct (expired (clock r) e') eqn:He; split.
    + discriminate.
    + intros [[= ->] Hf]. congruence.
    + by intros [= ->].
    + by intros [[= ->] _].
  - split; [discriminate|]. by intros [? _].
Qed.

Lemma live_insert_eq now m key e :
  expired now e = false → live (mkRedis now (<[key := e]> m)) key = Some e.
Proof.
  intros He. unfold live. cbn [keys clock]. by rewrite lookup_insert_eq, He.
Qed.

Lemma incremented_entry_not_expired key v r :
  expired (clock r) (mkEntry v (live r key ≫= expire_at)) = false.
Proof.
  destruct (live r key) as [e|] eqn:Hlive; [|done].
  apply live_Some in Hlive as [_ Hexp]. exact Hexp.
Qed.

Lemma is_long_long_spec z :
  is_long_long z = true ↔ LLONG_MIN <= z <= LLONG_MAX.
Proof. unfold is_long_long. rewrite andb_true_iff, !Z.leb_le. done. Qed.

(** Up to [2^53] in absolute value the numbers of Lua hold the integers
    exactly. *)
Lemma lua_number_exact z : Z.abs z <= 2 ^ 53 → lua_number z = z.
Proof.
  change (2 ^ 53) with 9007199254740992. intros Hz. unfold lua_number.
  cbn zeta. destruct (Z.leb_spec (Z.abs z) 9007199254740992); [done|lia].
Qed.

Lemma lua_to_integer_exact z : z <= LLONG_MAX → lua_to_integer z = z.
Proof.
  intros Hz. unfold lua_to_integer.
  destruct (Z.ltb_spec LLONG_MAX z); [lia|done].
Qed.

(** [INCRBY] either answers an error and leaves the store as it was, or
    answers the old count (0 for a missing key) plus the amount, a 64-bit
    integer, and stores it, keeping the time to live. *)
Lemma incrby_cases key increment r :
  (∃ e, incrby key increment r = (ErrorReply e, r))
  ∨ (is_long_long (from_option value 0 (live r key) + increment) = true
     ∧ incrby key increment r
       = (IntegerReply (from_option value 0 (live r key) + increment),
          mkRedis (clock r)
            (<[key := mkEntry (from_option value 0 (live r key) + increment)
                        (live r key ≫= expire_at)]> (keys r)))).
Proof.
  unfold incrby. cbn zeta.
  destruct (is_long_long increment) eqn:Hi; cbn [negb]; [|left; eauto].
  destruct (is_long_long (from_option value 0 (live r key))) eqn:Ho;
    cbn [negb]; [|left; eauto].
  destruct (_ || _) eqn:Hov; [left; eauto|right]. split; [|done].
  apply is_long_long_spec in Hi, Ho. apply is_long_long_spec.
  apply orb_false_iff in Hov as [H1 H2].
  unfold LLONG_MIN, LLONG_MAX in *.
  set (old := from_option value 0 (live r key)) in *.
  destruct (Z.ltb_spec increment 0), (Z.ltb_spec old 0),
    (Z.ltb_spec 0 increment), (Z.ltb_spec 0 old),
    (Z.ltb_spec increment (-9223372036854775808 - old)),
    (Z.ltb_spec (9223372036854775807 - old) increment);
    cbn in H1, H2; try discriminate; lia.
Qed.

(** When the sum is a 64-bit integer, so that the operands are, [INCRBY]
    answers it. *)
Lemma incrby_eq key increment r :
  is_long_long increment = true →
  is_long_long (from_option value 0 (live r key)) = true →
  is_long_long (from_option value 0 (live r key) + increment) = true →
  incrby key increment r
  = (IntegerReply (from_option value 0 (live r key) + increment),
     mkRedis (clock r)
       (<[key := mkEntry (from_option value 0 (live r key) + increment)
                   (live r key ≫= expire_at)]> (keys r))).
Proof.
  intros Hi Ho Hs. unfold incrby. cbn zeta. rewrite Hi, Ho. cbn [negb].
  apply is_long_long_spec in Hi, Ho, Hs. unfold LLONG_MIN, LLONG_MAX in *.
  set (old := from_option value 0 (live r key)) in *.
  destruct (Z.ltb_spec increment 0), (Z.ltb_spec old 0),
    (Z.ltb_spec 0 increment), (Z.ltb_spec 0 old),
    (Z.ltb_spec increment (-9223372036854775808 - old)),
    (Z.ltb_spec (9223372036854775807 - old) increment);
    cbn [andb orb]; try done; lia.
Qed.

(** [EXPIRE] with a positive timeout that ends at a representable instant
    sets the time to live of a key that exists. *)
Lemma expire_eq key seconds r e :
  live r key = Some e →
  0 <= clock r → 0 < seconds → clock r + seconds * 1000 <= LLONG_MAX →
  expire key seconds r
  = (IntegerReply 1,
     mkRedis (clock r)
       (<[key := mkEntry (value e) (Some (clock r + seconds * 1000))]>
          (keys r))).
Proof.
  intros Hlive Hclock Hs Hend. unfold expire. cbn zeta.
  assert (Hll : is_long_long seconds = true).
  { apply is_long_long_spec. unfold LLONG_MIN, LLONG_MAX in *. lia. }
  rewrite Hll. cbn [negb].
  change (Z.quot LLONG_MAX 1000) with 9223372036854775.
  change (Z.quot LLONG_MIN 1000) with (-9223372036854775).
  unfold LLONG_MAX in *.
  destruct (Z.ltb_spec 9223372036854775 seconds) as [?|_]; [lia|].
  destruct (Z.ltb_spec seconds (-9223372036854775)) as [?|_]; [lia|].
  cbn [orb].
  destruct (Z.ltb_spec (9223372036854775807 - clock r) (seconds * 1000))
    as [?|_]; [lia|].
  rewrite Hlive.
  destruct (Z.leb_spec (seconds * 1000 + clock r) (clock r)) as [?|_]; [lia|].
  by rewrite (Z.add_comm (seconds * 1000)).
Qed.

Lemma incrby_clock key increment r :
  clock (incrby key increment r).2 = clock r.
Proof. by destruct (incrby_cases key increment r) as [[e ->]|[_ ->]]. Qed.

Lemma expire_clock key seconds r :
  clock (expire key seconds r).2 = clock r.
Proof. unfold expire. by repeat case_match. Qed.

Lemma script_clock key window cost r :
  clock (SCRIPT_INCR_EXPIRE key window cost r).2 = clock r.
Proof.
  unfold SCRIPT_INCR_EXPIRE.
  destruct (incrby_cases key cost r) as [[e ->]|[_ ->]]; [done|].
  cbn zeta. case_match; [|done].
  match goal with
  | |- context [expire ?k ?s ?r0] =>
      pose proof (expire_clock k s r0) as Hc;
      destruct (expire k s r0) as [[]]
  end; exact Hc.
Qed.

(** *** The increment script *)

(** The script in one equation, for a positive window that ends at a
    representable instant and counts that the numbers of Lua hold
    exactly. *)
Lemma script_eq key window cost r :
  0 <= clock r → 0 < window → clock r + window * 1000 <= LLONG_MAX →
  Z.abs cost <= 2 ^ 53 →
  Z.abs (from_option value 0 (live r key) + cost) <= 2 ^ 53 →
  SCRIPT_INCR_EXPIRE key window cost r
  = (IntegerReply (from_option value 0 (live r key) + cost),
     mkRedis (clock r)
       (<[key := mkEntry (from_option value 0 (live r key) + cost)
                   (if from_option value 0 (live r key) =? 0
                    then Some (clock r + window * 1000)
                    else live r key ≫= expire_at)]> (keys r))).
Proof.
  intros Hclock Hw Hend Hcost Hsum.
  set (old := from_option value 0 (live r key)) in *.
  assert (H53 : 2 ^ 53 = 9007199254740992) by reflexivity.
  unfold SCRIPT_INCR_EXPIRE.
  rewrite incrby_eq; fold old;
    try (apply is_long_long_spec; unfold LLONG_MIN, LLONG_MAX; lia).
  cbn zeta. rewrite !lua_number_exact by done.
  rewrite lua_to_integer_exact by (unfold LLONG_MAX; lia).
  destruct (Z.eqb_spec (old + cost) cost) as [Heq|Hne].
  - destruct (Z.eqb_spec old 0) as [_|?]; [|lia].
    erewrite expire_eq;
      [|apply live_insert_eq, incremented_entry_not_expired|done..].
    cbn [keys clock value]. by rewrite insert_insert_eq.
  - destruct (Z.eqb_spec old 0) as [?|_]; [lia|]. done.
Qed.

(** The script keeps "every key of the store has a time to live", whatever
    the amount. *)
Lemma script_keeps_expiry key window cost r :
  0 <= clock r → 0 < window → clock r + window * 1000 <= LLONG_MAX →
  (∀ k e, keys r !! k = Some e → is_Some (expire_at e)) →
  ∀ k e, keys (SCRIPT_INCR_EXPIRE key window cost r).2 !! k = Some e →
         is_Some (expire_at e).
Proof.
  intros Hclock Hw Hend Hinv k e. unfold SCRIPT_INCR_EXPIRE.
  destruct (incrby_cases key cost r) as [[err ->]|[_ ->]]; [apply Hinv|].
  cbn zeta.
  destruct (Z.eqb_spec
              (lua_number (from_option value 0 (live r key) + cost))
              (lua_number cost)) as [Heq|Hne].
  - erewrite expire_eq;
      [|apply live_insert_eq, incremented_entry_not_expired|done..].
    cbn [snd keys clock value]. rewrite insert_insert_eq, lookup_insert.
    case_decide; [|apply Hinv]. intros [= <-]. by eexists.
  - cbn [snd keys]. rewrite lookup_insert. case_decide; [|apply Hinv].
    intros [= <-]. cbn [expire_at].
    destruct (live r key) as [e0|] eqn:Hlive.
    + cbn. apply live_Some in Hlive as [Hk _]. by apply (Hinv key).
    + cbn in Hne. by rewrite Z.add_0_l in Hne.
Qed.

Lemma step_keeps_expiry r r' :
  step r r' →
  0 <= clock r ∧ (∀ k e, keys r !! k = Some e → is_Some (expire_at e)) →
  0 <= clock r'
  ∧ (∀ k e, keys r' !! k = Some e → is_Some (expire_at e)).
Proof.
  intros Hstep [Hclock Hinv].
  destruct Hstep as [key window cost r Hw Hend|matches r|ms r Hms].
  - split; [by rewrite script_clock|]. by apply script_keeps_expiry.
  - split; [done|]. intros k e. cbn [SCRIPT_CLEAR_KEYS snd keys].
    intros [Hk _]%map_lookup_filter_Some. by apply (Hinv k e).
  - split; [cbn; lia|exact Hinv].
Qed.

Lemma reachable_keys_have_expiry r :
  reachable r →
  0 <= clock r ∧ (∀ k e, keys r !! k = Some e → is_Some (expire_at e)).
Proof.
  intros (now & Hnow & Hrtc).
  assert (Hgen : ∀ r0, rtc step r0 r →
            0 <= clock r0
            ∧ (∀ k e, keys r0 !! k = Some e → is_Some (expire_at e)) →
            0 <= clock r
            ∧ (∀ k e, keys r !! k = Some e → is_Some (expire_at e))).
  { clear. intros r0 Hrtc.
    induction Hrtc as [r|r0 r1 r Hstep Hrtc IH]; [done|].
    intros Hinv. apply IH. by apply (step_keeps_expiry r0 r1). }
  apply (Hgen (empty now) Hrtc). split; [done|]. intros k e Hk.
  cbn in Hk. by rewrite lookup_empty in Hk.
Qed.

Lemma reachable_script key window cost r :
  0 < window → clock r + window * 1000 <= LLONG_MAX →
  reachable r → reachable (SCRIPT_INCR_EXPIRE key window cost r).2.
Proof.
  intros Hw Hend (now & Hnow & Hrtc). exists now. split; [done|].
  eapply rtc_r; [exact Hrtc|by apply step_incr_expire].
Qed.

(** C9, as the code has it.  On every store reachable through the limiter's
    scripts (the increment script run with a positive window that ends at a
    representable instant) and the passing of time, every counter that
    exists has a time to live, and a run of the increment script with such
    a window leaves a store in which again every counter has one.  When the
    amount and the new count are within [2^53] in absolute value, the run
    answers the old count (0 for a missing key) plus the amount and leaves
    the key holding that sum; its expiry is set to the window length
    exactly when the old count is 0, that is when the key was missing or
    its counter stood at 0, and is kept as it was otherwise.  In particular
    a bucket created by the run expires after the window. *)
Theorem incr_expire_keeps_counter_and_expiry (r : Redis) :
  reachable r →
  counters_have_expiry r
  ∧ ∀ (key : string) (window cost : Z),
      0 < window → clock r + window * 1000 <= LLONG_MAX →
      counters_have_expiry (SCRIPT_INCR_EXPIRE key window cost r).2
      ∧ (Z.abs cost <= 2 ^ 53 →
         Z.abs (from_option value 0 (live r key) + cost) <= 2 ^ 53 →
         (SCRIPT_INCR_EXPIRE key window cost r).1
         = IntegerReply (from_option value 0 (live r key) + cost)
         ∧ live (SCRIPT_INCR_EXPIRE key window cost r).2 key
           = Some (mkEntry (from_option value 0 (live r key) + cost)
                     (if from_option value 0 (live r key) =? 0
                      then Some (clock r + window * 1000)
                      else live r key ≫= expire_at)))
      ∧ (live r key = None → Z.abs cost <= 2 ^ 53 →
         live (SCRIPT_INCR_EXPIRE key window cost r).2 key
         = Some (mkEntry cost (Some (clock r + window * 1000)))).
Proof.
  intros Hreach.
  destruct (reachable_keys_have_expiry r Hreach) as [Hclock Hinv].
  split.
  { intros key e [Hk _]%live_Some. by apply (Hinv key). }
  intros key window cost Hw Hend.
  assert (Hentry : Z.abs cost <= 2 ^ 53 →
    Z.abs (from_option value 0 (live r key) + cost) <= 2 ^ 53 →
    (SCRIPT_INCR_EXPIRE key window cost r).1
    = IntegerReply (from_option value 0 (live r key) + cost)
    ∧ live (SCRIPT_INCR_EXPIRE key window cost r).2 key
      = Some (mkEntry (from_option value 0 (live r key) + cost)
                (if from_option value 0 (live r key) =? 0
                 then Some (clock r + window * 1000)
                 else live r key ≫= expire_at))).
  { intros Hcost Hsum. rewrite script_eq by done. cbn [fst snd].
    split; [done|]. apply live_insert_eq.
    destruct (_ =? 0).
    - unfold expired. cbn [expire_at].
      destruct (Z.ltb_spec (clock r + window * 1000) (clock r)); [lia|done].
    - apply incremented_entry_not_expired. }
  split; [|split; [exact Hentry|]].
  - intros k e [Hk _]%live_Some.
    destruct (reachable_keys_have_expiry _
                (reachable_script key window cost r Hw Hend Hreach))
      as [_ Hinv'].
    by apply (Hinv' k).
  - intros Hnone Hcost. destruct Hentry as [_ Hlive]; [done| |].
    + by rewrite Hnone.
    + rewrite Hlive, Hnone. cbn. by rewrite Z.add_0_l.
Qed.

Lemma incr_expire_keeps_counter_and_expiry_witness :
  counters_have_expiry (SCRIPT_INCR_EXPIRE "bucket" 60 1 (empty 0)).2.
Proof.
  exact (proj1
    (proj2
       (incr_expire_keeps_counter_and_expiry (empty 0)
          (ex_intro _ 0 (conj (Z.le_refl 0) (rtc_refl step (empty 0)))))
       "bucket" 60 1 eq_refl ltac:(discriminate))).
Defined.

(** C9, against the claim.  The expiry is not set only when the increment
    creates the bucket, and the counter is not always incremented: a bucket
    that exists with its counter at 0 gets its expiry set anew by the next
    increment; from [2^53] on the comparison is made on doubles, so an
    increment of [2^53] on a counter at 1 answers [2^53] and sets the
    expiry anew although the new count, [2^53 + 1], differs from the
    amount; and an increment that would pass [2^63 - 1] is refused with the
    counter left as it was. *)
Lemma incr_expire_sets_expiry_on_existing_bucket :
  let r0 := advance 10000 (SCRIPT_INCR_EXPIRE "bucket" 60 0 (empty 100000)).2 in
  let r1 := advance 10000 (SCRIPT_INCR_EXPIRE "bucket" 60 1 (empty 100000)).2 in
  let rmax :=
    (SCRIPT_INCR_EXPIRE "bucket" 60 LLONG_MAX (empty 100000)).2 in
  (reachable r0
   ∧ live r0 "bucket" = Some (mkEntry 0 (Some 160000))
   ∧ SCRIPT_INCR_EXPIRE "bucket" 60 1 r0
     = (IntegerReply 1,
        mkRedis 110000 {[ "bucket" := mkEntry 1 (Some 170000) ]}))
  ∧ (reachable r1
     ∧ live r1 "bucket" = Some (mkEntry 1 (Some 160000))
     ∧ SCRIPT_INCR_EXPIRE "bucket" 60 (2 ^ 53) r1
       = (IntegerReply (2 ^ 53),
          mkRedis 110000
            {[ "bucket" := mkEntry (2 ^ 53 + 1) (Some 170000) ]}))
  ∧ (reachable rmax
     ∧ live rmax "bucket" = Some (mkEntry LLONG_MAX (Some 160000))
     ∧ SCRIPT_INCR_EXPIRE "bucket" 60 1 rmax
       = (ErrorReply WouldOverflow, rmax)).
Proof.
  assert (Hstart : reachable (empty 100000)).
  { exists 100000. split; [lia|apply rtc_refl]. }
  assert (Hrun : ∀ cost,
    reachable (SCRIPT_INCR_EXPIRE "bucket" 60 cost (empty 100000)).2).
  { intros cost. apply reachable_script; [lia|by vm_compute|done]. }
  assert (Hlater : ∀ r, reachable r → reachable (advance 10000 r)).
  { intros r (now & Hnow & Hrtc). exists now. split; [done|].
    eapply rtc_r; [exact Hrtc|]. apply step_time. lia. }
  split; [|split].
  - split; [apply Hlater, Hrun|]. split; [reflexivity|]. by vm_compute.
  - split; [apply Hlater, Hrun|]. split; [reflexivity|]. by vm_compute.
  - split; [apply Hrun|]. split; [reflexivity|]. by vm_compute.
Qed.

Example first_hit_sets_expiry :
  live (SCRIPT_INCR_EXPIRE "bucket" 60 1 (empty 100000)).2 "bucket"
  = Some (mkEntry 1 (Some 160000)).
Proof. reflexivity. Qed.

Example second_hit_keeps_expiry :
  live (SCRIPT_INCR_EXPIRE "bucket" 60 1
          (advance 10000
             (SCRIPT_INCR_EXPIRE "bucket" 60 1 (empty 100000)).2)).2
       "bucket"
  = Some (mkEntry 2 (Some 160000)).
Proof. reflexivity. Qed.

(** A count that rounds to [2^63] as a double is answered as [-2^63]. *)
Example reply_wraps_at_the_top :
  (SCRIPT_INCR_EXPIRE "bucket" 60 LLONG_MAX (empty 100000)).1
  = IntegerReply LLONG_MIN.
Proof. reflexivity. Qed.

(** A window that ends past the last representable instant leaves the new
    counter without a time to live: [EXPIRE] refuses it after [INCRBY] has
    created the key. *)
Example unrepresentable_window_leaves_no_expiry :
  SCRIPT_INCR_EXPIRE "bucket" LLONG_MAX 1 (empty 100000)
  = (ErrorReply InvalidExpireTime,
     mkRedis 100000 {[ "bucket" := mkEntry 1 None ]}).
Proof. by vm_compute. Qed.

(** *** [check_rpc_rate_limit] *)

(** An exception raised by the store during the check of the first limit
    reaches the caller as an [AttributeError]: the [except] clause that was
    to handle it cannot be evaluated.  Nothing is logged and the store is
    not touched. *)
Lemma store_exception_becomes_attribute_error (lim : RateLimitItem)
    (limits : list RateLimitItem) (app_id request_payload error_msg : string)
    (limit_incr_by : Z) (e : Exn) (faults : list (option Exn))
    (stats_fault : option Exn) (st : State) :
  check_rpc_rate_limit (lim :: limits) app_id request_payload error_msg
    limit_incr_by (Some e :: faults) stats_fault st
  = (Raise AttributeError, st).
Proof. reflexivity. Qed.

(** C3, on the code.  With one limit configured and the store raising a
    connection error (or a timeout) on the hit, [check_rpc_rate_limit] does
    not return [True]: the [except] clause meant for these errors fails on
    [aioredis.exceptions], so that no line is logged and an
    [AttributeError] reaches the caller. *)
Theorem store_outage_is_raised :
  check_rpc_rate_limit [Scenario.five_per_second] "app" "eth_call"
    "rate limit exhausted" 1 [Some ConnectionError] None
    (mkState (empty 0) [])
  = (Raise AttributeError, mkState (empty 0) [])
  ∧ check_rpc_rate_limit [Scenario.five_per_second] "app" "eth_call"
      "rate limit exhausted" 1 [Some TimeoutError] None
      (mkState (empty 0) [])
    = (Raise AttributeError, mkState (empty 0) []).
Proof. split; reflexivity. Qed.

(** Five calls within the window pass, the sixth is refused, and once the
    window has elapsed a call passes again. *)
Example five_calls_per_second :
  (Scenario.calls 6 (mkState (empty 0) [])).1
  = [Return true; Return true; Return true; Return true; Return true;
     Raise (RPCException "eth_call" "rate limit exhausted")]
  ∧ (Scenario.calls 1
       (mkState
          (advance 1001 (redis (Scenario.calls 6 (mkState (empty 0) [])).2))
          [])).1
    = [Return true].
Proof. split; reflexivity. Qed.

End RateLimiterProofs.


(** ** More on [chunks] *)

Module ChunksProofs.
Import EpochDetector EpochDetectorProofs.
Local Open Scope Z_scope.

(** The loop on an arithmetic progression none of whose terms is
    [stop_idx + 1]: one tuple per term, numbered from the counter on. *)
Lemma chunks_loop_progression (stop n : Z) (m : nat) : ∀ s r,
  (∀ k : nat, (k < m)%nat → s + Z.of_nat k * n ≠ stop + 1) →
  chunks_loop stop n ((λ k : nat, s + Z.of_nat k * n) <$> seq 0 m) r
  = (λ k : nat,
       (s + Z.of_nat k * n,
        Z.min (s + Z.of_nat k * n + n - 1) stop,
        r + Z.of_nat k + 1)) <$> seq 0 m.
Proof.
  induction m as [|m IH]; intros s r Hne; [done|].
  rewrite progression_unfold. cbn [chunks_loop].
  destruct (Z.eqb_spec s (stop + 1)) as [Heq|_].
  { destruct (Hne 0%nat); [lia|]. cbn. lia. }
  rewrite IH.
  2:{ intros k Hk. specialize (Hne (S k)). rewrite Nat2Z.inj_succ in Hne.
      intros Heq. apply Hne; lia. }
  cbn [seq fmap list_fmap]. f_equal.
  - replace (s + Z.of_nat 0 * n) with s by lia.
    replace (r + Z.of_nat 0 + 1) with (r + 1) by lia.
    destruct (Z.leb_spec (s + n - 1) stop);
      [rewrite Z.min_l by lia|rewrite Z.min_r by lia]; done.
  - rewrite <- fmap_S_seq, <- list_fmap_compose.
    apply list_fmap_ext. intros _ k _. cbn.
    rewrite Nat2Z.inj_succ.
    replace (s + Z.succ (Z.of_nat k) * n) with (s + n + Z.of_nat k * n) by lia.
    replace (r + Z.succ (Z.of_nat k) + 1) with (r + 1 + Z.of_nat k + 1) by lia.
    done.
Qed.

(** The terms of [range(start, stop, step)] stay strictly on the side of
    [start] of the bound [stop]. *)
Lemma range_terms_before_stop (start stop step : Z) (k : nat) :
  step ≠ 0 →
  (k < Z.to_nat (PyRange.range_len start stop step))%nat →
  if 0 <? step then start + Z.of_nat k * step < stop
  else stop < start + Z.of_nat k * step.
Proof.
  intros Hstep Hk. unfold PyRange.range_len in Hk.
  destruct (Z.ltb_spec 0 step) as [Hpos|Hneg].
  - destruct (Z.ltb_spec start stop) as [Hlt|?]; [|cbn in Hk; lia].
    assert (Hq : 0 <= (stop - 1 - start) / step) by (apply Z.div_pos; lia).
    assert (Hlo : step * ((stop - 1 - start) / step) <= stop - 1 - start)
      by (apply Z.mul_div_le; lia).
    nia.
  - destruct (Z.ltb_spec stop start) as [Hlt|?]; [|cbn in Hk; lia].
    assert (Hq : 0 <= (start - 1 - stop) / - step) by (apply Z.div_pos; lia).
    assert (Hlo : - step * ((start - 1 - stop) / - step) <= start - 1 - stop)
      by (apply Z.mul_div_le; lia).
    nia.
Qed.

(** For a step other than zero the early [return] of the loop is never
    taken. *)
Lemma chunks_nonzero_step (start_idx stop_idx n : Z) :
  n ≠ 0 →
  chunks start_idx stop_idx n
  = Some ((λ k : nat,
             (start_idx + Z.of_nat k * n,
              Z.min (start_idx + Z.of_nat k * n + n - 1) stop_idx,
              Z.of_nat k + 1))
          <$> seq 0 (Z.to_nat (PyRange.range_len start_idx (stop_idx + 1) n))).
Proof.
  intros Hn. unfold chunks, PyRange.range.
  destruct (Z.eqb_spec n 0) as [|_]; [done|].
  cbn [mbind option_bind]. f_equal.
  rewrite chunks_loop_progression.
  - apply list_fmap_ext. intros _ k _.
    by replace (0 + Z.of_nat k + 1) with (Z.of_nat k + 1) by lia.
  - intros k Hk.
    pose proof (range_terms_before_stop start_idx (stop_idx + 1) n k Hn Hk)
      as Hb.
    destruct (0 <? n); lia.
Qed.

Lemma chunks_zero_step_raises (start_idx stop_idx : Z) :
  chunks start_idx stop_idx 0 = None.
Proof. reflexivity. Qed.

(** X1.  [chunks] in closed form: a zero [n] raises [ValueError]; for any
    other [n] there is exactly one tuple per index [i] of
    [range(start_idx, stop_idx + 1, n)], in order, with [begin_idx = i],
    [end_idx = min(i + n - 1, stop_idx)] and [run_idx] counting from 1.  The
    early [return] of the loop is never taken. *)
Theorem chunks_closed_form (start_idx stop_idx n : Z) :
  chunks start_idx stop_idx n
  = if n =? 0 then None
    else Some ((λ k : nat,
                  (start_idx + Z.of_nat k * n,
                   Z.min (start_idx + Z.of_nat k * n + n - 1) stop_idx,
                   Z.of_nat k + 1))
               <$> seq 0 (Z.to_nat
                            (PyRange.range_len start_idx (stop_idx + 1) n))).
Proof.
  destruct (Z.eqb_spec n 0) as [->|Hn].
  - unfold chunks, PyRange.range. reflexivity.
  - by apply chunks_nonzero_step.
Qed.

(** X2.  For [start_idx <= stop_idx] and [n >= 1]: there are
    [(stop_idx - start_idx) / n + 1] chunks, the chunk at position [i] has
    [run_idx = i + 1] and begins at [start_idx + i * n], no chunk spans more
    than [n] indices and every chunk but the last spans exactly [n]. *)
Theorem chunks_sizes (start_idx stop_idx n : Z) :
  start_idx <= stop_idx → 1 <= n →
  ∃ cs, chunks start_idx stop_idx n = Some cs
    ∧ Z.of_nat (length cs) = (stop_idx - start_idx) / n + 1
    ∧ ∀ (i : nat) c, cs !! i = Some c →
        c.2 = Z.of_nat i + 1
        ∧ chunk_begin c = start_idx + Z.of_nat i * n
        ∧ chunk_end c - chunk_begin c + 1 <= n
        ∧ ((S i < length cs)%nat → chunk_end c - chunk_begin c + 1 = n).
Proof.
  intros Hle Hn. rewrite chunks_nonzero_step by lia.
  destruct (range_len_ascending start_idx stop_idx n Hle Hn)
    as (m & Hlen & Hlo & Hhi).
  eexists. split; [reflexivity|].
  rewrite length_fmap, length_seq, Hlen.
  assert (Hm : Z.of_nat m = (stop_idx - start_idx) / n).
  { apply Z.div_unique_pos with (stop_idx - start_idx - Z.of_nat m * n);
      lia. }
  split; [lia|].
  intros i c Hc. apply list_lookup_fmap_Some in Hc as (k & -> & Hk).
  apply lookup_seq in Hk as [-> Hi]. cbn [fst snd chunk_begin chunk_end].
  split; [done|]. split; [done|]. split; [lia|].
  intros Hnext. rewrite Z.min_l; [lia|]. nia.
Qed.

Lemma chunks_sizes_witness :
  ∃ cs, chunks 1 10 4 = Some cs ∧ Z.of_nat (length cs) = 3.
Proof.
  destruct (chunks_sizes 1 10 4) as (cs & Hcs & Hlen & _); [lia|lia|].
  exists cs. split; [exact Hcs|exact Hlen].
Defined.

(** X3.  With [n >= 1] and [stop_idx < start_idx] nothing is yielded, and
    no exception is raised. *)
Theorem chunks_empty_range (start_idx stop_idx n : Z) :
  1 <= n → stop_idx < start_idx → chunks start_idx stop_idx n = Some [].
Proof.
  intros Hn Hlt. rewrite chunks_nonzero_step by lia.
  unfold PyRange.range_len.
  destruct (Z.ltb_spec 0 n) as [_|?]; [|lia].
  by destruct (Z.ltb_spec start_idx (stop_idx + 1)) as [?|_]; [lia|].
Qed.

Lemma chunks_empty_range_witness : chunks 11 10 4 = Some [].
Proof. apply chunks_empty_range; lia. Defined.

End ChunksProofs.

(** ** More on the polling loop *)

Module PollingProofs.
Import EpochDetector EpochDetectorProofs.
Local Open Scope Z_scope.

(** [_broadcast_epoch]: what it leaves behind. *)
Lemma broadcast_epoch_state ok e st :
  last_processed_epoch (_broadcast_epoch ok e st) = Some e
  ∧ redis_last_processed_epoch (_broadcast_epoch ok e st)
    = (if ok then Some e else redis_last_processed_epoch st)
  ∧ broadcasts (_broadcast_epoch ok e st) = broadcasts st ++ [e]
  ∧ uuid_calls (_broadcast_epoch ok e st) = uuid_calls st.
Proof.
  unfold _broadcast_epoch, broadcasts. destruct ok; cbn;
    rewrite ?omap_app; cbn; by rewrite ?app_nil_r.
Qed.

Lemma broadcasts_redis_set e st : broadcasts (redis_set e st) = broadcasts st.
Proof.
  unfold redis_set. rewrite broadcasts_emit, app_nil_r. reflexivity.
Qed.

(** The epochs the catch-up loop builds from the chunks: the [i]-th chunk
    gets the [i]-th identifier drawn from the supply. *)
Lemma broadcast_chunks_state cfg uuid4 ok cs st :
  broadcasts (broadcast_chunks cfg uuid4 ok cs st)
  = broadcasts st
    ++ imap (λ i c, mkEpoch (chunk_begin c) (chunk_end c)
                      (uuid4 (uuid_calls st + i)%nat)) cs
  ∧ uuid_calls (broadcast_chunks cfg uuid4 ok cs st)
    = (uuid_calls st + length cs)%nat
  ∧ last_processed_epoch (broadcast_chunks cfg uuid4 ok cs st)
    = from_option Some (last_processed_epoch st)
        (last (imap (λ i c, mkEpoch (chunk_begin c) (chunk_end c)
                              (uuid4 (uuid_calls st + i)%nat)) cs))
  ∧ redis_last_processed_epoch (broadcast_chunks cfg uuid4 ok cs st)
    = (if ok then
         from_option Some (redis_last_processed_epoch st)
           (last (imap (λ i c, mkEpoch (chunk_begin c) (chunk_end c)
                                 (uuid4 (uuid_calls st + i)%nat)) cs))
       else redis_last_processed_epoch st).
Proof.
  revert st. induction cs as [|c cs IH]; intros st.
  - cbn. rewrite app_nil_r, Nat.add_0_r. by destruct ok.
  - cbn [broadcast_chunks fresh_uuid].
    set (e := mkEpoch (chunk_begin c) (chunk_end c) (uuid4 (uuid_calls st))).
    set (st0 := mkState _ _ (S (uuid_calls st)) _).
    set (st1 := emit _ (emit _ (_broadcast_epoch ok e st0))).
    destruct (broadcast_epoch_state ok e st0) as (Hl & Hr & Hb & Hu).
    assert (Hb1 : broadcasts st1 = broadcasts st ++ [e]).
    { subst st1. by rewrite !broadcasts_emit, !app_nil_r, Hb. }
    assert (Hu1 : uuid_calls st1 = S (uuid_calls st)) by (subst st1; cbn; exact Hu).
    assert (Hl1 : last_processed_epoch st1 = Some e) by (subst st1; cbn; exact Hl).
    assert (Hr1 : redis_last_processed_epoch st1
                  = if ok then Some e else redis_last_processed_epoch st)
      by (subst st1; cbn; exact Hr).
    destruct (IH st1) as (IHb & IHu & IHl & IHr).
    rewrite IHb, IHu, IHl, IHr, Hb1, Hu1, Hl1, Hr1.
    rewrite imap_cons, Nat.add_0_r. fold e.
    assert (Hext :
      imap (λ i c0, mkEpoch (chunk_begin c0) (chunk_end c0)
                      (uuid4 (S (uuid_calls st) + i)%nat)) cs
      = imap ((λ i c0, mkEpoch (chunk_begin c0) (chunk_end c0)
                         (uuid4 (uuid_calls st + i)%nat)) ∘ S) cs).
    { apply imap_ext. intros i x _. cbn. do 2 f_equal. lia. }
    rewrite Hext. set (tl := imap _ cs).
    split; [by rewrite <- app_assoc|].
    split; [cbn; lia|].
    split.
    + rewrite last_cons. by destruct (last tl).
    + destruct ok; [|done]. rewrite last_cons. by destruct (last tl).
Qed.

Lemma last_imap {A B} (f : nat → A → B) (l : list A) :
  last (imap f l)
  = match last l with
    | Some x => Some (f (length l - 1)%nat x)
    | None => None
    end.
Proof.
  revert f. induction l as [|x l IH]; intros f; [done|].
  rewrite imap_cons, !last_cons, IH.
  destruct l as [|z l']; [reflexivity|].
  destruct (last (z :: l')) as [y|] eqn:Hy; [|by apply last_None in Hy].
  cbn [length compose]. do 2 f_equal. lia.
Qed.

(** The pass that finds the ends equal, for use in other proofs. *)
Lemma poll_same_end cfg uuid4 p st cp b e :
  checkpoint st = Some cp →
  response p = HttpResponse 200 b e →
  end_ cp = e →
  (poll_once cfg uuid4 p st).1 = Continue
  ∧ broadcasts (poll_once cfg uuid4 p st).2 = broadcasts st
  ∧ redis_last_processed_epoch (poll_once cfg uuid4 p st).2
    = redis_last_processed_epoch st
  ∧ last_processed_epoch (poll_once cfg uuid4 p st).2 = Some cp.
Proof.
  intros Hcp Hresp Hend. unfold poll_once. rewrite Hresp.
  cbn [Z.eqb Pos.eqb negb fresh_uuid].
  set (st1 := emit _ _).
  assert (Hc1 : checkpoint st1 = Some cp) by exact Hcp.
  pose proof (load_checkpoint_last st1) as Hl.
  pose proof (load_checkpoint_frame st1) as (Hr & Ht & _).
  rewrite Hc1 in Hl. rewrite Hl. cbn [end_].
  rewrite Hend, Z.eqb_refl. cbn [fst snd].
  split; [done|].
  split. { unfold broadcasts. cbn [trace emit]. rewrite Ht. subst st1.
           cbn [trace emit]. rewrite <- !app_assoc, !omap_app. cbn.
           by rewrite app_nil_r. }
  split. { cbn. by rewrite Hr. }
  cbn [last_processed_epoch emit]. exact Hl.
Qed.

(** X4.  A pass that cannot fetch the epoch (the request raises, or the
    status is not 200) only logs an error and sleeps for the polling
    interval: no identifier is drawn, nothing is broadcast and neither
    checkpoint changes. *)
Theorem failed_fetch_only_sleeps (cfg : Settings) (uuid4 : nat → string)
    (p : Poll) (st : State) :
  (response p = RequestFailed
   ∨ ∃ code b e, response p = HttpResponse code b e ∧ code ≠ 200) →
  ∃ msg,
    poll_once cfg uuid4 p st
    = (Continue,
       mkState (last_processed_epoch st) (redis_last_processed_epoch st)
         (uuid_calls st)
         (trace st ++ [Log ERROR msg; Sleep (POLLING_INTERVAL cfg)])).
Proof.
  intros [Hr|(code & b & e & Hr & Hcode)]; unfold poll_once; rewrite Hr.
  - eexists. unfold emit.
    cbn [last_processed_epoch redis_last_processed_epoch uuid_calls trace].
    by rewrite <- app_assoc.
  - destruct (Z.eqb_spec code 200) as [?|_]; [done|].
    eexists. unfold emit.
    cbn [negb last_processed_epoch redis_last_processed_epoch uuid_calls trace].
    by rewrite <- app_assoc.
Qed.

Lemma failed_fetch_only_sleeps_witness :
  broadcasts
    (poll_once (mkSettings 5 1000 1) (λ _, "id")
       (mkPoll (HttpResponse 503 0 0) true)
       (mkState None (Some (mkEpoch 1 100 "cp")) 0 [])).2 = [].
Proof.
  destruct (failed_fetch_only_sleeps (mkSettings 5 1000 1) (λ _, "id")
              (mkPoll (HttpResponse 503 0 0) true)
              (mkState None (Some (mkEpoch 1 100 "cp")) 0 []))
    as (msg & Heq).
  { right. exists 503, 0, 0. split; [reflexivity|lia]. }
  rewrite Heq. reflexivity.
Defined.

(** The pass without any checkpoint, for use in other proofs. *)
Lemma poll_first_pass cfg uuid4 p st b e :
  checkpoint st = None →
  response p = HttpResponse 200 b e →
  (poll_once cfg uuid4 p st).1 = Continue
  ∧ broadcasts (poll_once cfg uuid4 p st).2
    = broadcasts st ++ [mkEpoch b e (uuid4 (uuid_calls st))]
  ∧ last_processed_epoch (poll_once cfg uuid4 p st).2
    = Some (mkEpoch b e (uuid4 (uuid_calls st)))
  ∧ redis_last_processed_epoch (poll_once cfg uuid4 p st).2
    = (if redis_set_ok p then Some (mkEpoch b e (uuid4 (uuid_calls st)))
       else None).
Proof.
  intros Hcp Hresp. unfold poll_once. rewrite Hresp.
  cbn [Z.eqb Pos.eqb negb fresh_uuid].
  set (st1 := emit _ _).
  assert (Hc1 : checkpoint st1 = None) by exact Hcp.
  pose proof (load_checkpoint_last st1) as Hl.
  pose proof (load_checkpoint_frame st1) as (Hr & Ht & _).
  rewrite Hc1 in Hl. rewrite Hl. cbn [fst snd].
  set (st2 := emit _ (load_checkpoint st1)).
  destruct (broadcast_epoch_state (redis_set_ok p)
              (mkEpoch b e (uuid4 (uuid_calls st))) st2) as (Hl2 & Hr2 & Hb2 & _).
  split; [done|].
  rewrite !broadcasts_emit, !app_nil_r, Hb2.
  cbn [last_processed_epoch redis_last_processed_epoch emit].
  rewrite Hl2, Hr2.
  assert (Hred : redis_last_processed_epoch st2 = None).
  { subst st2. cbn. rewrite Hr. subst st1. cbn.
    unfold checkpoint in Hcp. by destruct (last_processed_epoch st). }
  rewrite Hred.
  split; [|done]. f_equal. subst st2. rewrite broadcasts_emit, app_nil_r.
  unfold broadcasts. rewrite Ht. subst st1. cbn [trace emit].
  rewrite omap_app. cbn. by rewrite app_nil_r.
Qed.

(** X5.  With no checkpoint in memory nor in the store, a pass broadcasts
    the reported epoch as it is, once, under a fresh identifier; it becomes
    the in-memory checkpoint, and the stored one when the write succeeds
    (the store stays empty when it fails). *)
Theorem first_pass_broadcasts_current (cfg : Settings) (uuid4 : nat → string)
    (p : Poll) (st : State) (b e : Z) :
  checkpoint st = None →
  response p = HttpResponse 200 b e →
  (poll_once cfg uuid4 p st).1 = Continue
  ∧ broadcasts (poll_once cfg uuid4 p st).2
    = broadcasts st ++ [mkEpoch b e (uuid4 (uuid_calls st))]
  ∧ last_processed_epoch (poll_once cfg uuid4 p st).2
    = Some (mkEpoch b e (uuid4 (uuid_calls st)))
  ∧ redis_last_processed_epoch (poll_once cfg uuid4 p st).2
    = (if redis_set_ok p then Some (mkEpoch b e (uuid4 (uuid_calls st)))
       else None)
  ∧ checkpoint (poll_once cfg uuid4 p st).2
    = Some (mkEpoch b e (uuid4 (uuid_calls st))).
Proof.
  intros Hcp Hresp.
  destruct (poll_first_pass cfg uuid4 p st b e Hcp Hresp)
    as (Hc & Hb & Hl & Hr).
  repeat (split; [assumption|]).
  unfold checkpoint. by rewrite Hl.
Qed.

Lemma first_pass_broadcasts_current_witness :
  broadcasts
    (poll_once (mkSettings 5 1000 1) (λ _, "id")
       (mkPoll (HttpResponse 200 101 200) false) (init None)).2
  = [mkEpoch 101 200 "id"].
Proof.
  exact (proj1 (proj2
    (first_pass_broadcasts_current (mkSettings 5 1000 1) (λ _, "id")
       (mkPoll (HttpResponse 200 101 200) false) (init None) 101 200
       eq_refl eq_refl))).
Defined.

(** The state in which a pass with a 200 answer takes its decisions: an
    identifier has been drawn and the checkpoint has been loaded. *)
Lemma poll_prelude uuid4 st :
  let st2 :=
    load_checkpoint (emit (Log INFO "Current epoch") (fresh_uuid uuid4 st).2) in
  last_processed_epoch st2 = checkpoint st
  ∧ redis_last_processed_epoch st2 = redis_last_processed_epoch st
  ∧ uuid_calls st2 = S (uuid_calls st)
  ∧ broadcasts st2 = broadcasts st.
Proof.
  intros st2. subst st2. set (st1 := emit _ _).
  pose proof (load_checkpoint_last st1) as Hl.
  pose proof (load_checkpoint_frame st1) as (Hr & Ht & Hu).
  split; [by rewrite Hl|]. split; [by rewrite Hr|]. split; [by rewrite Hu|].
  unfold broadcasts. rewrite Ht. subst st1. cbn [trace emit fresh_uuid snd].
  rewrite omap_app. cbn. by rewrite app_nil_r.
Qed.

(** The catch-up pass, for use in other proofs: the chunks become epochs
    with the identifiers that follow the one drawn for the reported epoch. *)
Lemma poll_catch_up cfg uuid4 p st cp b e cs :
  checkpoint st = Some cp →
  response p = HttpResponse 200 b e →
  end_ cp < e →
  e - end_ cp <= FALL_BEHIND_RESET_NUM_BLOCKS cfg →
  chunks (end_ cp) e (e - b + 1) = Some cs →
  (poll_once cfg uuid4 p st).1 = Continue
  ∧ broadcasts (poll_once cfg uuid4 p st).2
    = broadcasts st
      ++ imap (λ i c, mkEpoch (chunk_begin c) (chunk_end c)
                        (uuid4 (S (uuid_calls st) + i)%nat)) cs
  ∧ uuid_calls (poll_once cfg uuid4 p st).2
    = (S (uuid_calls st) + length cs)%nat
  ∧ last_processed_epoch (poll_once cfg uuid4 p st).2
    = from_option Some (Some cp)
        (last (imap (λ i c, mkEpoch (chunk_begin c) (chunk_end c)
                              (uuid4 (S (uuid_calls st) + i)%nat)) cs))
  ∧ redis_last_processed_epoch (poll_once cfg uuid4 p st).2
    = (if redis_set_ok p then
         from_option Some (redis_last_processed_epoch st)
           (last (imap (λ i c, mkEpoch (chunk_begin c) (chunk_end c)
                                 (uuid4 (S (uuid_calls st) + i)%nat)) cs))
       else redis_last_processed_epoch st).
Proof.
  intros Hcp Hresp Hlt Hgap Hcs.
  destruct (poll_prelude uuid4 st) as (Hl & Hr & Hu & Hb).
  unfold poll_once. rewrite Hresp. cbn [Z.eqb Pos.eqb negb].
  destruct (fresh_uuid uuid4 st) as [id st0] eqn:Hfresh.
  cbn [snd] in Hl, Hr, Hu, Hb.
  set (st2 := load_checkpoint _) in *.
  rewrite Hl, Hcp. cbn [end_ begin].
  destruct (Z.eqb_spec (end_ cp) e) as [?|_]; [lia|].
  destruct (Z.gtb_spec (e - end_ cp) (FALL_BEHIND_RESET_NUM_BLOCKS cfg))
    as [?|_]; [lia|].
  destruct (Z.gtb_spec (end_ cp) e) as [?|_]; [lia|].
  rewrite Hcs. cbn [fst snd].
  destruct (broadcast_chunks_state cfg uuid4 (redis_set_ok p) cs st2)
    as (Hb' & Hu' & Hl' & Hr').
  rewrite Hb', Hu', Hl', Hr', Hb, Hu, Hl, Hr, Hcp. done.
Qed.

(** X6.  A pass that went through with a 200 answer for an epoch
    [b..e], [b <= e], leaves a checkpoint that ends at [e]; the next pass,
    if the tracker still reports an epoch ending at [e], broadcasts nothing
    and writes nothing. *)
Theorem second_pass_is_idle (cfg : Settings) (uuid4 : nat → string)
    (p p' : Poll) (st : State) (b b' e : Z) :
  response p = HttpResponse 200 b e →
  b <= e →
  (poll_once cfg uuid4 p st).1 = Continue →
  response p' = HttpResponse 200 b' e →
  (∃ cp, last_processed_epoch (poll_once cfg uuid4 p st).2 = Some cp
         ∧ end_ cp = e)
  ∧ (poll_once cfg uuid4 p' (poll_once cfg uuid4 p st).2).1 = Continue
  ∧ broadcasts (poll_once cfg uuid4 p' (poll_once cfg uuid4 p st).2).2
    = broadcasts (poll_once cfg uuid4 p st).2
  ∧ redis_last_processed_epoch
      (poll_once cfg uuid4 p' (poll_once cfg uuid4 p st).2).2
    = redis_last_processed_epoch (poll_once cfg uuid4 p st).2.
Proof.
  intros Hresp Hbe Hcont Hresp'.
  assert (Hend : ∃ cp, last_processed_epoch (poll_once cfg uuid4 p st).2
                       = Some cp ∧ end_ cp = e).
  { destruct (checkpoint st) as [cp|] eqn:Hcp.
    - destruct (Z.eq_dec (end_ cp) e) as [Heq|Hne].
      { exists cp. split; [|done].
        by apply (poll_same_end cfg uuid4 p st cp b e). }
      destruct (Z.lt_ge_cases e (end_ cp)) as [Hreg|Hge].
      { destruct (regression_raises cfg uuid4 p st cp b e Hcp Hresp Hreg)
          as (st' & Hp & _). rewrite Hp in Hcont. discriminate. }
      destruct (Z.le_gt_cases (e - end_ cp) (FALL_BEHIND_RESET_NUM_BLOCKS cfg))
        as [Hgap|Hgap].
      2:{ destruct (fall_behind_raises cfg uuid4 p st cp b e Hcp Hresp Hne)
            as [Hp _]; [lia|]. rewrite Hp in Hcont. discriminate. }
      destruct (chunks_ascending_partitions (end_ cp) e (e - b + 1))
        as (cs & Hcs & Hpart); [lia|lia|].
      destruct (poll_catch_up cfg uuid4 p st cp b e cs Hcp Hresp)
        as (_ & _ & _ & Hl & _); [lia|lia|done|].
      destruct (partitions_last_end _ _ _ Hpart) as (c & Hlast & Hc).
      rewrite Hl, last_imap, Hlast. cbn [from_option].
      eexists. split; [reflexivity|exact Hc].
    - eexists. split;
        [apply (poll_first_pass cfg uuid4 p st b e Hcp Hresp)|done]. }
  split; [exact Hend|]. destruct Hend as (cp & Hl & Hcp).
  assert (Hck : checkpoint (poll_once cfg uuid4 p st).2 = Some cp)
    by (unfold checkpoint; by rewrite Hl).
  destruct (poll_same_end cfg uuid4 p' _ cp b' e Hck Hresp' Hcp)
    as (H1 & H2 & H3 & _).
  done.
Qed.

Lemma second_pass_is_idle_witness :
  broadcasts
    (poll_once (mkSettings 5 1000 1) (λ _, "id")
       (mkPoll (HttpResponse 200 101 200) true)
       (poll_once (mkSettings 5 1000 1) (λ _, "id")
          (mkPoll (HttpResponse 200 101 200) true)
          (init (Some (mkEpoch 1 100 "cp")))).2).2
  = broadcasts
      (poll_once (mkSettings 5 1000 1) (λ _, "id")
         (mkPoll (HttpResponse 200 101 200) true)
         (init (Some (mkEpoch 1 100 "cp")))).2.
Proof.
  exact (proj1 (proj2 (proj2
    (second_pass_is_idle (mkSettings 5 1000 1) (λ _, "id")
       (mkPoll (HttpResponse 200 101 200) true)
       (mkPoll (HttpResponse 200 101 200) true)
       (init (Some (mkEpoch 1 100 "cp"))) 101 101 200
       eq_refl ltac:(lia) eq_refl eq_refl)))).
Defined.

(** X7.  The catch-up pass in full: with a checkpoint ending before the
    reported end [e], a gap within the threshold and [b <= e], the pass
    broadcasts one epoch per chunk of [chunks(checkpoint.end, e, e - b + 1)]:
    consecutive ranges from the end of the checkpoint (that block included)
    to [e], under the identifiers drawn after the one of the reported epoch.
    The in-memory checkpoint becomes the last of them, which ends at [e];
    the stored one follows when the writes succeed and is left as it was
    when they fail. *)
Theorem catch_up_broadcasts (cfg : Settings) (uuid4 : nat → string)
    (p : Poll) (st : State) (cp : Epoch) (b e : Z) :
  checkpoint st = Some cp →
  response p = HttpResponse 200 b e →
  end_ cp < e →
  e - end_ cp <= FALL_BEHIND_RESET_NUM_BLOCKS cfg →
  b <= e →
  ∃ cs new,
    chunks (end_ cp) e (e - b + 1) = Some cs
    ∧ partitions (end_ cp) e cs
    ∧ new = imap (λ i c, mkEpoch (chunk_begin c) (chunk_end c)
                           (uuid4 (S (uuid_calls st) + i)%nat)) cs
    ∧ (poll_once cfg uuid4 p st).1 = Continue
    ∧ broadcasts (poll_once cfg uuid4 p st).2 = broadcasts st ++ new
    ∧ (∃ last_epoch,
         last new = Some last_epoch ∧ end_ last_epoch = e
         ∧ last_processed_epoch (poll_once cfg uuid4 p st).2 = Some last_epoch
         ∧ redis_last_processed_epoch (poll_once cfg uuid4 p st).2
           = if redis_set_ok p then Some last_epoch
             else redis_last_processed_epoch st).
Proof.
  intros Hcp Hresp Hlt Hgap Hbe.
  destruct (chunks_ascending_partitions (end_ cp) e (e - b + 1))
    as (cs & Hcs & Hpart); [lia|lia|].
  destruct (poll_catch_up cfg uuid4 p st cp b e cs Hcp Hresp Hlt Hgap Hcs)
    as (Hc & Hb & _ & Hl & Hr).
  destruct (partitions_last_end _ _ _ Hpart) as (c & Hlast & Hc').
  eexists cs, _. split; [done|]. split; [done|]. split; [reflexivity|].
  split; [done|]. split; [done|].
  rewrite Hl, Hr, last_imap, Hlast. cbn [from_option].
  eexists. split; [reflexivity|]. split; [exact Hc'|]. done.
Qed.

Lemma catch_up_broadcasts_witness :
  ∃ cs new,
    chunks 100 250 100 = Some cs
    ∧ partitions 100 250 cs
    ∧ new = imap (λ i c, mkEpoch (chunk_begin c) (chunk_end c) "id") cs
    ∧ broadcasts
        (poll_once (mkSettings 5 1000 1) (λ _, "id")
           (mkPoll (HttpResponse 200 151 250) false)
           (init (Some (mkEpoch 1 100 "cp")))).2 = new.
Proof.
  destruct (catch_up_broadcasts (mkSettings 5 1000 1) (λ _, "id")
              (mkPoll (HttpResponse 200 151 250) false)
              (init (Some (mkEpoch 1 100 "cp"))) (mkEpoch 1 100 "cp") 151 250)
    as (cs & new & Hcs & Hp & Hnew & _ & Hb & _);
    [reflexivity|reflexivity|cbn; lia|cbn; lia|lia|].
  exists cs, new. split; [exact Hcs|]. split; [exact Hp|].
  split; [exact Hnew|exact Hb].
Defined.

(** X8.  When the tracker reports an epoch of height zero
    ([begin = end + 1]) ahead of the checkpoint and within the threshold,
    [chunks] is called with a zero step: its [ValueError] ends the loop, the
    decorated [run] leaves with [sys.exit(0)], nothing is broadcast and the
    store is not written (this exit does not save the checkpoint). *)
Theorem zero_height_epoch_exits (cfg : Settings) (uuid4 : nat → string)
    (p : Poll) (polls : list Poll) (shutdown_redis_ok : bool)
    (st : State) (cp : Epoch) (e : Z) :
  checkpoint st = Some cp →
  response p = HttpResponse 200 (e + 1) e →
  end_ cp < e →
  e - end_ cp <= FALL_BEHIND_RESET_NUM_BLOCKS cfg →
  (poll_once cfg uuid4 p st).1 = Raise ValueError
  ∧ (run cfg uuid4 (p :: polls) shutdown_redis_ok st).1 = Exited 0
  ∧ broadcasts (run cfg uuid4 (p :: polls) shutdown_redis_ok st).2
    = broadcasts st
  ∧ redis_last_processed_epoch
      (run cfg uuid4 (p :: polls) shutdown_redis_ok st).2
    = redis_last_processed_epoch st.
Proof.
  intros Hcp Hresp Hlt Hgap.
  destruct (poll_prelude uuid4 st) as (Hl & Hr & Hu & Hb).
  assert (Hpoll : ∃ st2, poll_once cfg uuid4 p st = (Raise ValueError, st2)
            ∧ broadcasts st2 = broadcasts st
            ∧ redis_last_processed_epoch st2 = redis_last_processed_epoch st).
  { unfold poll_once. rewrite Hresp. cbn [Z.eqb Pos.eqb negb].
    destruct (fresh_uuid uuid4 st) as [id st0] eqn:Hfresh.
    cbn [snd] in Hl, Hr, Hu, Hb. set (st2 := load_checkpoint _) in *.
    rewrite Hl, Hcp. cbn [end_ begin].
    destruct (Z.eqb_spec (end_ cp) e) as [?|_]; [lia|].
    destruct (Z.gtb_spec (e - end_ cp) (FALL_BEHIND_RESET_NUM_BLOCKS cfg))
      as [?|_]; [lia|].
    destruct (Z.gtb_spec (end_ cp) e) as [?|_]; [lia|].
    replace (e - (e + 1) + 1) with 0 by lia.
    rewrite ChunksProofs.chunks_zero_step_raises. eauto. }
  destruct Hpoll as (st2 & Hpoll & Hb2 & Hr2).
  unfold run. cbn [poll_loop]. rewrite Hpoll. cbn [fst snd].
  split; [done|]. split; [done|].
  unfold rabbitmq_and_redis_cleanup. cbn [fst snd].
  rewrite !broadcasts_emit, !app_nil_r.
  cbn [redis_last_processed_epoch emit]. done.
Qed.

Lemma zero_height_epoch_exits_witness :
  (run (mkSettings 5 1000 1) (λ _, "id")
     [mkPoll (HttpResponse 200 201 200) true] true
     (init (Some (mkEpoch 1 100 "cp")))).1 = Exited 0.
Proof.
  exact (proj1 (proj2
    (zero_height_epoch_exits (mkSettings 5 1000 1) (λ _, "id")
       (mkPoll (HttpResponse 200 201 200) true) [] true
       (init (Some (mkEpoch 1 100 "cp"))) (mkEpoch 1 100 "cp") 200
       eq_refl eq_refl ltac:(cbn; lia) ltac:(cbn; lia)))).
Defined.

(** X9.  When the tracker reports [begin > end + 1] ahead of the
    checkpoint and within the threshold, the step handed to [chunks] is
    negative and nothing is yielded: the pass goes through without any
    broadcast and both checkpoints stay where they were. *)
Theorem negative_height_epoch_is_skipped (cfg : Settings)
    (uuid4 : nat → string) (p : Poll) (st : State) (cp : Epoch) (b e : Z) :
  checkpoint st = Some cp →
  response p = HttpResponse 200 b e →
  end_ cp < e →
  e - end_ cp <= FALL_BEHIND_RESET_NUM_BLOCKS cfg →
  e + 1 < b →
  (poll_once cfg uuid4 p st).1 = Continue
  ∧ broadcasts (poll_once cfg uuid4 p st).2 = broadcasts st
  ∧ last_processed_epoch (poll_once cfg uuid4 p st).2 = Some cp
  ∧ redis_last_processed_epoch (poll_once cfg uuid4 p st).2
    = redis_last_processed_epoch st.
Proof.
  intros Hcp Hresp Hlt Hgap Hneg.
  assert (Hcs : chunks (end_ cp) e (e - b + 1) = Some []).
  { rewrite ChunksProofs.chunks_nonzero_step by lia.
    unfold PyRange.range_len.
    destruct (Z.ltb_spec 0 (e - b + 1)) as [?|_]; [lia|].
    by destruct (Z.ltb_spec (e + 1) (end_ cp)) as [?|_]; [lia|]. }
  destruct (poll_catch_up cfg uuid4 p st cp b e [] Hcp Hresp Hlt Hgap Hcs)
    as (Hc & Hb & _ & Hl & Hr).
  rewrite Hb, Hl, Hr, app_nil_r. cbn. by destruct (redis_set_ok p).
Qed.

Lemma negative_height_epoch_is_skipped_witness :
  broadcasts
    (poll_once (mkSettings 5 1000 1) (λ _, "id")
       (mkPoll (HttpResponse 200 300 200) true)
       (init (Some (mkEpoch 1 100 "cp")))).2 = [].
Proof.
  exact (proj1 (proj2
    (negative_height_epoch_is_skipped (mkSettings 5 1000 1) (λ _, "id")
       (mkPoll (HttpResponse 200 300 200) true)
       (init (Some (mkEpoch 1 100 "cp"))) (mkEpoch 1 100 "cp") 300 200
       eq_refl eq_refl ltac:(cbn; lia) ltac:(cbn; lia) ltac:(lia)))).
Defined.



(** *** Invariants of the loop *)

Lemma imap_broadcast_ids (uuid4 : nat → string) (k0 : nat) (cs : list chunk) :
  broadcast_id
    <$> imap (λ i c, mkEpoch (chunk_begin c) (chunk_end c) (uuid4 (k0 + i)%nat))
          cs
  = uuid4 <$> seq k0 (length cs).
Proof.
  revert k0. induction cs as [|c cs IH]; intros k0; [done|].
  rewrite imap_cons. cbn [fmap list_fmap length seq broadcast_id].
  rewrite Nat.add_0_r. f_equal. rewrite <- IH. f_equal.
  apply imap_ext. intros i x _. cbn. do 2 f_equal. lia.
Qed.

Ltac poll_frame :=
  cbn [fst snd];
  repeat (rewrite ?broadcasts_emit, ?broadcasts_redis_set, ?app_nil_r);
  cbn [last_processed_epoch redis_last_processed_epoch uuid_calls emit
       redis_set].

Ltac poll_close := repeat split; auto; lia.

(** What one pass adds, whatever it observes: the new broadcasts carry the
    identifiers of consecutive draws; when there are some, the last one is
    the in-memory checkpoint and the store holds it or was not written;
    when there are none, the store is untouched and the in-memory
    checkpoint is the one the pass started from. *)
Lemma poll_once_effect cfg uuid4 p st :
  ∃ new (k0 : nat),
    broadcasts (poll_once cfg uuid4 p st).2 = broadcasts st ++ new
    ∧ broadcast_id <$> new = uuid4 <$> seq k0 (length new)
    ∧ (uuid_calls st <= k0)%nat
    ∧ (k0 + length new <= uuid_calls (poll_once cfg uuid4 p st).2)%nat
    ∧ match last new with
      | Some e =>
          last_processed_epoch (poll_once cfg uuid4 p st).2 = Some e
          ∧ (redis_last_processed_epoch (poll_once cfg uuid4 p st).2 = Some e
             ∨ redis_last_processed_epoch (poll_once cfg uuid4 p st).2
               = redis_last_processed_epoch st)
      | None =>
          (last_processed_epoch (poll_once cfg uuid4 p st).2
           = last_processed_epoch st
           ∨ last_processed_epoch (poll_once cfg uuid4 p st).2
             = checkpoint st)
          ∧ redis_last_processed_epoch (poll_once cfg uuid4 p st).2
            = redis_last_processed_epoch st
      end.
Proof.
  destruct (poll_prelude uuid4 st) as (Hl & Hr & Hu & Hb).
  unfold poll_once.
  destruct (response p) as [|code b e] eqn:Hresp.
  { exists [], (uuid_calls st). poll_frame. cbn. poll_close. }
  destruct (negb (code =? 200)).
  { exists [], (uuid_calls st). poll_frame. cbn. poll_close. }
  destruct (fresh_uuid uuid4 st) as [id st0] eqn:Hfresh.
  assert (Hid : id = uuid4 (uuid_calls st)) by (by injection Hfresh as <- _).
  cbn [snd] in Hl, Hr, Hu, Hb. set (st2 := load_checkpoint _) in *.
  rewrite Hl. destruct (checkpoint st) as [cp|] eqn:Hcp.
  - cbn [end_ begin].
    destruct (end_ cp =? e).
    { exists [], (uuid_calls st). poll_frame. rewrite Hb, Hl, Hr, Hu.
      cbn. poll_close. }
    destruct (e - end_ cp >? FALL_BEHIND_RESET_NUM_BLOCKS cfg).
    { exists [], (uuid_calls st). poll_frame. rewrite Hb, Hl, Hr, Hu.
      cbn. poll_close. }
    destruct (end_ cp >? e).
    { exists [], (uuid_calls st). poll_frame. rewrite Hb, Hl, Hr, Hu.
      cbn. poll_close. }
    destruct (chunks (end_ cp) e (e - b + 1)) as [cs|].
    2:{ exists [], (uuid_calls st). poll_frame. rewrite Hb, Hl, Hr, Hu.
        cbn. poll_close. }
    destruct (broadcast_chunks_state cfg uuid4 (redis_set_ok p) cs st2)
      as (Hb' & Hu' & Hl' & Hr').
    eexists _, (S (uuid_calls st)). cbn [fst snd].
    rewrite Hb', Hu', Hl', Hr', Hb, Hu, Hl, Hr.
    split; [reflexivity|].
    split; [by rewrite imap_broadcast_ids, length_imap|].
    split; [lia|]. split; [rewrite length_imap; lia|].
    match goal with |- context [last ?l] => destruct (last l) as [le|] end;
      cbn [from_option].
    + split; [done|]. destruct (redis_set_ok p); auto.
    + split; [by right|]. by destruct (redis_set_ok p).
  - exists [mkEpoch b e id], (uuid_calls st).
    set (st3 := emit _ st2).
    destruct (broadcast_epoch_state (redis_set_ok p) (mkEpoch b e id) st3)
      as (Hl3 & Hr3 & Hb3 & Hu3).
    poll_frame. rewrite Hb3, Hl3, Hr3, Hu3. subst st3. poll_frame.
    rewrite Hb, Hr, Hu. cbn [length seq fmap list_fmap broadcast_id last].
    split; [done|]. split; [by rewrite Hid|]. split; [lia|]. split; [lia|].
    split; [done|]. destruct (redis_set_ok p); auto.
Qed.

(** One pass keeps: the in-memory checkpoint is the last epoch broadcast,
    if any; the stored checkpoint is the initial one or an epoch that was
    broadcast. *)
Lemma poll_once_keeps_checkpoints cfg uuid4 p stored st :
  let inv := λ st : State,
    (∀ e, last (broadcasts st) = Some e → last_processed_epoch st = Some e)
    ∧ (broadcasts st = [] →
       redis_last_processed_epoch st = stored
       ∧ (last_processed_epoch st = None ∨ last_processed_epoch st = stored))
    ∧ (redis_last_processed_epoch st = stored
       ∨ ∃ e, e ∈ broadcasts st ∧ redis_last_processed_epoch st = Some e) in
  inv st → inv (poll_once cfg uuid4 p st).2.
Proof.
  intros inv (H1 & H2 & H3).
  destruct (poll_once_effect cfg uuid4 p st)
    as (new & k0 & Hb & _ & _ & _ & Hlast).
  unfold inv. rewrite Hb, last_app.
  destruct (last new) as [le|] eqn:Hnew.
  - destruct Hlast as [Hl Hr]. split; [by intros e [= <-]|].
    split.
    { intros Hnil. apply app_eq_nil in Hnil as [_ ->]. discriminate. }
    destruct Hr as [Hr|Hr].
    + right. exists le. split; [|done].
      apply elem_of_app. right. by apply last_Some_elem_of.
    + rewrite Hr. destruct H3 as [?|(e & He & ?)]; [by left|].
      right. exists e. split; [|done]. apply elem_of_app. by left.
  - apply last_None in Hnew as ->. rewrite app_nil_r.
    destruct Hlast as [Hl Hr]. rewrite Hr.
    split.
    { intros e He. specialize (H1 e He).
      destruct Hl as [->| ->]; [done|]. unfold checkpoint. by rewrite H1. }
    split; [|done].
    intros Hnil. destruct (H2 Hnil) as [Hred Hmem]. split; [done|].
    destruct Hl as [->| ->]; [done|]. unfold checkpoint.
    destruct (last_processed_epoch st) as [m|] eqn:Hm.
    + destruct Hmem as [?|<-]; [done|]. by right.
    + right. done.
Qed.

(** X11.  At every point of a run started on a store holding [stored]:
    if anything was broadcast, the in-memory checkpoint is the last epoch
    broadcast; if nothing was, the store is as it was found and the memory
    holds nothing or what was found in the store; and the stored checkpoint
    is always either the one found at the start or an epoch that was
    broadcast. *)
Theorem loop_checkpoint_follows_broadcasts (cfg : Settings)
    (uuid4 : nat → string) (polls : list Poll) (stored : option Epoch) :
  (∀ e, last (broadcasts (poll_loop cfg uuid4 polls (init stored)).2) = Some e →
        last_processed_epoch (poll_loop cfg uuid4 polls (init stored)).2
        = Some e)
  ∧ (broadcasts (poll_loop cfg uuid4 polls (init stored)).2 = [] →
     redis_last_processed_epoch (poll_loop cfg uuid4 polls (init stored)).2
     = stored
     ∧ (last_processed_epoch (poll_loop cfg uuid4 polls (init stored)).2 = None
        ∨ last_processed_epoch (poll_loop cfg uuid4 polls (init stored)).2
          = stored))
  ∧ (redis_last_processed_epoch (poll_loop cfg uuid4 polls (init stored)).2
     = stored
     ∨ ∃ e, e ∈ broadcasts (poll_loop cfg uuid4 polls (init stored)).2
            ∧ redis_last_processed_epoch
                (poll_loop cfg uuid4 polls (init stored)).2 = Some e).
Proof.
  assert (Hinit :
    (∀ e, last (broadcasts (init stored)) = Some e →
          last_processed_epoch (init stored) = Some e)
    ∧ (broadcasts (init stored) = [] →
       redis_last_processed_epoch (init stored) = stored
       ∧ (last_processed_epoch (init stored) = None
          ∨ last_processed_epoch (init stored) = stored))
    ∧ (redis_last_processed_epoch (init stored) = stored
       ∨ ∃ e, e ∈ broadcasts (init stored)
              ∧ redis_last_processed_epoch (init stored) = Some e)).
  { split; [done|]. split; [|by left]. intros _. split; [done|by left]. }
  revert Hinit. generalize (init stored) as st.
  induction polls as [|p polls IH]; intros st Hinv; [exact Hinv|].
  cbn [poll_loop].
  pose proof (poll_once_keeps_checkpoints cfg uuid4 p stored st Hinv) as Hnext.
  destruct (poll_once cfg uuid4 p st) as [[|exn] st'] eqn:Hp.
  - apply IH. exact Hnext.
  - exact Hnext.
Qed.

Lemma loop_checkpoint_follows_broadcasts_witness :
  last_processed_epoch
    (poll_loop (mkSettings 5 1000 1) (λ _, "id")
       [mkPoll (HttpResponse 200 101 200) true;
        mkPoll RequestFailed true;
        mkPoll (HttpResponse 200 201 300) false] (init None)).2
  = Some (mkEpoch 300 300 "id").
Proof.
  apply (proj1
    (loop_checkpoint_follows_broadcasts (mkSettings 5 1000 1) (λ _, "id")
       [mkPoll (HttpResponse 200 101 200) true;
        mkPoll RequestFailed true;
        mkPoll (HttpResponse 200 201 300) false] None)).
  reflexivity.
Defined.

(** One pass keeps: the identifiers of the epochs broadcast are those of
    strictly increasing draws, all made already. *)
Lemma poll_once_keeps_fresh_ids cfg uuid4 p st (ks : list nat) :
  broadcast_id <$> broadcasts st = uuid4 <$> ks →
  (∀ (i j ki kj : nat), ks !! i = Some ki → ks !! j = Some kj →
     (i < j)%nat → (ki < kj)%nat) →
  (∀ k, k ∈ ks → (k < uuid_calls st)%nat) →
  ∃ ks',
    broadcast_id <$> broadcasts (poll_once cfg uuid4 p st).2 = uuid4 <$> ks'
    ∧ (∀ (i j ki kj : nat), ks' !! i = Some ki → ks' !! j = Some kj →
         (i < j)%nat → (ki < kj)%nat)
    ∧ (∀ k, k ∈ ks' → (k < uuid_calls (poll_once cfg uuid4 p st).2)%nat).
Proof.
  intros Hids Hinc Hbound.
  destruct (poll_once_effect cfg uuid4 p st)
    as (new & k0 & Hb & Hnew & Hk0 & Hk1 & _).
  exists (ks ++ seq k0 (length new)).
  split; [by rewrite Hb, !fmap_app, Hids, Hnew|].
  split.
  - intros i j ki kj Hi Hj Hij.
    apply lookup_app_Some in Hi as [Hi|[Hli Hi]];
      apply lookup_app_Some in Hj as [Hj|[Hlj Hj]].
    + by apply (Hinc i j).
    + apply lookup_seq in Hj as [-> _].
      assert (ki ∈ ks) as Hin by (apply list_elem_of_lookup; eauto).
      specialize (Hbound ki Hin). lia.
    + apply lookup_lt_Some in Hj. lia.
    + apply lookup_seq in Hi as [-> _]. apply lookup_seq in Hj as [-> _]. lia.
  - intros k [Hk|Hk]%elem_of_app.
    + specialize (Hbound k Hk). lia.
    + apply elem_of_seq in Hk. lia.
Qed.

(** X12.  In a run from a fresh process, the identifiers of the epochs
    broadcast are, in order, those of strictly increasing draws from
    [uuid4]: no draw serves two broadcasts. *)
Theorem broadcast_ids_are_fresh (cfg : Settings) (uuid4 : nat → string)
    (polls : list Poll) (stored : option Epoch) :
  ∃ ks : list nat,
    broadcast_id <$> broadcasts (poll_loop cfg uuid4 polls (init stored)).2
    = uuid4 <$> ks
    ∧ (∀ (i j ki kj : nat), ks !! i = Some ki → ks !! j = Some kj →
         (i < j)%nat → (ki < kj)%nat)
    ∧ length ks
      = length (broadcasts (poll_loop cfg uuid4 polls (init stored)).2).
Proof.
  assert (Hgen : ∀ st (ks : list nat),
    broadcast_id <$> broadcasts st = uuid4 <$> ks →
    (∀ (i j ki kj : nat), ks !! i = Some ki → ks !! j = Some kj →
       (i < j)%nat → (ki < kj)%nat) →
    (∀ k, k ∈ ks → (k < uuid_calls st)%nat) →
    ∃ ks',
      broadcast_id <$> broadcasts (poll_loop cfg uuid4 polls st).2
      = uuid4 <$> ks'
      ∧ (∀ (i j ki kj : nat), ks' !! i = Some ki → ks' !! j = Some kj →
           (i < j)%nat → (ki < kj)%nat)).
  { induction polls as [|p polls IH]; intros st ks Hids Hinc Hbound.
    - exists ks. by split.
    - cbn [poll_loop].
      destruct (poll_once_keeps_fresh_ids cfg uuid4 p st ks Hids Hinc Hbound)
        as (ks' & Hids' & Hinc' & Hbound').
      destruct (poll_once cfg uuid4 p st) as [[|exn] st'] eqn:Hp.
      + by apply (IH st' ks').
      + exists ks'. by split. }
  destruct (Hgen (init stored) []) as (ks & Hids & Hinc).
  - done.
  - intros i j ki kj Hi. by rewrite lookup_nil in Hi.
  - intros k Hk. by apply elem_of_nil in Hk.
  - exists ks. split; [done|]. split; [done|].
    apply (f_equal length) in Hids. by rewrite !length_fmap in Hids.
Qed.

End PollingProofs.

(** ** More on the sorted sets and the join *)

Module ZSetMoreProofs.
Import RedisZSet RedisZSetProofs.
Local Open Scope Z_scope.

Section zset.
Context {A : Type} (ser : A → string).

Lemma filter_insert_sorted_out (P : A * Z → Prop) `{∀ y, Decision (P y)}
    (x : A * Z) (z : list (A * Z)) :
  ¬ P x → filter P (insert_sorted ser x z) = filter P z.
Proof.
  intros Hx. induction z as [|h z IH]; cbn [insert_sorted].
  - by rewrite filter_cons_False.
  - destruct (entry_leb ser x h).
    + by rewrite filter_cons_False.
    + rewrite !filter_cons. case_decide; by rewrite IH.
Qed.

Lemma filter_insert_sorted_only (P : A * Z → Prop) `{∀ y, Decision (P y)}
    (x : A * Z) (z : list (A * Z)) :
  P x → filter P z = [] → filter P (insert_sorted ser x z) = [x].
Proof.
  intros Hx. induction z as [|h z IH]; cbn [insert_sorted]; intros Hnil.
  - by rewrite filter_cons_True.
  - rewrite filter_cons in Hnil. case_decide as Hh; [done|].
    destruct (entry_leb ser x h).
    + rewrite filter_cons_True by done. rewrite filter_cons_False by done.
      by rewrite Hnil.
    + rewrite filter_cons_False by done. by apply IH.
Qed.

Lemma filter_filter_nil (P Q : A * Z → Prop) `{∀ y, Decision (P y)}
    `{∀ y, Decision (Q y)} (z : list (A * Z)) :
  filter P z = [] → filter P (filter Q z) = [].
Proof.
  induction z as [|h z IH]; [done|].
  rewrite filter_cons. case_decide as Hh; [done|]. intros Hnil.
  rewrite filter_cons. case_decide; [|by apply IH].
  rewrite filter_cons_False by done. by apply IH.
Qed.

Lemma filter_idemp (P : A * Z → Prop) `{∀ y, Decision (P y)}
    (z : list (A * Z)) :
  filter P (filter P z) = filter P z.
Proof.
  induction z as [|h z IH]; [done|].
  rewrite filter_cons. case_decide; [|done].
  rewrite filter_cons_True by done. by rewrite IH.
Qed.

(** [ZADD] of a member that is already there with that score changes
    nothing. *)
Lemma zadd_zadd (member : A) (score : Z) (z : list (A * Z)) :
  zadd ser member score (zadd ser member score z) = zadd ser member score z.
Proof.
  unfold zadd. rewrite filter_insert_sorted_out by (cbn; tauto).
  by rewrite filter_idemp.
Qed.

Lemma elem_of_zadd_iff (member : A) (score : Z) (z : list (A * Z)) y :
  y ∈ zadd ser member score z
  ↔ y = (member, score) ∨ (y ∈ z ∧ ser y.1 ≠ ser member).
Proof.
  unfold zadd. rewrite elem_of_insert_sorted, list_elem_of_filter. tauto.
Qed.

(** On a score range that holds nothing, [ZADD] then [ZRANGEBYSCORE] gives
    the member alone. *)
Lemma zrangebyscore_zadd_fresh (member : A) (score lo hi : Z)
    (z : list (A * Z)) :
  lo <= score <= hi →
  zrangebyscore lo hi z = [] →
  zrangebyscore lo hi (zadd ser member score z) = [member].
Proof.
  intros Hs Hnil. unfold zrangebyscore, zadd in *.
  apply fmap_nil_inv in Hnil.
  rewrite filter_insert_sorted_only; [done|done|].
  by apply filter_filter_nil.
Qed.

End zset.

Lemma elem_of_zremrangebyscore {A : Type} (lo hi : Z) (z : list (A * Z)) y :
  y ∈ zremrangebyscore lo hi z ↔ y ∈ z ∧ ¬ lo <= y.2 <= hi.
Proof. unfold zremrangebyscore. rewrite list_elem_of_filter. tauto. Qed.

End ZSetMoreProofs.

Module JoinProofs.
Import RedisZSet Distributor RedisZSetProofs ZSetMoreProofs DistributorProofs.
Local Open Scope Z_scope.

(** The multi-project branch for a project that is waited for, in one
    equation. *)
Lemma aggregate_multi_eq env config process_unit st :
  aggregate_on config = multi_project →
  fm_projectId process_unit ∈ projects_to_wait_for config →
  let key := aggregator_events_key (agg_project_type config) in
  let epochId := fm_epochId process_unit in
  let stored :=
    zadd (json_finalized (codec env)) process_unit epochId
      (zset_at key (redis_events st)) in
  let events := zrangebyscore epochId epochId stored in
  aggregate_config env config process_unit st
  = if bool_decide (event_project_ids events
                    = list_to_set (projects_to_wait_for config))
    then
      let st1 := set_events (<[key := stored]> (redis_events st)) st in
      let st2 := logger INFO "All projects present, aggregating" st1 in
      let st3 :=
        _send_message_for_processing env
          (CalculateAggregate
             (mkAggregateMessage events (now env) (uuid4 env (uuid_calls st))))
          (agg_project_type config)
          (callback_key (settings env) "CalculateAggregate"
             (agg_project_type config))
          (fresh_uuid env st2).2 in
      set_events
        (<[key := zremrangebyscore epochId epochId
                    (zset_at key (redis_events st3))]> (redis_events st3)) st3
    else
      logger INFO "Not all projects present"
        (set_events (<[key := stored]> (redis_events st)) st).
Proof.
  intros Hmulti Hreq key epochId stored events.
  assert (Hev : process_unit ∈ events).
  { apply elem_of_zrangebyscore. exists epochId.
    split; [apply elem_of_zadd|lia]. }
  unfold aggregate_config. rewrite Hmulti. unfold aggregate_multi_project.
  rewrite (bool_decide_eq_true_2 _ Hreq).
  cbn [redis_events set_events]. rewrite zset_at_insert.
  fold key epochId. fold stored. fold events.
  destruct events as [|ev evs] eqn:Hevs; [by apply elem_of_nil in Hev|].
  reflexivity.
Qed.

(** The sorted set of the aggregator after the multi-project branch: the
    inserted set, without the entries of the epoch when the join fired. *)
Lemma aggregate_multi_events env config process_unit st :
  aggregate_on config = multi_project →
  fm_projectId process_unit ∈ projects_to_wait_for config →
  let key := aggregator_events_key (agg_project_type config) in
  let epochId := fm_epochId process_unit in
  let stored :=
    zadd (json_finalized (codec env)) process_unit epochId
      (zset_at key (redis_events st)) in
  let events := zrangebyscore epochId epochId stored in
  redis_events (aggregate_config env config process_unit st)
  = <[key := if bool_decide (event_project_ids events
                             = list_to_set (projects_to_wait_for config))
             then zremrangebyscore epochId epochId stored
             else stored]> (redis_events st).
Proof.
  intros Hmulti Hreq key epochId stored events.
  rewrite (aggregate_multi_eq env config process_unit st Hmulti Hreq).
  fold key epochId. fold stored. fold events.
  case_bool_decide.
  - cbn [redis_events set_events logger fresh_uuid snd
         _send_message_for_processing set_logs enqueue_msg_delivery].
    by rewrite zset_at_insert, insert_insert_eq.
  - done.
Qed.

Lemma aggregate_multi_published_miss env config process_unit st :
  aggregate_on config = multi_project →
  fm_projectId process_unit ∈ projects_to_wait_for config →
  event_project_ids
    (zrangebyscore (fm_epochId process_unit) (fm_epochId process_unit)
       (zadd (json_finalized (codec env)) process_unit
          (fm_epochId process_unit)
          (zset_at (aggregator_events_key (agg_project_type config))
             (redis_events st))))
  ≠ list_to_set (projects_to_wait_for config) →
  published (aggregate_config env config process_unit st) = published st.
Proof.
  intros Hmulti Hreq Hmiss.
  rewrite (aggregate_multi_eq env config process_unit st Hmulti Hreq).
  cbn zeta. by rewrite (bool_decide_eq_false_2 _ Hmiss).
Qed.

(** X13.  A single-project aggregator forwards the finalized message, as
    it is, to its [CalculateAggregate] topic exactly when the configured
    filter occurs as a substring of the message's projectId, and publishes
    nothing otherwise; the aggregation sets of the store are never touched. *)
Theorem single_project_filter_is_substring (env : Env)
    (config : AggregatorConfig)
    (process_unit : PowerloomSnapshotFinalizedMessage) (st : State) :
  aggregate_on config = single_project →
  published (aggregate_config env config process_unit st)
  = published st
    ++ (if PyStr.contains (filters_projectId config) (fm_projectId process_unit)
        then [mkPublished
                (callbacks_exchange (settings env) +:+ ":"
                   +:+ namespace (settings env))
                (callback_key (settings env) "CalculateAggregate"
                   (agg_project_type config))
                (SnapshotFinalized process_unit)]
        else [])
  ∧ redis_events (aggregate_config env config process_unit st)
    = redis_events st
  ∧ acked (aggregate_config env config process_unit st) = acked st.
Proof.
  intros Hsingle. unfold aggregate_config. rewrite Hsingle.
  destruct (PyStr.contains _ _); cbn [negb].
  - by destruct (send_message_frame env (SnapshotFinalized process_unit)
                   (agg_project_type config)
                   (callback_key (settings env) "CalculateAggregate"
                      (agg_project_type config)) st) as (-> & -> & -> & _).
  - cbn. by rewrite app_nil_r.
Qed.

Lemma single_project_filter_is_substring_witness :
  msg_body
    <$> published
          (aggregate_config Scenario.env
             (mkAggregatorConfig "pair_volume" single_project "pairContract" [])
             (mkFinalizedMessage 7 "uniswap_pairContract_trade_volume_0xab"
                101 200 "cid" "broadcast-7") init)
  = [SnapshotFinalized
       (mkFinalizedMessage 7 "uniswap_pairContract_trade_volume_0xab"
          101 200 "cid" "broadcast-7")].
Proof.
  rewrite (proj1 (single_project_filter_is_substring Scenario.env
    (mkAggregatorConfig "pair_volume" single_project "pairContract" [])
    (mkFinalizedMessage 7 "uniswap_pairContract_trade_volume_0xab"
       101 200 "cid" "broadcast-7") init eq_refl)).
  reflexivity.
Defined.

(** A multi-project aggregator ignores a finalized message whose projectId
    is not among the projects it waits for. *)
Lemma unawaited_project_is_ignored env config process_unit st :
  aggregate_on config = multi_project →
  fm_projectId process_unit ∉ projects_to_wait_for config →
  aggregate_config env config process_unit st
  = logger INFO "projectId not required" st.
Proof.
  intros Hmulti Hnot. unfold aggregate_config. rewrite Hmulti.
  unfold aggregate_multi_project. by rewrite (bool_decide_eq_false_2 _ Hnot).
Qed.

(** X14.  A [SnapshotFinalized] delivery that no configured aggregator
    selects (the filter of a single-project one does not occur in its
    projectId, a multi-project one does not wait for its projectId) is
    acknowledged and nothing else happens: nothing is published and the
    store is left as it was. *)
Theorem unselected_message_is_only_acked (env : Env) (d : Delivery)
    (process_unit : PowerloomSnapshotFinalizedMessage) (st : State) :
  PyStr.split_dot_last (method_routing_key d) = "SnapshotFinalized" →
  body_finalized d = Some process_unit →
  Forall (λ config,
            match aggregate_on config with
            | single_project =>
                PyStr.contains (filters_projectId config)
                  (fm_projectId process_unit) = false
            | multi_project =>
                fm_projectId process_unit ∉ projects_to_wait_for config
            end) (aggregator_config env) →
  ∃ st',
    _distribute_callbacks_aggregate env d st = Return st'
    ∧ published st' = published st
    ∧ redis_events st' = redis_events st
    ∧ redis_logs st' = redis_logs st
    ∧ acked st' = acked st ++ [delivery_tag d].
Proof.
  intros Hty Hbody Hall. unfold _distribute_callbacks_aggregate.
  rewrite Hty, Hbody. cbn [String.eqb Ascii.eqb Bool.eqb negb].
  eexists. split; [reflexivity|].
  assert (Hframe : ∀ cfgs st0,
    Forall (λ config,
              match aggregate_on config with
              | single_project =>
                  PyStr.contains (filters_projectId config)
                    (fm_projectId process_unit) = false
              | multi_project =>
                  fm_projectId process_unit ∉ projects_to_wait_for config
              end) cfgs →
    published (aggregate_all env cfgs process_unit st0) = published st0
    ∧ redis_events (aggregate_all env cfgs process_unit st0) = redis_events st0
    ∧ redis_logs (aggregate_all env cfgs process_unit st0) = redis_logs st0
    ∧ acked (aggregate_all env cfgs process_unit st0) = acked st0).
  { induction cfgs as [|config cfgs IH]; intros st0 Hcfgs; [done|].
    apply Forall_cons in Hcfgs as [Hconfig Hcfgs]. cbn [aggregate_all].
    destruct (IH (aggregate_config env config process_unit st0) Hcfgs)
      as (-> & -> & -> & ->).
    destruct (aggregate_on config) eqn:Hon.
    - unfold aggregate_config. rewrite Hon, Hconfig. done.
    - by rewrite unawaited_project_is_ignored. }
  destruct (Hframe (aggregator_config env)
              (logger DEBUG "Aggregation Task Distribution time" st) Hall)
    as (Hp & He & Hl & Ha).
  cbn [published redis_events redis_logs acked basic_ack].
  by rewrite Hp, He, Hl, Ha.
Qed.

Lemma unselected_message_is_only_acked_witness :
  ∃ st',
    _distribute_callbacks_aggregate Scenario.env
      (mkDelivery (event_detector_key Scenario.settings "SnapshotFinalized") 9
         None (Some (Scenario.finalized "D"))) init = Return st'
    ∧ published st' = []
    ∧ acked st' = [9].
Proof.
  destruct (unselected_message_is_only_acked Scenario.env
              (mkDelivery (event_detector_key Scenario.settings
                             "SnapshotFinalized") 9
                 None (Some (Scenario.finalized "D")))
              (Scenario.finalized "D") init)
    as (st' & Hr & Hp & _ & _ & Ha).
  - reflexivity.
  - reflexivity.
  - apply Forall_cons. split; [|by apply Forall_nil].
    change (fm_projectId (Scenario.finalized "D")
            ∉ projects_to_wait_for Scenario.abc).
    apply (bool_decide_unpack _). vm_compute. exact I.
  - exists st'. split; [exact Hr|]. split; [exact Hp|exact Ha].
Defined.

(** X15.  Handling a message of epoch [epochId] in a multi-project
    aggregator never disturbs the other epochs: an entry with another score
    is in the aggregator's sorted set afterwards exactly when it was there
    before and is not the same member under another score; the sorted sets
    under any other key are unchanged. *)
Theorem other_epochs_are_untouched (env : Env) (config : AggregatorConfig)
    (process_unit : PowerloomSnapshotFinalizedMessage) (st : State) :
  aggregate_on config = multi_project →
  fm_projectId process_unit ∈ projects_to_wait_for config →
  (∀ y : PowerloomSnapshotFinalizedMessage * Z,
     y.2 ≠ fm_epochId process_unit →
     y ∈ zset_at (aggregator_events_key (agg_project_type config))
           (redis_events (aggregate_config env config process_unit st))
     ↔ y ∈ zset_at (aggregator_events_key (agg_project_type config))
             (redis_events st)
       ∧ json_finalized (codec env) y.1
         ≠ json_finalized (codec env) process_unit)
  ∧ (∀ key' : string,
       key' ≠ aggregator_events_key (agg_project_type config) →
       zset_at key' (redis_events (aggregate_config env config process_unit st))
       = zset_at key' (redis_events st)).
Proof.
  intros Hmulti Hreq.
  rewrite (aggregate_multi_events env config process_unit st Hmulti Hreq).
  split.
  - intros y Hy. rewrite zset_at_insert. case_bool_decide.
    + rewrite elem_of_zremrangebyscore, elem_of_zadd_iff. split.
      * intros [[->|?] _]; [done|done].
      * intros ?. split; [by right|lia].
    + rewrite elem_of_zadd_iff. split.
      * intros [->|?]; [done|done].
      * intros ?. by right.
  - intros key' Hne. by rewrite zset_at_insert_ne.
Qed.

Lemma other_epochs_are_untouched_witness :
  (Scenario.finalized "B", 6)
  ∈ zset_at Scenario.abc_key
      (redis_events
         (aggregate_config Scenario.env Scenario.abc (Scenario.finalized "A")
            (set_events {[Scenario.abc_key := [(Scenario.finalized "B", 6)]]}
               init))).
Proof.
  apply (proj1 (other_epochs_are_untouched Scenario.env Scenario.abc
                  (Scenario.finalized "A")
                  (set_events
                     {[Scenario.abc_key := [(Scenario.finalized "B", 6)]]}
                     init)
                  eq_refl
                  ltac:(apply (bool_decide_unpack _); vm_compute; exact I))
               (Scenario.finalized "B", 6) ltac:(cbn; lia)).
  split.
  - vm_compute. apply list_elem_of_here.
  - apply (bool_decide_unpack _). vm_compute. exact I.
Defined.

(** X16.  While the join is incomplete, delivering the same finalized
    message again changes nothing: the sorted sets after the second
    handling are those after the first and nothing is published by either. *)
Theorem redelivery_before_join_is_idempotent (env : Env)
    (config : AggregatorConfig)
    (process_unit : PowerloomSnapshotFinalizedMessage) (st : State) :
  aggregate_on config = multi_project →
  fm_projectId process_unit ∈ projects_to_wait_for config →
  event_project_ids
    (zrangebyscore (fm_epochId process_unit) (fm_epochId process_unit)
       (zadd (json_finalized (codec env)) process_unit
          (fm_epochId process_unit)
          (zset_at (aggregator_events_key (agg_project_type config))
             (redis_events st))))
  ≠ list_to_set (projects_to_wait_for config) →
  redis_events
    (aggregate_config env config process_unit
       (aggregate_config env config process_unit st))
  = redis_events (aggregate_config env config process_unit st)
  ∧ published
      (aggregate_config env config process_unit
         (aggregate_config env config process_unit st))
    = published st.
Proof.
  intros Hmulti Hreq Hmiss.
  pose proof (aggregate_multi_events env config process_unit st Hmulti Hreq)
    as Hev1.
  cbn zeta in Hev1. rewrite (bool_decide_eq_false_2 _ Hmiss) in Hev1.
  pose proof (aggregate_multi_events env config process_unit
                (aggregate_config env config process_unit st) Hmulti Hreq)
    as Hev2.
  cbn zeta in Hev2.
  assert (Hsame :
    zadd (json_finalized (codec env)) process_unit (fm_epochId process_unit)
      (zset_at (aggregator_events_key (agg_project_type config))
         (redis_events (aggregate_config env config process_unit st)))
    = zadd (json_finalized (codec env)) process_unit (fm_epochId process_unit)
        (zset_at (aggregator_events_key (agg_project_type config))
           (redis_events st))).
  { by rewrite Hev1, zset_at_insert, zadd_zadd. }
  rewrite Hsame in Hev2. rewrite (bool_decide_eq_false_2 _ Hmiss) in Hev2.
  split.
  - by rewrite Hev2, Hev1, insert_insert_eq.
  - rewrite (aggregate_multi_published_miss env config process_unit
               (aggregate_config env config process_unit st) Hmulti Hreq).
    + by apply aggregate_multi_published_miss.
    + by rewrite Hsame.
Qed.

Lemma redelivery_before_join_is_idempotent_witness :
  published
    (aggregate_config Scenario.env Scenario.abc (Scenario.finalized "A")
       (aggregate_config Scenario.env Scenario.abc (Scenario.finalized "A")
          init)) = [].
Proof.
  apply (proj2 (redelivery_before_join_is_idempotent Scenario.env Scenario.abc
                  (Scenario.finalized "A") init eq_refl
                  ltac:(apply (bool_decide_unpack _); vm_compute; exact I)
                  ltac:(apply (bool_decide_unpack _); vm_compute; exact I))).
Defined.

(** X17.  When the sorted set holds nothing at the score of the message
    (in particular after a join has fired and cleared it), the entries read
    back are the message alone: unless the aggregator waits for that single
    project only, nothing is published and the message is the one entry at
    that score; if it does, an aggregate of that one message is published
    and the score is cleared again. *)
Theorem delivery_on_empty_score_seeds_the_join (env : Env)
    (config : AggregatorConfig)
    (process_unit : PowerloomSnapshotFinalizedMessage) (st : State) :
  aggregate_on config = multi_project →
  fm_projectId process_unit ∈ projects_to_wait_for config →
  zrangebyscore (fm_epochId process_unit) (fm_epochId process_unit)
    (zset_at (aggregator_events_key (agg_project_type config))
       (redis_events st)) = [] →
  (list_to_set (projects_to_wait_for config)
     ≠@{gset string} {[ fm_projectId process_unit ]} →
   published (aggregate_config env config process_unit st) = published st
   ∧ zrangebyscore (fm_epochId process_unit) (fm_epochId process_unit)
       (zset_at (aggregator_events_key (agg_project_type config))
          (redis_events (aggregate_config env config process_unit st)))
     = [process_unit])
  ∧ (list_to_set (projects_to_wait_for config)
       =@{gset string} {[ fm_projectId process_unit ]} →
     msg_body <$> published (aggregate_config env config process_unit st)
     = (msg_body <$> published st)
       ++ [CalculateAggregate
             (mkAggregateMessage [process_unit] (now env)
                (uuid4 env (uuid_calls st)))]
     ∧ zrangebyscore (fm_epochId process_unit) (fm_epochId process_unit)
         (zset_at (aggregator_events_key (agg_project_type config))
            (redis_events (aggregate_config env config process_unit st)))
       = []).
Proof.
  intros Hmulti Hreq Hempty.
  pose proof (aggregate_multi_eq env config process_unit st Hmulti Hreq) as Heq.
  pose proof (aggregate_multi_events env config process_unit st Hmulti Hreq)
    as Hev.
  cbn zeta in Heq, Hev.
  rewrite (zrangebyscore_zadd_fresh (json_finalized (codec env)) process_unit
             (fm_epochId process_unit) (fm_epochId process_unit)
             (fm_epochId process_unit) _ ltac:(lia) Hempty) in Heq, Hev.
  assert (Hids : event_project_ids [process_unit]
                 = {[ fm_projectId process_unit ]}).
  { unfold event_project_ids. cbn. apply union_empty_r_L. }
  rewrite Hids in Heq, Hev. split.
  - intros Hne.
    rewrite bool_decide_eq_false_2 in Heq, Hev by done.
    rewrite Hev, zset_at_insert, Heq. split; [done|].
    by apply zrangebyscore_zadd_fresh; [lia|].
  - intros Hsingle.
    rewrite bool_decide_eq_true_2 in Heq, Hev by done.
    rewrite Hev, zset_at_insert, Heq. split.
    + cbn [published redis_events logger set_events fresh_uuid snd
           _send_message_for_processing set_logs enqueue_msg_delivery].
      by rewrite fmap_app.
    + apply zrangebyscore_zremrangebyscore.
Qed.

Lemma delivery_on_empty_score_seeds_the_join_witness :
  zrangebyscore 7 7
    (zset_at Scenario.abc_key
       (redis_events
          (aggregate_config Scenario.env Scenario.abc (Scenario.finalized "A")
             init)))
  = [Scenario.finalized "A"].
Proof.
  apply (proj1 (delivery_on_empty_score_seeds_the_join Scenario.env
                  Scenario.abc (Scenario.finalized "A") init eq_refl
                  ltac:(apply (bool_decide_unpack _); vm_compute; exact I)
                  eq_refl)).
  apply (bool_decide_unpack _). vm_compute. exact I.
Defined.

End JoinProofs.

(** ** More on routing and the fan-out *)

Module RoutingProofs.
Import RedisZSet Distributor RedisZSetProofs ZSetMoreProofs DistributorProofs.
Local Open Scope Z_scope.

Lemma epoch_released_is_not_snapshot_finalized (s : Settings) :
  String.eqb (event_detector_key s "EpochReleased")
             (event_detector_key s "SnapshotFinalized") = false.
Proof.
  apply String.eqb_neq. intros H. by apply event_detector_key_inj in H.
Qed.

(** X18.  A delivery whose routing key is neither the [EpochReleased] nor
    the [SnapshotFinalized] topic is only logged as an error: no handler is
    entered, nothing is published, the store is untouched and the delivery
    is not acknowledged. *)
Theorem unknown_routing_key_is_only_logged (env : Env) (d : Delivery)
    (st : State) :
  method_routing_key d ≠ event_detector_key (settings env) "EpochReleased" →
  method_routing_key d ≠ event_detector_key (settings env) "SnapshotFinalized" →
  _distribute_callbacks env d st
  = ([UnknownKey],
     Return
       (mkState (redis_events st) (redis_logs st) (published st) (acked st)
          (log st
             ++ [(DEBUG, "Got message to process and distribute");
                 (ERROR, "Unknown routing key for callback distribution")])
          (uuid_calls st))).
Proof.
  intros Her Hsf. unfold _distribute_callbacks.
  apply String.eqb_neq in Her, Hsf. rewrite Hsf, Her.
  unfold logger. cbn [redis_events redis_logs published acked log uuid_calls].
  by rewrite <- app_assoc.
Qed.

Lemma unknown_routing_key_is_only_logged_witness :
  (_distribute_callbacks Scenario.env
     (mkDelivery "powerloom-event-detector:ns:node.IndexFinalized" 4 None None)
     init).1 = [UnknownKey].
Proof.
  rewrite (unknown_routing_key_is_only_logged Scenario.env
             (mkDelivery "powerloom-event-detector:ns:node.IndexFinalized" 4
                None None) init).
  - reflexivity.
  - apply (bool_decide_unpack _). vm_compute. exact I.
  - apply (bool_decide_unpack _). vm_compute. exact I.
Defined.

(** X19.  An [EpochReleased] delivery goes to the snapshotting fan-out
    only: the payload-commit forwarding and the aggregation are not entered.
    When its body does not validate, the error is logged, nothing is
    published and the delivery is not acknowledged. *)
Theorem epoch_released_goes_to_fan_out_only (env : Env) (d : Delivery)
    (st : State) :
  method_routing_key d = event_detector_key (settings env) "EpochReleased" →
  _distribute_callbacks env d st
  = ([Snapshotting],
     _distribute_callbacks_snapshotting env d
       (logger DEBUG "Got message to process and distribute" st))
  ∧ (body_epoch d = None →
     published (state_of (_distribute_callbacks env d st).2) = published st
     ∧ acked (state_of (_distribute_callbacks env d st).2) = acked st
     ∧ redis_logs (state_of (_distribute_callbacks env d st).2)
       = redis_logs st
     ∧ redis_events (state_of (_distribute_callbacks env d st).2)
       = redis_events st).
Proof.
  intros Hrk.
  assert (Heq : _distribute_callbacks env d st
    = ([Snapshotting],
       _distribute_callbacks_snapshotting env d
         (logger DEBUG "Got message to process and distribute" st))).
  { unfold _distribute_callbacks.
    by rewrite Hrk, epoch_released_is_not_snapshot_finalized,
      String.eqb_refl. }
  split; [exact Heq|]. intros Hbody. rewrite Heq. cbn [snd].
  unfold _distribute_callbacks_snapshotting. by rewrite Hbody.
Qed.

Lemma epoch_released_goes_to_fan_out_only_witness :
  (_distribute_callbacks Scenario.env Scenario.epoch_released init).1
  = [Snapshotting].
Proof.
  rewrite (proj1 (epoch_released_goes_to_fan_out_only Scenario.env
                    Scenario.epoch_released init eq_refl)).
  reflexivity.
Defined.

Lemma finalized_delivery_runs_both_paths_witness :
  ∃ st1 st2,
    _build_and_forward_to_payload_commit_queue Scenario.env
      (mkDelivery (event_detector_key Scenario.settings "SnapshotFinalized") 3
         None (Some (Scenario.finalized "A")))
      (logger DEBUG "Got message to process and distribute" init) = Return st1
    ∧ _distribute_callbacks_aggregate Scenario.env
        (mkDelivery (event_detector_key Scenario.settings "SnapshotFinalized") 3
           None (Some (Scenario.finalized "A"))) st1 = Return st2
    ∧ acked st2 = [3].
Proof.
  destruct (finalized_delivery_runs_both_paths Scenario.env
              (mkDelivery (event_detector_key Scenario.settings
                             "SnapshotFinalized") 3
                 None (Some (Scenario.finalized "A")))
              (Scenario.finalized "A") init eq_refl eq_refl)
    as (st1 & st2 & H1 & _ & H2 & _ & H3).
  exists st1, st2. split; [exact H1|]. split; [exact H2|exact H3].
Defined.

Lemma malformed_finalized_never_aggregated_witness :
  (_distribute_callbacks Scenario.env Scenario.malformed_finalized init).1
  = [CommitPayload].
Proof.
  rewrite (malformed_finalized_never_aggregated Scenario.env
             Scenario.malformed_finalized init eq_refl eq_refl).
  reflexivity.
Defined.

End RoutingProofs.

(** ** The processing log, the warm-up and the keys *)

Module FanOutProofs.
Import RedisZSet Distributor RedisZSetProofs ZSetMoreProofs DistributorProofs.
Local Open Scope Z_scope.

(** Sending a message records it in the processing log of its broadcast. *)
Lemma send_message_is_logged env u type_ rk st :
  ∃ y,
    y ∈ zset_at (cb_broadcast_processing_logs_zset (settings env) (broadcastId u))
          (redis_logs (_send_message_for_processing env u type_ rk st))
    ∧ y.1 = mkUpdateLog (name env)
              ("powerloom-backend-callback:" +:+ namespace (settings env)
                 +:+ ":" +:+ instance_id (settings env) +:+ "." +:+ type_)
              (callbacks_exchange (settings env) +:+ ":"
                 +:+ namespace (settings env)) u
    ∧ y.2 = now env.
Proof.
  eexists (_, _). split; [|split; reflexivity].
  unfold _send_message_for_processing.
  cbn [redis_logs set_logs logger enqueue_msg_delivery].
  rewrite zset_at_insert. apply elem_of_zadd.
Qed.

(** Sending a message keeps what the processing logs record: an entry with
    given bytes, written at the current instant, is still there (possibly
    rewritten with the same bytes). *)
Lemma send_message_keeps_logged env u type_ rk st key (bytes : string) :
  (∃ y, y ∈ zset_at key (redis_logs st)
        ∧ json_log (codec env) y.1 = bytes ∧ y.2 = now env) →
  ∃ y, y ∈ zset_at key
             (redis_logs (_send_message_for_processing env u type_ rk st))
       ∧ json_log (codec env) y.1 = bytes ∧ y.2 = now env.
Proof.
  intros (y & Hy & Hbytes & Hscore).
  unfold _send_message_for_processing.
  cbn [redis_logs set_logs logger enqueue_msg_delivery].
  set (k := cb_broadcast_processing_logs_zset _ _).
  set (entry := mkUpdateLog _ _ _ _).
  destruct (decide (k = key)) as [<-|Hne].
  - rewrite zset_at_insert.
    destruct (decide (json_log (codec env) y.1 = json_log (codec env) entry))
      as [Heq|Hneq].
    + exists (entry, now env). split; [apply elem_of_zadd|].
      cbn [fst snd]. split; [congruence|done].
    + exists y. split; [by apply elem_of_zadd_other|done].
  - exists y. by rewrite zset_at_insert_ne.
Qed.

Lemma fan_out_projects_logged env msg_obj type_ ps st :
  (∀ key bytes,
     (∃ y, y ∈ zset_at key (redis_logs st)
           ∧ json_log (codec env) y.1 = bytes ∧ y.2 = now env) →
     ∃ y, y ∈ zset_at key
                (redis_logs (fan_out_projects env msg_obj type_ ps st))
          ∧ json_log (codec env) y.1 = bytes ∧ y.2 = now env)
  ∧ ∀ project, project ∈ ps →
      ∃ y,
        y ∈ zset_at (cb_broadcast_processing_logs_zset (settings env)
                       (eb_broadcastId msg_obj))
              (redis_logs (fan_out_projects env msg_obj type_ ps st))
        ∧ json_log (codec env) y.1
          = json_log (codec env)
              (mkUpdateLog (name env)
                 ("powerloom-backend-callback:" +:+ namespace (settings env)
                    +:+ ":" +:+ instance_id (settings env) +:+ "." +:+ type_)
                 (callbacks_exchange (settings env) +:+ ":"
                    +:+ namespace (settings env))
                 (SnapshotProcess
                    (mkProcessMessage (eb_begin msg_obj) (eb_end msg_obj)
                       (eb_epochId msg_obj) (PyStr.lower project)
                       (eb_broadcastId msg_obj))))
        ∧ y.2 = now env.
Proof.
  revert st. induction ps as [|p ps IH]; intros st.
  - split; [done|]. intros project Hin. by apply elem_of_nil in Hin.
  - cbn [fan_out_projects].
    set (u := SnapshotProcess _).
    set (st1 := _send_message_for_processing env u type_ _ st).
    destruct (IH st1) as [IHkeep IHnew]. split.
    + intros key bytes Hold. apply IHkeep.
      by apply send_message_keeps_logged.
    + intros project [->|Hin]%elem_of_cons; [|by apply IHnew].
      apply IHkeep.
      destruct (send_message_is_logged env u type_
                  (callback_key (settings env) "EpochReleased" type_) st)
        as (y & Hy & Hy1 & Hy2).
      exists y. split; [exact Hy|]. split; [by rewrite Hy1|done].
Qed.

(** X20.  After the fan-out of an epoch broadcast, the processing log of
    that broadcast (the sorted set keyed by its broadcastId) holds, for
    every configured project, an entry with the bytes of the update log of
    the message sent for it, scored with the time of the fan-out; the
    aggregation sets are not touched. *)
Theorem fan_out_is_logged (env : Env) (d : Delivery) (msg_obj : EpochBroadcast)
    (st : State) :
  body_epoch d = Some msg_obj →
  (∀ pc project,
     pc ∈ projects_config env → project ∈ projects pc →
     ∃ y,
       y ∈ zset_at (cb_broadcast_processing_logs_zset (settings env)
                      (eb_broadcastId msg_obj))
             (redis_logs
                (state_of (_distribute_callbacks_snapshotting env d st)))
       ∧ json_log (codec env) y.1
         = json_log (codec env)
             (mkUpdateLog (name env)
                ("powerloom-backend-callback:" +:+ namespace (settings env)
                   +:+ ":" +:+ instance_id (settings env) +:+ "."
                   +:+ project_type pc)
                (callbacks_exchange (settings env) +:+ ":"
                   +:+ namespace (settings env))
                (SnapshotProcess
                   (mkProcessMessage (eb_begin msg_obj) (eb_end msg_obj)
                      (eb_epochId msg_obj) (PyStr.lower project)
                      (eb_broadcastId msg_obj))))
       ∧ y.2 = now env)
  ∧ redis_events (state_of (_distribute_callbacks_snapshotting env d st))
    = redis_events st.
Proof.
  intros Hbody. unfold _distribute_callbacks_snapshotting. rewrite Hbody.
  cbn [state_of redis_logs redis_events basic_ack].
  set (st0 := _warm_up_cache_for_epoch_data env _).
  assert (Hev0 : redis_events st0 = redis_events st).
  { subst st0. unfold _warm_up_cache_for_epoch_data.
    by destruct (warm_up_ok env). }
  clearbody st0. generalize (projects_config env) as cfgs. intros cfgs.
  revert st0 Hev0.
  assert (Hgen : ∀ cfgs st0,
    (∀ key bytes,
       (∃ y, y ∈ zset_at key (redis_logs st0)
             ∧ json_log (codec env) y.1 = bytes ∧ y.2 = now env) →
       ∃ y, y ∈ zset_at key (redis_logs (fan_out env msg_obj cfgs st0))
            ∧ json_log (codec env) y.1 = bytes ∧ y.2 = now env)
    ∧ (∀ pc project, pc ∈ cfgs → project ∈ projects pc →
       ∃ y,
         y ∈ zset_at (cb_broadcast_processing_logs_zset (settings env)
                        (eb_broadcastId msg_obj))
               (redis_logs (fan_out env msg_obj cfgs st0))
         ∧ json_log (codec env) y.1
           = json_log (codec env)
               (mkUpdateLog (name env)
                  ("powerloom-backend-callback:" +:+ namespace (settings env)
                     +:+ ":" +:+ instance_id (settings env) +:+ "."
                     +:+ project_type pc)
                  (callbacks_exchange (settings env) +:+ ":"
                     +:+ namespace (settings env))
                  (SnapshotProcess
                     (mkProcessMessage (eb_begin msg_obj) (eb_end msg_obj)
                        (eb_epochId msg_obj) (PyStr.lower project)
                        (eb_broadcastId msg_obj))))
         ∧ y.2 = now env)
    ∧ redis_events (fan_out env msg_obj cfgs st0) = redis_events st0).
  { clear. induction cfgs as [|c cfgs IH]; intros st0.
    - split; [done|]. split; [|done].
      intros pc project Hin. by apply elem_of_nil in Hin.
    - cbn [fan_out].
      set (st1 := fan_out_projects env msg_obj (project_type c) (projects c) st0).
      destruct (IH st1) as (IHkeep & IHnew & IHev).
      destruct (fan_out_projects_logged env msg_obj (project_type c)
                  (projects c) st0) as [Hkeep Hnew].
      split; [|split].
      + intros key bytes Hold. by apply IHkeep, Hkeep.
      + intros pc project [->|Hin]%elem_of_cons Hproj.
        * by apply IHkeep, Hnew.
        * by apply IHnew.
      + rewrite IHev. subst st1. clear.
        revert st0. induction (projects c) as [|p ps IHp]; intros st0; [done|].
        cbn [fan_out_projects]. by rewrite IHp. }
  intros st0 Hev0. destruct (Hgen cfgs st0) as (_ & Hnew & Hev).
  split; [exact Hnew|]. by rewrite Hev.
Qed.

Lemma fan_out_is_logged_witness :
  redis_events
    (state_of (_distribute_callbacks_snapshotting Scenario.env
                 Scenario.epoch_released init)) = ∅.
Proof.
  exact (proj2 (fan_out_is_logged Scenario.env Scenario.epoch_released
                  (mkEpochBroadcast 101 200 7 "broadcast-7") init eq_refl)).
Defined.

End FanOutProofs.

Module WarmUpAndKeysProofs.
Import Distributor DistributorProofs.
Local Open Scope Z_scope.

(** The two loops of the fan-out read neither the log of the process nor
    the outcome of the warm-up. *)
Lemma fan_out_projects_reads env env' msg_obj type_ ps st st' :
  settings env = settings env' → name env = name env' →
  codec env = codec env' → now env = now env' →
  published st = published st' → acked st = acked st' →
  redis_events st = redis_events st' → redis_logs st = redis_logs st' →
  published (fan_out_projects env msg_obj type_ ps st)
  = published (fan_out_projects env' msg_obj type_ ps st')
  ∧ acked (fan_out_projects env msg_obj type_ ps st)
    = acked (fan_out_projects env' msg_obj type_ ps st')
  ∧ redis_events (fan_out_projects env msg_obj type_ ps st)
    = redis_events (fan_out_projects env' msg_obj type_ ps st')
  ∧ redis_logs (fan_out_projects env msg_obj type_ ps st)
    = redis_logs (fan_out_projects env' msg_obj type_ ps st').
Proof.
  intros Hs Hn Hc Ht. revert st st'.
  induction ps as [|p ps IH]; intros st st' Hp Ha He Hl; [done|].
  cbn [fan_out_projects]. apply IH;
    unfold _send_message_for_processing;
    cbn [published acked redis_events redis_logs set_logs logger
         enqueue_msg_delivery];
    by rewrite <- ?Hs, <- ?Hn, <- ?Hc, <- ?Ht, ?Hp, ?Ha, ?He, ?Hl.
Qed.

Lemma fan_out_reads env env' msg_obj cfgs st st' :
  settings env = settings env' → name env = name env' →
  codec env = codec env' → now env = now env' →
  published st = published st' → acked st = acked st' →
  redis_events st = redis_events st' → redis_logs st = redis_logs st' →
  published (fan_out env msg_obj cfgs st)
  = published (fan_out env' msg_obj cfgs st')
  ∧ acked (fan_out env msg_obj cfgs st) = acked (fan_out env' msg_obj cfgs st')
  ∧ redis_events (fan_out env msg_obj cfgs st)
    = redis_events (fan_out env' msg_obj cfgs st')
  ∧ redis_logs (fan_out env msg_obj cfgs st)
    = redis_logs (fan_out env' msg_obj cfgs st').
Proof.
  intros Hs Hn Hc Ht. revert st st'.
  induction cfgs as [|c cfgs IH]; intros st st' Hp Ha He Hl; [done|].
  cbn [fan_out].
  destruct (fan_out_projects_reads env env' msg_obj (project_type c)
              (projects c) st st' Hs Hn Hc Ht Hp Ha He Hl)
    as (Hp' & Ha' & He' & Hl').
  by apply IH.
Qed.

(** X21.  The warm-up of the cache is best effort: whether it succeeds or
    fails, the fan-out publishes the same messages, writes the same
    processing log and acknowledges the delivery in the same way; only the
    log of the process differs. *)
Theorem warm_up_failure_does_not_change_fan_out (env : Env) (d : Delivery)
    (st : State) (ok ok' : bool) :
  published
    (state_of (_distribute_callbacks_snapshotting
       (mkEnv (settings env) (projects_config env) (aggregator_config env)
          (name env) (codec env) (now env) (uuid4 env) ok) d st))
  = published
      (state_of (_distribute_callbacks_snapshotting
         (mkEnv (settings env) (projects_config env) (aggregator_config env)
            (name env) (codec env) (now env) (uuid4 env) ok') d st))
  ∧ acked
      (state_of (_distribute_callbacks_snapshotting
         (mkEnv (settings env) (projects_config env) (aggregator_config env)
            (name env) (codec env) (now env) (uuid4 env) ok) d st))
    = acked
        (state_of (_distribute_callbacks_snapshotting
           (mkEnv (settings env) (projects_config env) (aggregator_config env)
              (name env) (codec env) (now env) (uuid4 env) ok') d st))
  ∧ redis_logs
      (state_of (_distribute_callbacks_snapshotting
         (mkEnv (settings env) (projects_config env) (aggregator_config env)
            (name env) (codec env) (now env) (uuid4 env) ok) d st))
    = redis_logs
        (state_of (_distribute_callbacks_snapshotting
           (mkEnv (settings env) (projects_config env) (aggregator_config env)
              (name env) (codec env) (now env) (uuid4 env) ok') d st))
  ∧ redis_events
      (state_of (_distribute_callbacks_snapshotting
         (mkEnv (settings env) (projects_config env) (aggregator_config env)
            (name env) (codec env) (now env) (uuid4 env) ok) d st))
    = redis_events
        (state_of (_distribute_callbacks_snapshotting
           (mkEnv (settings env) (projects_config env) (aggregator_config env)
              (name env) (codec env) (now env) (uuid4 env) ok') d st)).
Proof.
  unfold _distribute_callbacks_snapshotting.
  destruct (body_epoch d) as [msg_obj|]; [|done].
  cbn [state_of published acked redis_logs redis_events basic_ack
       projects_config].
  set (e1 := mkEnv _ _ _ _ _ _ _ ok). set (e2 := mkEnv _ _ _ _ _ _ _ ok').
  destruct (fan_out_reads e1 e2 msg_obj (projects_config env)
    (_warm_up_cache_for_epoch_data e1
       (logger DEBUG "Epoch Distribution time" st))
    (_warm_up_cache_for_epoch_data e2
       (logger DEBUG "Epoch Distribution time" st)))
    as (Hp & Ha & He & Hl); try done;
    try (unfold _warm_up_cache_for_epoch_data; cbn;
         by destruct ok, ok').
  by rewrite Hp, Ha, He, Hl.
Qed.

(** *** Keys *)

Lemma string_length_append (a b : string) :
  String.length (a +:+ b) = (String.length a + String.length b)%nat.
Proof. induction a as [|c a IH]; simpl; [done|]. by rewrite IH. Qed.

Lemma append_inv_tail (a b s : string) : a +:+ s = b +:+ s → a = b.
Proof.
  revert b. induction a as [|c a IH]; intros [|c' b] H.
  - done.
  - apply (f_equal String.length) in H.
    rewrite !string_length_append in H. simpl in H. lia.
  - apply (f_equal String.length) in H.
    rewrite !string_length_append in H. simpl in H. lia.
  - change (String c (a +:+ s) = String c' (b +:+ s)) in H.
    injection H as -> H. f_equal. by apply IH.
Qed.

(** X22.  The keys of the store do not collide: the processing-log key is
    injective in the broadcastId and the aggregation key in the project
    type, a processing-log key is never an aggregation key, the
    finalized-data key is injective in the project id and the cid key in
    the cid, and neither of these two is ever the other. *)
Theorem store_keys_do_not_collide :
  (∀ s a b,
     cb_broadcast_processing_logs_zset s a
     = cb_broadcast_processing_logs_zset s b → a = b)
  ∧ (∀ a b, aggregator_events_key a = aggregator_events_key b → a = b)
  ∧ (∀ s id type_,
       cb_broadcast_processing_logs_zset s id ≠ aggregator_events_key type_)
  ∧ (∀ a b,
       RedisKeys.project_finalized_data_zset a
       = RedisKeys.project_finalized_data_zset b → a = b)
  ∧ (∀ a b, RedisKeys.cid_data a = RedisKeys.cid_data b → a = b)
  ∧ (∀ a b, RedisKeys.project_finalized_data_zset a ≠ RedisKeys.cid_data b).
Proof.
  split; [|split; [|split; [|split; [|split]]]].
  - intros s a b H. unfold cb_broadcast_processing_logs_zset in H.
    do 3 apply PyStrProofs.append_inv_head in H.
    by apply append_inv_tail in H.
  - intros a b H. unfold aggregator_events_key in H.
    apply PyStrProofs.append_inv_head in H. by apply append_inv_tail in H.
  - intros s id type_ H. discriminate H.
  - intros a b H. unfold RedisKeys.project_finalized_data_zset in H.
    apply PyStrProofs.append_inv_head in H. by apply append_inv_tail in H.
  - intros a b H. by apply PyStrProofs.append_inv_head in H.
  - intros a b H. discriminate H.
Qed.

End WarmUpAndKeysProofs.

(** ** Termination signals *)

Module SignalsProofs.
Import Signals.

Lemma deliver_after_shutdown (sigs : list Signal) (n : nat) :
  deliver sigs (mkState true n) = ((λ _, false) <$> sigs, mkState true n).
Proof.
  induction sigs as [|sig sigs IH]; [done|].
  cbn [deliver]. unfold _generic_exit_handler.
  cbn [_shutdown_initiated negb]. rewrite andb_false_r, IH. done.
Qed.

(** X23.  Over any sequence of signals received by the epoch detector,
    [GenericExitOnSignal] is raised by the first termination signal
    ([SIGINT], [SIGTERM], [SIGQUIT]) and by no other: the interactor is
    stopped at most once, and once shutdown has begun every later signal is
    ignored. *)
Theorem exit_handler_raises_once (sigs : list Signal) :
  length (filter (λ raised, raised = true) (deliver sigs (mkState false 0)).1)
  = (if existsb is_termination sigs then 1 else 0)
  ∧ interactor_stops (deliver sigs (mkState false 0)).2
    = (if existsb is_termination sigs then 1 else 0)
  ∧ _shutdown_initiated (deliver sigs (mkState false 0)).2
    = existsb is_termination sigs
  ∧ ∀ before sig after,
      sigs = before ++ sig :: after →
      existsb is_termination before = true →
      (deliver sigs (mkState false 0)).1 !! length before = Some false.
Proof.
  assert (Hcount : ∀ l : list Signal,
            length (filter (λ raised, raised = true)
                      ((λ _ : Signal, false) <$> l)) = 0).
  { induction l as [|x l IH]; [done|]. cbn [fmap list_fmap].
    by rewrite filter_cons_False. }
  split; [|split; [|split]].
  - induction sigs as [|sig sigs IH]; [done|].
    cbn [deliver existsb]. unfold _generic_exit_handler.
    cbn [_shutdown_initiated negb interactor_stops]. rewrite andb_true_r.
    destruct (is_termination sig).
    + rewrite deliver_after_shutdown. cbn [fst orb].
      rewrite filter_cons_True by done. cbn [length]. by rewrite Hcount.
    + destruct (deliver sigs (mkState false 0)) as [others st'].
      cbn [fst orb] in *. by rewrite filter_cons_False.
  - induction sigs as [|sig sigs IH]; [done|].
    cbn [deliver existsb]. unfold _generic_exit_handler.
    cbn [_shutdown_initiated negb interactor_stops]. rewrite andb_true_r.
    destruct (is_termination sig).
    + by rewrite deliver_after_shutdown.
    + by destruct (deliver sigs (mkState false 0)) as [others st'].
  - induction sigs as [|sig sigs IH]; [done|].
    cbn [deliver existsb]. unfold _generic_exit_handler.
    cbn [_shutdown_initiated negb interactor_stops]. rewrite andb_true_r.
    destruct (is_termination sig).
    + by rewrite deliver_after_shutdown.
    + by destruct (deliver sigs (mkState false 0)) as [others st'].
  - intros before sig after -> Hbefore. clear Hcount.
    induction before as [|b before IH]; [done|].
    cbn [app deliver length]. unfold _generic_exit_handler.
    cbn [_shutdown_initiated negb interactor_stops]. rewrite andb_true_r.
    cbn [existsb] in Hbefore.
    destruct (is_termination b).
    + rewrite deliver_after_shutdown. cbn [fst lookup].
      change (((λ _ : Signal, false) <$> before ++ sig :: after)
                !! length before = Some false).
      rewrite list_lookup_fmap, lookup_app_r, Nat.sub_diag by lia. done.
    + cbn [orb] in Hbefore. specialize (IH Hbefore).
      destruct (deliver (before ++ sig :: after) (mkState false 0))
        as [others st']. exact IH.
Qed.

(** X24.  Over any sequence of signals received by the processor
    distributor, the broker interactor is stopped exactly once if a
    termination signal is among them and never otherwise. *)
Theorem exit_signal_handler_stops_once (sigs : list Signal) :
  interactor_stops
    (foldl (λ st sig, _exit_signal_handler sig st) (mkState false 0) sigs)
  = (if existsb is_termination sigs then 1 else 0)
  ∧ _shutdown_initiated
      (foldl (λ st sig, _exit_signal_handler sig st) (mkState false 0) sigs)
    = existsb is_termination sigs.
Proof.
  assert (Hdone : ∀ (l : list Signal) n,
    foldl (λ st sig, _exit_signal_handler sig st) (mkState true n) l
    = mkState true n).
  { induction l as [|x l IH]; intros n; [done|].
    cbn [foldl]. unfold _exit_signal_handler at 2.
    cbn [_shutdown_initiated negb]. by rewrite andb_false_r, IH. }
  induction sigs as [|sig sigs IH]; [done|].
  cbn [foldl existsb]. unfold _exit_signal_handler at 2 4.
  cbn [_shutdown_initiated negb interactor_stops]. rewrite andb_true_r.
  destruct (is_termination sig).
  - by rewrite Hdone.
  - exact IH.
Qed.

End SignalsProofs.

(** ** More on the rate limiter *)

Module LimiterMoreProofs.
Import RateLimiter RateLimiterProofs UniswapHelpers.
Local Open Scope Z_scope.

Lemma hits_on_counting_bucket lim cost app_id (n : nat) :
  0 < get_expiry lim → 0 < cost → ∀ r v t,
  0 <= clock r → clock r + get_expiry lim * 1000 <= LLONG_MAX →
  0 < v → v + Z.of_nat n * cost <= 2 ^ 53 →
  live r (key_for lim app_id) = Some (mkEntry v (Some t)) →
  (hits n lim cost app_id r).1
  = (λ k : nat, Answered (v + Z.of_nat (S k) * cost <=? amount lim))
      <$> seq 0 n
  ∧ live (hits n lim cost app_id r).2 (key_for lim app_id)
    = Some (mkEntry (v + Z.of_nat n * cost) (Some t))
  ∧ clock (hits n lim cost app_id r).2 = clock r.
Proof.
  intros Hw Hcost. induction n as [|n IH]; intros r v t Hclock Hend Hv Hsum Hlive.
  - cbn. split; [done|]. split; [|done]. rewrite Hlive. do 2 f_equal. lia.
  - assert (Hn : 0 <= Z.of_nat n * cost) by nia.
    rewrite Nat2Z.inj_succ, Z.mul_succ_l in Hsum.
    cbn [hits]. unfold hit.
    rewrite script_eq; rewrite ?Hlive; cbn [from_option value];
      [|done|done|done|lia|lia].
    destruct (Z.eqb_spec v 0) as [?|_]; [lia|].
    cbn [mbind option_bind expire_at].
    set (r1 := mkRedis (clock r) _).
    assert (Hnext : live r1 (key_for lim app_id)
                    = Some (mkEntry (v + cost) (Some t))).
    { apply live_insert_eq. apply live_Some in Hlive as [_ Hexp].
      exact Hexp. }
    destruct (IH r1 (v + cost) t) as (Hres & Hfin & Hclk);
      [done|done|lia|lia|done|].
    destruct (hits n lim cost app_id r1) as [rest r2].
    cbn [fst snd] in *. split; [|split].
    + cbn [seq fmap list_fmap]. f_equal; [do 2 f_equal; lia|].
      rewrite Hres, <- fmap_S_seq, <- list_fmap_compose.
      apply list_fmap_ext. intros _ k _. cbn [compose].
      do 2 f_equal. rewrite !Nat2Z.inj_succ. lia.
    + rewrite Hfin. do 2 f_equal. rewrite Nat2Z.inj_succ. lia.
    + by rewrite Hclk.
Qed.

(** X25.  Fixed-window counting: starting from a bucket that does not
    exist, with a positive window that ends at a representable instant, a
    positive cost, counts up to [2^53] and no time passing, the [k]-th call
    of [hit] (counted from 1) is accepted exactly when [k * cost] does not
    exceed the limit; refused calls are counted all the same; the bucket
    expires one window after the first call, and is gone once that instant
    is past. *)
Theorem hits_follow_a_fixed_window (lim : RateLimitItem) (cost : Z)
    (app_id : string) (r : Redis) (n : nat) :
  live r (key_for lim app_id) = None →
  0 <= clock r →
  0 < get_expiry lim →
  clock r + get_expiry lim * 1000 <= LLONG_MAX →
  0 < cost →
  Z.of_nat n * cost <= 2 ^ 53 →
  (hits n lim cost app_id r).1
  = (λ k : nat, Answered (Z.of_nat (S k) * cost <=? amount lim)) <$> seq 0 n
  ∧ (n ≠ 0%nat →
     live (hits n lim cost app_id r).2 (key_for lim app_id)
     = Some (mkEntry (Z.of_nat n * cost)
               (Some (clock r + get_expiry lim * 1000)))
     ∧ ∀ ms, get_expiry lim * 1000 < ms →
         live (advance ms (hits n lim cost app_id r).2)
              (key_for lim app_id) = None).
Proof.
  intros Hnone Hclock Hw Hend Hcost Hsum. destruct n as [|n]; [done|].
  assert (Hn : 0 <= Z.of_nat n * cost) by nia.
  rewrite Nat2Z.inj_succ, Z.mul_succ_l in Hsum.
  cbn [hits]. unfold hit.
  rewrite script_eq; rewrite ?Hnone; cbn [from_option];
    [|done|done|done|lia|lia].
  rewrite Z.add_0_l. cbn [Z.eqb].
  set (r1 := mkRedis (clock r) _).
  assert (Hnext : live r1 (key_for lim app_id)
                  = Some (mkEntry cost
                            (Some (clock r + get_expiry lim * 1000)))).
  { apply live_insert_eq. unfold expired. cbn [expire_at].
    destruct (Z.ltb_spec (clock r + get_expiry lim * 1000) (clock r));
      [lia|done]. }
  destruct (hits_on_counting_bucket lim cost app_id n Hw Hcost r1 cost
              (clock r + get_expiry lim * 1000))
    as (Hres & Hfin & Hclk); [done|done|done|lia|done|].
  destruct (hits n lim cost app_id r1) as [rest r2].
  cbn [fst snd] in *. split.
  - cbn [seq fmap list_fmap]. f_equal; [do 2 f_equal; lia|].
    rewrite Hres, <- fmap_S_seq, <- list_fmap_compose.
    apply list_fmap_ext. intros _ k _. cbn [compose].
    do 2 f_equal. rewrite !Nat2Z.inj_succ. lia.
  - intros _. split.
    + rewrite Hfin. do 2 f_equal. rewrite Nat2Z.inj_succ. lia.
    + intros ms Hms. apply live_Some in Hfin as [Hk _].
      unfold live, advance. cbn [keys clock]. rewrite Hk.
      unfold expired. cbn [expire_at].
      destruct (Z.ltb_spec (clock r + get_expiry lim * 1000) (clock r2 + ms));
        [done|]. subst r1. cbn [clock] in Hclk. lia.
Qed.

Lemma hits_follow_a_fixed_window_witness :
  (hits 7 Scenario.five_per_second 1 "app" (empty 0)).1
  = [Answered true; Answered true; Answered true; Answered true;
     Answered true; Answered false; Answered false].
Proof.
  rewrite (proj1 (hits_follow_a_fixed_window Scenario.five_per_second 1 "app"
                    (empty 0) 7 eq_refl ltac:(cbn; lia) ltac:(cbn; lia)
                    ltac:(discriminate) ltac:(lia) ltac:(discriminate))).
  reflexivity.
Defined.



(** X27.  [SCRIPT_CLEAR_KEYS] leaves no key matching the pattern, keeps
    every other key as it was, and the number it returns is zero exactly
    when no existing key matched. *)
Theorem clear_keys_removes_the_matching_keys (matches : string → bool)
    (r : Redis) :
  (∀ key, matches key = true →
          live (SCRIPT_CLEAR_KEYS matches r).2 key = None)
  ∧ (∀ key, matches key = false →
            keys (SCRIPT_CLEAR_KEYS matches r).2 !! key = keys r !! key
            ∧ live (SCRIPT_CLEAR_KEYS matches r).2 key = live r key)
  ∧ clock (SCRIPT_CLEAR_KEYS matches r).2 = clock r
  ∧ 0 <= (SCRIPT_CLEAR_KEYS matches r).1
  ∧ ((SCRIPT_CLEAR_KEYS matches r).1 = 0
     ↔ ∀ key e, live r key = Some e → matches key = false).
Proof.
  cbn [SCRIPT_CLEAR_KEYS fst snd keys clock].
  split; [|split; [|split; [done|split; [lia|]]]].
  - intros key Hm. unfold live. cbn [keys clock].
    destruct (filter _ (keys r) !! key) as [e|] eqn:He; [|done].
    apply map_lookup_filter_Some in He as [_ Hhit]. cbn [fst snd] in Hhit.
    rewrite Hm in Hhit. cbn [andb] in Hhit.
    apply negb_false_iff in Hhit. by rewrite Hhit.
  - intros key Hm.
    assert (Hk : filter
              (λ kv : string * Entry,
                 matches kv.1 && negb (expired (clock r) kv.2) = false)
              (keys r) !! key = keys r !! key).
    { destruct (keys r !! key) as [e|] eqn:He.
      - apply map_lookup_filter_Some. split; [done|].
        cbn [fst snd]. by rewrite Hm.
      - apply map_lookup_filter_None. by left. }
    split; [exact Hk|]. unfold live. cbn [keys clock]. by rewrite Hk.
  - rewrite <- Nat2Z.inj_0, Nat2Z.inj_iff, map_size_empty_iff, map_empty.
    split.
    + intros Hnone key e [Hk Hexp]%live_Some.
      specialize (Hnone key).
      apply map_lookup_filter_None in Hnone as [Hnone|Hnone]; [congruence|].
      specialize (Hnone e Hk). cbn [fst snd] in Hnone.
      rewrite Hexp in Hnone. cbn [negb] in Hnone.
      rewrite andb_true_r in Hnone. by destruct (matches key).
    + intros Hall key. apply map_lookup_filter_None.
      destruct (keys r !! key) as [e|] eqn:He; [right|by left].
      intros x [= <-]. cbn [fst snd].
      destruct (expired (clock r) e) eqn:Hexp.
      * cbn [negb]. rewrite andb_false_r. done.
      * rewrite (Hall key e); [done|]. apply live_Some. by split.
Qed.

Lemma clear_keys_removes_the_matching_keys_witness :
  live (SCRIPT_CLEAR_KEYS (String.prefix "LIMITER/")
          (SCRIPT_INCR_EXPIRE "LIMITER/app/eth_call/second" 1 1 (empty 0)).2).2
       "LIMITER/app/eth_call/second" = None.
Proof.
  apply (proj1 (clear_keys_removes_the_matching_keys (String.prefix "LIMITER/")
                  (SCRIPT_INCR_EXPIRE "LIMITER/app/eth_call/second" 1 1
                     (empty 0)).2)).
  reflexivity.
Defined.

(** X28.  [SCRIPT_SET_EXPIRE] sets the value and carries the time to live
    over in whole seconds.  A key that was missing gets the expiry given.
    A key with at least half a second to live is set and expires within
    half a second of its former instant ([TTL] rounds to the nearest
    second).  A key with less than half a second to live is not set but
    deleted: its [TTL] is 0 and [EXPIRE key 0] removes it.  A key without a
    time to live is set and still has none.  No other key is touched. *)
Theorem set_expire_keeps_the_time_to_live (key : string) (argv1 argv2 : Z)
    (r : Redis) :
  0 <= clock r →
  (live r key = None → 0 < argv2 → clock r + argv2 * 1000 <= LLONG_MAX →
   (SCRIPT_SET_EXPIRE key argv1 argv2 r).1 = StatusReply "OK"
   ∧ live (SCRIPT_SET_EXPIRE key argv1 argv2 r).2 key
     = Some (mkEntry argv1 (Some (clock r + argv2 * 1000))))
  ∧ (∀ v t, live r key = Some (mkEntry v (Some t)) → t <= 2 ^ 62 →
       (SCRIPT_SET_EXPIRE key argv1 argv2 r).1 = StatusReply "OK"
       ∧ (t - clock r < 500 →
          live (SCRIPT_SET_EXPIRE key argv1 argv2 r).2 key = None)
       ∧ (500 <= t - clock r →
          live (SCRIPT_SET_EXPIRE key argv1 argv2 r).2 key
          = Some (mkEntry argv1
                    (Some (clock r + (t - clock r + 500) / 1000 * 1000)))
          ∧ t - 500 < clock r + (t - clock r + 500) / 1000 * 1000 <= t + 500))
  ∧ (∀ v, live r key = Some (mkEntry v None) →
       (SCRIPT_SET_EXPIRE key argv1 argv2 r).1 = StatusReply "OK"
       ∧ live (SCRIPT_SET_EXPIRE key argv1 argv2 r).2 key
         = Some (mkEntry argv1 None))
  ∧ (∀ other, other ≠ key →
       keys (SCRIPT_SET_EXPIRE key argv1 argv2 r).2 !! other
       = keys r !! other).
Proof.
  intros Hclock.
  assert (Hset : live (SET key argv1 r) key = Some (mkEntry argv1 None))
    by (by apply live_insert_eq).
  split; [|split; [|split]].
  - intros Hnone Hpos Hend. unfold SCRIPT_SET_EXPIRE, TTL. rewrite Hnone.
    cbn zeta.
    change (lua_number (-2) =? -2) with true. cbn iota.
    rewrite (expire_eq key argv2 (SET key argv1 r) _ Hset) by done.
    cbn [fst snd SET keys clock value]. split; [done|].
    apply live_insert_eq. unfold expired. cbn [expire_at].
    destruct (Z.ltb_spec (clock r + argv2 * 1000) (clock r)); [lia|done].
  - intros v t Hlive Ht.
    change (2 ^ 62) with 4611686018427387904 in Ht.
    unfold SCRIPT_SET_EXPIRE, TTL. rewrite Hlive. cbn [expire_at]. cbn zeta.
    apply live_Some in Hlive as [_ Hexp]. unfold expired in Hexp.
    cbn [expire_at] in Hexp. apply Z.ltb_ge in Hexp.
    rewrite Z.max_r by lia.
    pose proof (Z.div_mod (t - clock r + 500) 1000 ltac:(lia)) as Hdiv.
    pose proof (Z.mod_pos_bound (t - clock r + 500) 1000 ltac:(lia)) as Hmod.
    set (s := (t - clock r + 500) / 1000) in *.
    rewrite lua_number_exact
      by (change (2 ^ 53) with 9007199254740992; lia).
    destruct (Z.eqb_spec s (-2)) as [?|_]; [lia|].
    destruct (Z.eqb_spec s (-1)) as [?|_]; [lia|]. cbn [negb].
    destruct (Z_lt_le_dec (t - clock r) 500) as [Hshort|Hlong].
    + assert (Hs : s = 0) by lia. rewrite Hs.
      assert (Hexpire : expire key 0 (SET key argv1 r)
                        = (IntegerReply 1,
                           mkRedis (clock r)
                             (delete key (keys (SET key argv1 r))))).
      { unfold expire. cbn zeta. rewrite Hset.
        change (is_long_long 0) with true. cbn [negb].
        change ((Z.quot LLONG_MAX 1000 <? 0) || (0 <? Z.quot LLONG_MIN 1000))
          with false. cbn iota. rewrite Z.mul_0_l, Z.add_0_l.
        cbn [SET clock]. rewrite Z.leb_refl.
        destruct (Z.ltb_spec (LLONG_MAX - clock r) 0) as [Hlt|_]; [|done].
        unfold LLONG_MAX in Hlt. lia. }
      rewrite Hexpire. cbn [fst snd]. split; [done|]. split; [|lia].
      intros _. unfold live. cbn [keys clock SET].
      by rewrite lookup_delete_eq.
    + assert (Hs : 0 < s) by lia.
      rewrite (expire_eq key s (SET key argv1 r) _ Hset);
        [|done|done|cbn [SET clock]; unfold LLONG_MAX; lia].
      cbn [fst snd SET keys clock value]. split; [done|]. split; [lia|].
      intros _. split; [|lia].
      rewrite insert_insert_eq. apply live_insert_eq.
      unfold expired. cbn [expire_at].
      destruct (Z.ltb_spec (clock r + s * 1000) (clock r)); [lia|done].
  - intros v Hlive. unfold SCRIPT_SET_EXPIRE, TTL. rewrite Hlive.
    cbn [expire_at]. cbn zeta.
    change (lua_number (-1) =? -2) with false.
    change (lua_number (-1) =? -1) with true. cbn [negb]. cbn iota.
    split; [done|exact Hset].
  - intros other Hne.
    assert (Hother : ∀ seconds,
              keys (expire key seconds (SET key argv1 r)).2 !! other
              = keys r !! other).
    { intros seconds. unfold expire. cbn zeta. rewrite Hset.
      repeat case_match; cbn [snd SET keys clock];
        rewrite ?lookup_delete_ne, ?lookup_insert_ne by done; done. }
    unfold SCRIPT_SET_EXPIRE. cbn zeta.
    destruct (_ =? -2).
    { specialize (Hother argv2).
      by destruct (expire key argv2 (SET key argv1 r)) as [[] ?]. }
    destruct (negb _).
    { specialize (Hother (lua_number (TTL key r))).
      by destruct (expire key (lua_number (TTL key r)) (SET key argv1 r))
        as [[] ?]. }
    cbn [snd SET keys]. by rewrite lookup_insert_ne.
Qed.

Lemma set_expire_keeps_the_time_to_live_witness :
  live (SCRIPT_SET_EXPIRE "bucket" 9 30
          (advance 10200
             (SCRIPT_INCR_EXPIRE "bucket" 60 1 (empty 100000)).2)).2
       "bucket"
  = Some (mkEntry 9 (Some (110200 + (160000 - 110200 + 500) / 1000 * 1000))).
Proof.
  apply (proj2
    (proj2
       (proj1
          (proj2
             (set_expire_keeps_the_time_to_live "bucket" 9 30
                (advance 10200
                   (SCRIPT_INCR_EXPIRE "bucket" 60 1 (empty 100000)).2)
                ltac:(discriminate)))
          1 160000 eq_refl ltac:(discriminate)))).
  discriminate.
Defined.

(** Less than half a second before its expiry the key is deleted, not
    set. *)
Example set_expire_deletes_a_key_about_to_expire :
  SCRIPT_SET_EXPIRE "bucket" 9 30
    (advance 59600 (SCRIPT_INCR_EXPIRE "bucket" 60 1 (empty 100000)).2)
  = (StatusReply "OK", mkRedis 159600 ∅).
Proof. by vm_compute. Qed.

(** X29.  [get_maker_pair_data] does not depend on the letter case of its
    argument (on ASCII text): it answers [MKR] exactly for the spellings of
    [symbol] and [Maker] for everything else. *)
Theorem maker_pair_data_ignores_case (prop : string) :
  get_maker_pair_data (PyStr.lower prop) = get_maker_pair_data prop
  ∧ (get_maker_pair_data prop = "MKR" ↔ PyStr.lower prop = "symbol")
  ∧ (get_maker_pair_data prop = "MKR" ∨ get_maker_pair_data prop = "Maker").
Proof.
  assert (Hidem : PyStr.lower (PyStr.lower prop) = PyStr.lower prop)
    by apply PyStrProofs.lower_fixes_lower, PyStrProofs.lower_has_no_upper.
  unfold get_maker_pair_data. cbn zeta. rewrite !Hidem.
  split; [done|].
  destruct (String.eqb_spec (PyStr.lower prop) "name") as [Hn|Hn].
  - split; [|by right]. rewrite Hn. split; discriminate.
  - destruct (String.eqb_spec (PyStr.lower prop) "symbol") as [Hs|Hs].
    + split; [done|by left].
    + split; [|by right]. split; [discriminate|done].
Qed.

Example maker_symbol_any_case : get_maker_pair_data "SyMbOl" = "MKR".
Proof. reflexivity. Qed.

End LimiterMoreProofs.
